(** * LinkedIn connections extension: cache, error log, request queue and
      fetch orchestrator

    A shallow embedding of [src/cache-manager.ts], [src/error-handler.ts],
    the request queue ([request-queue.ts]) and [src/connections-service.ts],
    with the properties of the fetch-and-cache pipeline stated over it, and
    of what stands beside them: the cache monitor ([src/cache-monitor.ts]),
    the rate limiter, and the reading of company and position off the
    occupation in [linkedin-api.ts].

    Conventions of the embedding.
    - A JavaScript string is a [string] whose characters are code units in
      the range 0..255, so that [.length] is [String.length].
    - JavaScript numbers that hold millisecond clocks, durations and
      priorities are integers in [Z]; lengths and byte counts are in [N].
    - [Date.now()] is an explicit argument [now]; [Math.random()] draws and
      the answers of [fetch] are explicit oracle arguments.
    - [chrome.storage.local] is an explicit store that never fails.
    - JavaScript numbers that are not integers (a ratio, a percentage) are
      the doubles of [SpecFloat]. *)

From Stdlib Require Import ZArith NArith PArith List String Ascii Bool Lia.
From Stdlib Require Import DecimalString DecimalN DecimalPos.
From Stdlib Require Import Permutation Sorted.
From Stdlib Require SpecFloat.
Import ListNotations.

Local Open Scope string_scope.

(* ================================================================== *)
(** * Part I. The embedding                                            *)
(* ================================================================== *)

(** ** JavaScript strings *)

Module Js.

(** [s.length] *)
Definition length (s : string) : N := N.of_nat (String.length s).

(** The double quote and the backslash, by code. *)
Definition dquote : ascii := ascii_of_N 34.
Definition backslash : ascii := ascii_of_N 92.

(** [s.startsWith(p)] *)
Fixpoint startsWith (p s : string) : bool :=
  match p, s with
  | EmptyString, _ => true
  | String a p', String b s' => Ascii.eqb a b && startsWith p' s'
  | String _ _, EmptyString => false
  end.

(** [s.includes(p)] *)
Fixpoint includes (p s : string) : bool :=
  startsWith p s ||
  match s with
  | EmptyString => false
  | String _ s' => includes p s'
  end.

(** What is left of [s] after the prefix [p], when [s] starts with it. *)
Fixpoint stripPrefix (p s : string) : option string :=
  match p, s with
  | EmptyString, _ => Some s
  | String a p', String b s' =>
      if Ascii.eqb a b then stripPrefix p' s' else None
  | String _ _, EmptyString => None
  end.

(** Decimal rendering of a number, as in a template literal or in
    [JSON.stringify]. *)
Definition string_of_N (n : N) : string :=
  NilZero.string_of_uint (N.to_uint n).

Definition string_of_Z (z : Z) : string :=
  if (z <? 0)%Z then String "-" (string_of_N (Z.abs_N z))
  else string_of_N (Z.to_N z).

Definition is_digit (c : ascii) : bool :=
  let n := N_of_ascii c in ((48 <=? n) && (n <=? 57))%N.

(** The longest prefix of decimal digits, and the rest. *)
Fixpoint span_digits (s : string) : string * string :=
  match s with
  | EmptyString => (EmptyString, EmptyString)
  | String c r =>
      if is_digit c then
        let (ds, rest) := span_digits r in (String c ds, rest)
      else (EmptyString, s)
  end.

Definition N_of_digits (ds : string) : option N :=
  option_map N.of_uint (NilZero.uint_of_string ds).

(** [n] copies of the character [c]: ["c".repeat(n)]. *)
Definition repeat (c : ascii) (n : N) : string :=
  N.iter n (String c) EmptyString.

(** An [Error] object, as far as the code looks at it. *)
Record Error : Type := {
  name : string;
  message : string
}.

Definition newError (msg : string) : Error :=
  {| name := "Error"; message := msg |}.

(** A number that may be [NaN]: what [Number.parseInt] returns. *)
Inductive num : Type :=
| NaN
| Int (z : Z).

Definition string_of_num (x : num) : string :=
  match x with
  | NaN => "NaN"
  | Int z => string_of_Z z
  end.

(** [x * k] *)
Definition num_mul (x : num) (k : Z) : num :=
  match x with
  | NaN => NaN
  | Int z => Int (z * k)
  end.

(** [Math.max(x, y)] *)
Definition num_max (x y : num) : num :=
  match x, y with
  | Int a, Int b => Int (Z.max a b)
  | _, _ => NaN
  end.

(** [x > 0] *)
Definition num_positive (x : num) : bool :=
  match x with
  | NaN => false
  | Int z => (0 <? z)%Z
  end.

Definition is_js_whitespace (c : ascii) : bool :=
  let n := N_of_ascii c in
  ((n =? 9) || (n =? 10) || (n =? 11) || (n =? 12) || (n =? 13) || (n =? 32)
   || (n =? 160))%N.

Fixpoint trimStart (s : string) : string :=
  match s with
  | EmptyString => EmptyString
  | String c r => if is_js_whitespace c then trimStart r else s
  end.

Definition hex_value (c : ascii) : option N :=
  let n := N_of_ascii c in
  if ((48 <=? n) && (n <=? 57))%N then Some (n - 48)%N
  else if ((97 <=? n) && (n <=? 102))%N then Some (n - 87)%N
  else if ((65 <=? n) && (n <=? 70))%N then Some (n - 55)%N
  else None.

(** The value of the longest prefix of digits in the given radix, [None]
    when there is no digit. *)
Fixpoint digits_value (radix : N) (acc : option N) (s : string) : option N :=
  match s with
  | EmptyString => acc
  | String c r =>
      match hex_value c with
      | Some d =>
          if (d <? radix)%N then
            digits_value radix
              (Some (match acc with Some a => a * radix + d | None => d end)%N) r
          else acc
      | None => acc
      end
  end.

(** [Number.parseInt(s)], no radix given. *)
Definition parseInt (s : string) : num :=
  let t := trimStart s in
  let (neg, t) :=
    match t with
    | String c r =>
        if Ascii.eqb c "-" then (true, r)
        else if Ascii.eqb c "+" then (false, r) else (false, t)
    | EmptyString => (false, t)
    end in
  let (radix, t) :=
    match t with
    | String c (String x r) =>
        if Ascii.eqb c "0" && (Ascii.eqb x "x" || Ascii.eqb x "X")
        then (16%N, r) else (10%N, t)
    | _ => (10%N, t)
    end in
  match digits_value radix None t with
  | Some n => Int (if neg then - Z.of_N n else Z.of_N n)
  | None => NaN
  end.

End Js.

(** ** JavaScript numbers that are not integers

    The doubles of IEEE 754, with the operations rounded to nearest even. *)

Module Number.

Import SpecFloat.

(** The double of an integer. *)
Definition ofZ (z : Z) : spec_float := binary_normalize 53 1024 z 0 false.
Definition ofN (n : N) : spec_float := ofZ (Z.of_N n).

(** The doubles that [0.3] and [0.5] denote. *)
Definition threeTenths : spec_float := S754_finite false 5404319552844595 (-54).
Definition half : spec_float := S754_finite false 4503599627370496 (-53).

(** [x < y] *)
Definition ltb (x y : spec_float) : bool := SFltb x y.

(** [x / y] and [x * y] *)
Definition div (x y : spec_float) : spec_float := SFdiv 53 1024 x y.
Definition mul (x y : spec_float) : spec_float := SFmul 53 1024 x y.

(** [Math.round(x)]: the integer nearest to [x], the greater one of two
    that are as near; [x] itself when it is an integer, a zero, an infinity
    or [NaN]; a zero of the sign of [x] when the result is zero. *)
Definition round (x : spec_float) : spec_float :=
  match x with
  | S754_finite s m e =>
      if (0 <=? e)%Z then x
      else
        binary_normalize 53 1024
          ((cond_Zopp s (Z.pos m) + 2 ^ (- e - 1)) / 2 ^ (- e))%Z 0 s
  | _ => x
  end.

End Number.

(** ** JSON values, [JSON.stringify] and [JSON.parse] *)

Module JSON.

(** A value that survives [chrome.storage]: [Obj] lists the own properties
    of an object in enumeration order. Numbers are integers. *)
#[warnings="-register-all"]
Inductive json : Type :=
| Null
| Bool (b : bool)
| Num (z : Z)
| Str (s : string)
| Arr (l : list json)
| Obj (l : list (string * json)).

(** Lower-case hexadecimal digit of a value below 16. *)
Definition hex_digit (n : N) : ascii :=
  if (n <? 10)%N then ascii_of_N (48 + n) else ascii_of_N (87 + n).

(** How [JSON.stringify] writes one character of a string. *)
Definition escape_char (c : ascii) : string :=
  match N_of_ascii c with
  | 34%N => String Js.backslash (String Js.dquote EmptyString)
  | 92%N => String Js.backslash (String Js.backslash EmptyString)
  | 8%N => String Js.backslash "b"
  | 12%N => String Js.backslash "f"
  | 10%N => String Js.backslash "n"
  | 13%N => String Js.backslash "r"
  | 9%N => String Js.backslash "t"
  | n =>
      if (n <? 32)%N then
        String Js.backslash
          (String "u" (String "0" (String "0"
            (String (hex_digit (n / 16)) (String (hex_digit (n mod 16)) EmptyString)))))
      else String c EmptyString
  end.

Fixpoint escape (s : string) : string :=
  match s with
  | EmptyString => EmptyString
  | String c r => escape_char c ++ escape r
  end.

Definition quote (s : string) : string :=
  String Js.dquote (escape s ++ String Js.dquote EmptyString).

(** [JSON.stringify(v)], without indentation. *)
Fixpoint stringify (v : json) : string :=
  match v with
  | Null => "null"
  | Bool true => "true"
  | Bool false => "false"
  | Num z => Js.string_of_Z z
  | Str s => quote s
  | Arr l =>
      String "["
        ((fix elems (l : list json) : string :=
            match l with
            | [] => "]"
            | [x] => stringify x ++ "]"
            | x :: r => stringify x ++ String "," (elems r)
            end) l)
  | Obj l =>
      String "{"
        ((fix members (l : list (string * json)) : string :=
            match l with
            | [] => "}"
            | [(k, x)] => quote k ++ String ":" (stringify x ++ "}")
            | (k, x) :: r => quote k ++ String ":" (stringify x ++ String "," (members r))
            end) l)
  end.

(** *** The parser

    [JSON.parse] on text without white space between tokens, which is what
    [JSON.stringify] writes. *)

Definition cons_char (c : ascii) (r : option (string * string))
  : option (string * string) :=
  match r with
  | Some (s, rest) => Some (String c s, rest)
  | None => None
  end.

(** The characters of a string literal after its opening quote, up to and
    including the closing quote. *)
Fixpoint parse_chars (s : string) : option (string * string) :=
  match s with
  | EmptyString => None
  | String c r =>
      match N_of_ascii c with
      | 34%N => Some (EmptyString, r)
      | 92%N =>
          match r with
          | EmptyString => None
          | String e r1 =>
              match N_of_ascii e with
              | 34%N | 92%N | 47%N => cons_char e (parse_chars r1)
              | 98%N => cons_char (ascii_of_N 8) (parse_chars r1)
              | 102%N => cons_char (ascii_of_N 12) (parse_chars r1)
              | 110%N => cons_char (ascii_of_N 10) (parse_chars r1)
              | 114%N => cons_char (ascii_of_N 13) (parse_chars r1)
              | 116%N => cons_char (ascii_of_N 9) (parse_chars r1)
              | 117%N =>
                  match r1 with
                  | String h1 (String h2 (String h3 (String h4 r2))) =>
                      match Js.hex_value h1, Js.hex_value h2, Js.hex_value h3, Js.hex_value h4 with
                      | Some a, Some b, Some c', Some d =>
                          let n := (((a * 16 + b) * 16 + c') * 16 + d)%N in
                          if (n <? 256)%N then cons_char (ascii_of_N n) (parse_chars r2)
                          else None
                      | _, _, _, _ => None
                      end
                  | _ => None
                  end
              | _ => None
              end
          end
      | n => if (n <? 32)%N then None else cons_char c (parse_chars r)
      end
  end.

Definition parse_string (s : string) : option (string * string) :=
  match s with
  | String c r => if Ascii.eqb c Js.dquote then parse_chars r else None
  | EmptyString => None
  end.

Definition parse_number (s : string) : option (Z * string) :=
  let (neg, s1) :=
    match s with
    | String c r => if Ascii.eqb c "-" then (true, r) else (false, s)
    | EmptyString => (false, s)
    end in
  let (ds, rest) := Js.span_digits s1 in
  match Js.N_of_digits ds with
  | Some n => Some (if neg then (- Z.of_N n)%Z else Z.of_N n, rest)
  | None => None
  end.

(** The elements of an array after the first bracket, given the parser of
    one value. *)
Fixpoint parse_elems (pv : string -> option (json * string)) (n : nat)
    (s : string) : option (list json * string) :=
  match n with
  | O => None
  | S n' =>
      match pv s with
      | Some (v, String c r) =>
          if Ascii.eqb c "," then
            match parse_elems pv n' r with
            | Some (vs, r') => Some (v :: vs, r')
            | None => None
            end
          else if Ascii.eqb c "]" then Some ([v], r)
          else None
      | _ => None
      end
  end.

Fixpoint parse_members (pv : string -> option (json * string)) (n : nat)
    (s : string) : option (list (string * json) * string) :=
  match n with
  | O => None
  | S n' =>
      match parse_string s with
      | Some (k, String c0 r0) =>
          if Ascii.eqb c0 ":" then
            match pv r0 with
            | Some (v, String c r) =>
                if Ascii.eqb c "," then
                  match parse_members pv n' r with
                  | Some (kvs, r') => Some ((k, v) :: kvs, r')
                  | None => None
                  end
                else if Ascii.eqb c "}" then Some ([(k, v)], r)
                else None
            | _ => None
            end
          else None
      | _ => None
      end
  end.

Definition with_rest {A B : Type} (f : A -> B) (r : option (A * string))
  : option (B * string) :=
  match r with
  | Some (a, rest) => Some (f a, rest)
  | None => None
  end.

Fixpoint parse_value (fuel : nat) (s : string) : option (json * string) :=
  match fuel with
  | O => None
  | S f =>
      match s with
      | EmptyString => None
      | String c r =>
          match N_of_ascii c with
          | 110%N => option_map (fun r' => (Null, r')) (Js.stripPrefix "ull" r)
          | 116%N => option_map (fun r' => (Bool true, r')) (Js.stripPrefix "rue" r)
          | 102%N => option_map (fun r' => (Bool false, r')) (Js.stripPrefix "alse" r)
          | 34%N => with_rest Str (parse_chars r)
          | 91%N =>
              match r with
              | String c2 r2 =>
                  if Ascii.eqb c2 "]" then Some (Arr [], r2)
                  else with_rest Arr (parse_elems (parse_value f) f r)
              | EmptyString => None
              end
          | 123%N =>
              match r with
              | String c2 r2 =>
                  if Ascii.eqb c2 "}" then Some (Obj [], r2)
                  else with_rest Obj (parse_members (parse_value f) f r)
              | EmptyString => None
              end
          | _ => with_rest Num (parse_number s)
          end
      end
  end.

(** [JSON.parse(s)]: [None] stands for the [SyntaxError] it throws. Every
    value takes at least one character, so the length of the text bounds the
    nesting and the number of elements. *)
Definition parse (s : string) : option json :=
  match parse_value (S (String.length s)) s with
  | Some (v, EmptyString) => Some v
  | _ => None
  end.

(** Property access [v.k] on a parsed value ([None]: [undefined]). *)
Fixpoint lookup (k : string) (l : list (string * json)) : option json :=
  match l with
  | [] => None
  | (k', v) :: r => if String.eqb k k' then Some v else lookup k r
  end.

(** JavaScript truthiness of a value. *)
Definition truthy (v : json) : bool :=
  match v with
  | Null => false
  | Bool b => b
  | Num z => negb (z =? 0)%Z
  | Str s => negb (String.eqb s EmptyString)
  | Arr _ | Obj _ => true
  end.

End JSON.

(** ** Base64: [btoa] and [atob] *)

Module Base64.

Definition alphabet_char (n : N) : ascii :=
  if (n <? 26)%N then ascii_of_N (65 + n)
  else if (n <? 52)%N then ascii_of_N (71 + n)
  else if (n <? 62)%N then ascii_of_N (n - 4)
  else if (n =? 62)%N then "+"%char
  else "/"%char.

Definition alphabet_value (c : ascii) : option N :=
  let n := N_of_ascii c in
  if ((65 <=? n) && (n <=? 90))%N then Some (n - 65)%N
  else if ((97 <=? n) && (n <=? 122))%N then Some (n - 71)%N
  else if ((48 <=? n) && (n <=? 57))%N then Some (n + 4)%N
  else if (n =? 43)%N then Some 62%N
  else if (n =? 47)%N then Some 63%N
  else None.

(** [btoa(s)] of a binary string. *)
Fixpoint btoa (s : string) : string :=
  match s with
  | EmptyString => EmptyString
  | String a EmptyString =>
      let x := N_of_ascii a in
      String (alphabet_char (x / 4))
        (String (alphabet_char ((x mod 4) * 16)) "==")
  | String a (String b EmptyString) =>
      let x := N_of_ascii a in
      let y := N_of_ascii b in
      String (alphabet_char (x / 4))
        (String (alphabet_char ((x mod 4) * 16 + y / 16))
          (String (alphabet_char ((y mod 16) * 4)) "="))
  | String a (String b (String c r)) =>
      let x := N_of_ascii a in
      let y := N_of_ascii b in
      let z := N_of_ascii c in
      String (alphabet_char (x / 4))
        (String (alphabet_char ((x mod 4) * 16 + y / 16))
          (String (alphabet_char ((y mod 16) * 4 + z / 64))
            (String (alphabet_char (z mod 64)) (btoa r))))
  end.

Definition is_ascii_whitespace (c : ascii) : bool :=
  let n := N_of_ascii c in
  ((n =? 9) || (n =? 10) || (n =? 12) || (n =? 13) || (n =? 32))%N.

Fixpoint strip_whitespace (s : string) : string :=
  match s with
  | EmptyString => EmptyString
  | String c r =>
      if is_ascii_whitespace c then strip_whitespace r
      else String c (strip_whitespace r)
  end.

(** One or two [=] at the end are dropped. *)
Fixpoint remove_padding (s : string) : string :=
  match s with
  | EmptyString => EmptyString
  | String a EmptyString => if Ascii.eqb a "=" then EmptyString else s
  | String a (String b EmptyString) =>
      if Ascii.eqb b "=" then
        if Ascii.eqb a "=" then EmptyString else String a EmptyString
      else s
  | String a r => String a (remove_padding r)
  end.

Fixpoint values (s : string) : option (list N) :=
  match s with
  | EmptyString => Some []
  | String c r =>
      match alphabet_value c, values r with
      | Some v, Some vs => Some (v :: vs)
      | _, _ => None
      end
  end.

Fixpoint decode (vs : list N) : string :=
  match vs with
  | a :: b :: c :: d :: r =>
      String (ascii_of_N (a * 4 + b / 16))
        (String (ascii_of_N ((b mod 16) * 16 + c / 4))
          (String (ascii_of_N ((c mod 4) * 64 + d)) (decode r)))
  | [a; b; c] =>
      String (ascii_of_N (a * 4 + b / 16))
        (String (ascii_of_N ((b mod 16) * 16 + c / 4)) EmptyString)
  | [a; b] => String (ascii_of_N (a * 4 + b / 16)) EmptyString
  | _ => EmptyString
  end.

(** [atob(s)]: [None] stands for the [InvalidCharacterError] it throws. *)
Definition atob (s : string) : option string :=
  let t := strip_whitespace s in
  let t := if (Js.length t mod 4 =? 0)%N then remove_padding t else t in
  if (Js.length t mod 4 =? 1)%N then None
  else option_map decode (values t).

End Base64.

(** ** The platform

    What the host engine decides: how many arguments a call may spread
    before it throws a [RangeError], and what [TextDecoder.decode] makes of
    a byte sequence. *)

Record Platform : Type := {
  maxArguments : N;
  textDecode : list Byte.byte -> string
}.

(** [new TextEncoder().encode(s)]: UTF-8 of code units below 256. *)
Definition textEncode_char (c : ascii) : list Byte.byte :=
  let n := N_of_ascii c in
  if (n <? 128)%N then [byte_of_ascii c]
  else [byte_of_ascii (ascii_of_N (192 + n / 64));
        byte_of_ascii (ascii_of_N (128 + n mod 64))].

Fixpoint textEncode (s : string) : list Byte.byte :=
  match s with
  | EmptyString => []
  | String c r => textEncode_char c ++ textEncode r
  end.

(** [String.fromCharCode(...bytes)] *)
Definition fromCharCodes (bytes : list Byte.byte) : string :=
  string_of_list_byte bytes.

(** [Uint8Array.from(s, c => c.charCodeAt(0))] *)
Definition charCodes (s : string) : list Byte.byte :=
  list_byte_of_string s.

(** ** types.ts and the store *)

(** [CacheEntry<T>] as [set] stores it, with the two fields it adds. *)
Record StoredEntry : Type := {
  data : JSON.json;
  timestamp : Z;
  ttl : Z;
  compressed : bool;
  size : N
}.

(** The entries of [chrome.storage.local] whose key starts with
    [CACHE_PREFIX], under the rest of their key, in the order in which
    [Object.entries] lists them. *)
Definition Store : Type := list (string * StoredEntry).

Module Storage.

Fixpoint get (k : string) (st : Store) : option StoredEntry :=
  match st with
  | [] => None
  | (k', e) :: r => if String.eqb k k' then Some e else get k r
  end.

Fixpoint set (k : string) (e : StoredEntry) (st : Store) : Store :=
  match st with
  | [] => [(k, e)]
  | (k', e') :: r =>
      if String.eqb k k' then (k, e) :: r else (k', e') :: set k e r
  end.

Definition remove (ks : list string) (st : Store) : Store :=
  filter (fun kv => negb (existsb (String.eqb (fst kv)) ks)) st.

End Storage.

(** ** cache-manager.ts *)

Module CacheManager.

Import JSON.

Definition DEFAULT_TTL : Z := 5 * 60 * 1000.
Definition MAX_CACHE_SIZE : N := 5 * 1024 * 1024.
Definition COMPRESSION_THRESHOLD : N := 1024.

(** The object [{ data, timestamp, ttl }] that [set] serializes. *)
Definition cacheEntryJson (d : json) (ts t : Z) : json :=
  Obj [("data", d); ("timestamp", Num ts); ("ttl", Num t)].

(** A stored entry as the object read back from the store. *)
Definition storedEntryJson (e : StoredEntry) : json :=
  Obj [("data", data e); ("timestamp", Num (timestamp e)); ("ttl", Num (ttl e));
       ("compressed", Bool (compressed e)); ("size", Num (Z.of_N (size e)))].

Definition compressData (P : Platform) (s : string) : string :=
  let compressed := textEncode s in
  if (maxArguments P <? N.of_nat (List.length compressed))%N
  then s (* the spread throws: "Compression failed, storing uncompressed" *)
  else Base64.btoa (fromCharCodes compressed).

Definition decompressData (P : Platform) (s : string) : string :=
  match Base64.atob s with
  | Some bin => textDecode P (charCodes bin)
  | None => s (* "Decompression failed, returning as-is" *)
  end.

Definition remove (key : string) (st : Store) : Store :=
  Storage.remove [key] st.

Definition clear (st : Store) : Store :=
  Storage.remove (map fst st) st.

Record CacheStats : Type := {
  totalItems : N;
  totalSize : N;
  oldestEntry : option Z;
  newestEntry : option Z;
  expiredItems : N
}.

(** What one entry adds to [totalSize]. *)
Definition entrySize (e : StoredEntry) : N :=
  if (size e =? 0)%N then Js.length (stringify (storedEntryJson e)) else size e.

Definition falsy (o : option Z) : bool :=
  match o with
  | None => true
  | Some z => (z =? 0)%Z
  end.

Definition statsStep (now : Z) (acc : CacheStats) (kv : string * StoredEntry)
  : CacheStats :=
  let e := snd kv in
  let ts := timestamp e in
  let hasTs := negb (ts =? 0)%Z in
  {| totalItems := totalItems acc;
     totalSize := totalSize acc + entrySize e;
     oldestEntry :=
       if hasTs && (falsy (oldestEntry acc)
                    || match oldestEntry acc with Some o => (ts <? o)%Z | None => false end)
       then Some ts else oldestEntry acc;
     newestEntry :=
       if hasTs && (falsy (newestEntry acc)
                    || match newestEntry acc with Some o => (o <? ts)%Z | None => false end)
       then Some ts else newestEntry acc;
     expiredItems :=
       if hasTs && (ttl e <? now - ts)%Z then expiredItems acc + 1
       else expiredItems acc |}.

Definition getCacheStats (now : Z) (st : Store) : CacheStats :=
  fold_left (statsStep now)
    st
    {| totalItems := N.of_nat (List.length st); totalSize := 0;
       oldestEntry := None; newestEntry := None; expiredItems := 0 |}.

Definition isExpiredForCleanup (now : Z) (e : StoredEntry) : bool :=
  negb (timestamp e =? 0)%Z && negb (ttl e =? 0)%Z
  && (ttl e <? now - timestamp e)%Z.

Definition cleanupExpired (now : Z) (st : Store) : N * Store :=
  let expiredKeys :=
    map fst (filter (fun kv => isExpiredForCleanup now (snd kv)) st) in
  (N.of_nat (List.length expiredKeys), Storage.remove expiredKeys st).

(** [Array.prototype.sort] with the comparator
    [(a.timestamp || 0) - (b.timestamp || 0)]: a stable sort by time. *)
Fixpoint insertByTimestamp (kv : string * StoredEntry) (l : Store) : Store :=
  match l with
  | [] => [kv]
  | kv' :: r =>
      if (timestamp (snd kv) <? timestamp (snd kv'))%Z then kv :: l
      else kv' :: insertByTimestamp kv r
  end.

Definition sortByTimestamp (l : Store) : Store :=
  fold_right insertByTimestamp [] l.

Definition removeOldestItems (count : N) (st : Store) : Store :=
  let cacheItems := firstn (N.to_nat count) (sortByTimestamp st) in
  Storage.remove (map fst cacheItems) st.

(** [Math.ceil(n * 0.3)]. The double nearest to 0.3 is below it by less
    than 2^-55, so for every count below 2^50 the product rounds to the
    exact value when that is an integer and stays strictly between the
    neighbouring integers otherwise. *)
Definition ceil30percent (n : N) : N := (3 * n + 9) / 10.

Definition enforceStorageLimit (now : Z) (st : Store) : Store :=
  let stats := getCacheStats now st in
  if (MAX_CACHE_SIZE <? totalSize stats)%N then
    let st1 := snd (cleanupExpired now st) in
    let updatedStats := getCacheStats now st1 in
    if (MAX_CACHE_SIZE <? totalSize updatedStats)%N then
      removeOldestItems (ceil30percent (totalItems updatedStats)) st1
    else st1
  else st.

(** [set(key, data, ttl)] at time [now]. *)
Definition set (P : Platform) (key : string) (d : json) (t : Z) (now : Z)
    (st : Store) : Store :=
  let st1 := enforceStorageLimit now st in
  let serialized := stringify (cacheEntryJson d now t) in
  let serializedData :=
    if (COMPRESSION_THRESHOLD <? Js.length serialized)%N
    then compressData P serialized else serialized in
  Storage.set key
    {| data := d; timestamp := now; ttl := t;
       compressed := (COMPRESSION_THRESHOLD <? Js.length serializedData)%N;
       size := Js.length serializedData |}
    st1.

(** [get(key)] at time [now]: the value returned, [None] for [null] (and for
    [undefined]), and the store it leaves. *)
Definition get (P : Platform) (key : string) (now : Z) (st : Store)
  : option json * Store :=
  match Storage.get key st with
  | None => (None, st)
  | Some e =>
      if (ttl e <? now - timestamp e)%Z then (None, remove key st)
      else if compressed e then
        let decompressedData := decompressData P (stringify (storedEntryJson e)) in
        match parse decompressedData with
        | Some (Obj fields) => (lookup "data" fields, st)
        | Some _ => (None, st)
        | None => (None, st) (* caught: "Failed to get cache" *)
        end
      else (Some (data e), st)
  end.

(** *** Validation and the detailed statistics *)

Definition CACHE_PREFIX : string := "linkedin_connections_".

(** [!entry.timestamp || !entry.ttl]: what [validateCache] calls invalid in
    an entry that is an object. *)
Definition invalidEntry (entry : StoredEntry) : bool :=
  (timestamp entry =? 0)%Z || (ttl entry =? 0)%Z.

Record Validation : Type := {
  valid : N;
  invalid : N;
  repaired : N
}.

(** One turn of the loop of [validateCache]: the counters and
    [keysToRemove]. The call of [decompressData] on a compressed entry
    returns without throwing and its result is dropped. *)
Definition validateStep (acc : N * N * list string) (kv : string * StoredEntry)
  : N * N * list string :=
  let '(valid, invalid, keysToRemove) := acc in
  if invalidEntry (snd kv)
  then (valid, (invalid + 1)%N, (keysToRemove ++ [fst kv])%list)
  else ((valid + 1)%N, invalid, keysToRemove).

Definition validateCache (st : Store) : Validation * Store :=
  let '(valid, invalid, keysToRemove) :=
    fold_left validateStep st (0%N, 0%N, []) in
  ({| valid := valid; invalid := invalid;
      repaired := N.of_nat (List.length keysToRemove) |},
   Storage.remove keysToRemove st).

(** [s.replace(p, "")]: the first occurrence of [p] is taken out. *)
Fixpoint removeFirst (p s : string) : string :=
  match Js.stripPrefix p s with
  | Some rest => rest
  | None =>
      match s with
      | EmptyString => EmptyString
      | String c s' => String c (removeFirst p s')
      end
  end.

Module Detail.

Record Entry : Type := {
  key : string;
  size : N;
  age : Z;
  ttl : Z;
  expired : bool;
  compressed : bool
}.

End Detail.

(** [getDetailedStats()]: [getCacheStats] reads the clock at [nowStats],
    the function itself at [now]. *)
Definition getDetailedStats (nowStats now : Z) (st : Store)
  : CacheStats * list Detail.Entry :=
  (getCacheStats nowStats st,
   map (fun kv =>
          let entry := snd kv in
          {| Detail.key := removeFirst CACHE_PREFIX (CACHE_PREFIX ++ fst kv);
             Detail.size := entrySize entry;
             Detail.age := now - timestamp entry;
             Detail.ttl := ttl entry;
             Detail.expired := isExpiredForCleanup now entry;
             Detail.compressed := compressed entry |}) st).

End CacheManager.

(** ** Health reports *)

Module Health.

(** ["healthy" | "warning" | "critical"] *)
Inductive Status : Type :=
| healthy
| warning
| critical.

(** One [if] of a health check that pushes an issue and a recommendation
    and sets the status. *)
Definition flag (condition : bool) (to : Status) (issue recommendation : string)
    (acc : Status * list string * list string) : Status * list string * list string :=
  let '(status, issues, recommendations) := acc in
  if condition
  then (to, (issues ++ [issue])%list, (recommendations ++ [recommendation])%list)
  else acc.

End Health.

(** ** cache-monitor.ts *)

Module CacheMonitor.

Import CacheManager Health.

(** What [performMaintenanceTasks] writes to the console. *)
Record Maintenance : Type := {
  expiredCount : N;
  validation : Validation;
  stats : CacheStats
}.

(** [performMaintenanceTasks()] at time [now]. *)
Definition performMaintenanceTasks (now : Z) (st : Store) : Maintenance * Store :=
  let (expiredCount, st) := cleanupExpired now st in
  let (validation, st) := validateCache st in
  let stats := getCacheStats now st in
  ({| expiredCount := expiredCount; validation := validation; stats := stats |}, st).

Record HealthReport : Type := {
  status : Status;
  issues : list string;
  recommendations : list string;
  reportStats : CacheStats;
  reportValidation : Validation;
  healthScore : Z
}.

(** [Math.round(n / 1024)] *)
Definition kilobytes (n : N) : N := (n + 512) / 1024.

(** [getHealthReport()] at time [now]. *)
Definition getHealthReport (now : Z) (st : Store) : HealthReport * Store :=
  let stats := getCacheStats now st in
  let (validation, st) := validateCache st in
  let acc := (healthy, [], []) in
  let acc :=
    flag (Number.ltb (Number.mul (Number.ofN (totalItems stats)) Number.threeTenths)
            (Number.ofN (expiredItems stats))) warning
      ("High number of expired items (" ++ Js.string_of_N (expiredItems stats)
       ++ "/" ++ Js.string_of_N (totalItems stats) ++ ")")
      "Run cache cleanup to remove expired entries" acc in
  let acc :=
    flag (4 * 1024 * 1024 <? totalSize stats)%N warning
      ("Cache size is large (" ++ Js.string_of_N (kilobytes (totalSize stats)) ++ "KB)")
      "Consider clearing old cache entries" acc in
  let acc :=
    flag (0 <? invalid validation)%N warning
      ("Found " ++ Js.string_of_N (invalid validation) ++ " corrupted cache entries")
      "Cache validation repaired corrupted entries" acc in
  let '(status, issues, recommendations) := acc in
  let '(issues, recommendations) :=
    if (totalItems stats =? 0)%N
    then ((issues ++ ["No cached data available"])%list,
          (recommendations ++ ["Fetch connections to populate cache"])%list)
    else (issues, recommendations) in
  let status := if (2 <? List.length issues)%nat then critical else status in
  ({| status := status; issues := issues; recommendations := recommendations;
      reportStats := stats; reportValidation := validation;
      healthScore := Z.max 0 (100 - Z.of_nat (List.length issues) * 20) |}, st).

End CacheMonitor.

(** ** error-handler.ts *)

Module ErrorHandler.

Inductive ErrorType : Type :=
| AUTHENTICATION
| NETWORK
| RATE_LIMIT
| PARSING
| CACHE
| PERMISSION
| TIMEOUT
| UNKNOWN.

Definition Context : Type := list (string * JSON.json).

Record ExtensionError : Type := {
  type : ErrorType;
  message : string;
  originalError : option Js.Error;
  context : option Context;
  timestamp : Z;
  recoverable : bool;
  userMessage : string;
  suggestedAction : option string
}.

(** An error as [storeCriticalError] serializes it: the original error is
    replaced by its message, or by [null]. *)
Record StoredCriticalError : Type := {
  stored : ExtensionError;
  storedOriginalError : option string
}.

(** The static [errorLog] and the [critical_errors] key of
    [chrome.storage.local]. *)
Record State : Type := {
  errorLog : list ExtensionError;
  critical_errors : list StoredCriticalError
}.

Definition initial : State := {| errorLog := []; critical_errors := [] |}.

Definition MAX_LOG_SIZE : nat := 100.

Definition isRecoverable (t : ErrorType) : bool :=
  match t with
  | NETWORK | TIMEOUT | RATE_LIMIT => true
  | AUTHENTICATION | PERMISSION => false
  | PARSING | CACHE | UNKNOWN => true
  end.

Definition getUserMessage (t : ErrorType) (msg : string) : string :=
  match t with
  | AUTHENTICATION => "Please log in to LinkedIn and try again."
  | NETWORK => "Network connection issue. Please check your internet connection."
  | RATE_LIMIT => "LinkedIn is limiting requests. Please wait a moment and try again."
  | PARSING => "Unable to process LinkedIn data. This may be due to changes in LinkedIn's interface."
  | CACHE => "Cache error occurred. Your data may need to be refreshed."
  | PERMISSION => "Extension permissions are required. Please check your browser settings."
  | TIMEOUT => "Request timed out. Please try again."
  | UNKNOWN => "An unexpected error occurred. Please try refreshing the page."
  end.

Definition getSuggestedAction (t : ErrorType) : option string :=
  match t with
  | AUTHENTICATION => Some "Navigate to LinkedIn and log in to your account"
  | NETWORK => Some "Check your internet connection and try again"
  | RATE_LIMIT => Some "Wait 5-10 minutes before making more requests"
  | PARSING => Some "Clear cache and refresh the extension"
  | CACHE => Some "Clear cache from the dashboard settings"
  | PERMISSION => Some "Check Chrome extension permissions in browser settings"
  | TIMEOUT => Some "Try again with a stable internet connection"
  | UNKNOWN => Some "Refresh the page or restart the extension"
  end.

(** [error.originalError?.message || null] *)
Definition serializeOriginal (o : option Js.Error) : option string :=
  match o with
  | Some e =>
      if String.eqb (Js.message e) EmptyString then None else Some (Js.message e)
  | None => None
  end.

Definition storeCriticalError (error : ExtensionError) (st : State) : State :=
  let criticalErrors :=
    {| stored := error;
       storedOriginalError := serializeOriginal (originalError error) |}
    :: critical_errors st in
  let limitedErrors := firstn 10 criticalErrors in
  {| errorLog := errorLog st; critical_errors := limitedErrors |}.

Definition logError (error : ExtensionError) (st : State) : State :=
  let log := error :: errorLog st in
  let log :=
    if (MAX_LOG_SIZE <? List.length log)%nat then firstn MAX_LOG_SIZE log else log in
  let st := {| errorLog := log; critical_errors := critical_errors st |} in
  if negb (recoverable error) then storeCriticalError error st else st.

Definition createError (t : ErrorType) (msg : string)
    (original : option Js.Error) (ctx : option Context) (now : Z) (st : State)
  : ExtensionError * State :=
  let error :=
    {| type := t; message := msg; originalError := original; context := ctx;
       timestamp := now; recoverable := isRecoverable t;
       userMessage := getUserMessage t msg;
       suggestedAction := getSuggestedAction t |} in
  (error, logError error st).

Definition networkErrorType (error : Js.Error) : ErrorType :=
  if Js.includes "timeout" (Js.message error)
     || String.eqb (Js.name error) "AbortError" then TIMEOUT
  else if Js.includes "429" (Js.message error)
          || Js.includes "rate limit" (Js.message error) then RATE_LIMIT
  else NETWORK.

Definition handleNetworkError (error : Js.Error) (ctx : option Context)
    (now : Z) (st : State) : ExtensionError * State :=
  createError (networkErrorType error) (Js.message error) (Some error) ctx now st.

Definition handleAuthError (msg : string) (ctx : option Context) (now : Z)
    (st : State) : ExtensionError * State :=
  createError AUTHENTICATION msg None ctx now st.

Definition handleCacheError (error : Js.Error) (ctx : option Context)
    (now : Z) (st : State) : ExtensionError * State :=
  createError CACHE (Js.message error) (Some error) ctx now st.

Definition handlePermissionError (msg : string) (ctx : option Context)
    (now : Z) (st : State) : ExtensionError * State :=
  createError PERMISSION msg None ctx now st.

Definition getErrorLog (st : State) : list ExtensionError := errorLog st.

Definition getCriticalErrors (st : State) : list StoredCriticalError :=
  critical_errors st.

(** *** The analysis of the log *)

(** [a === b] on error types. *)
Definition ErrorType_eqb (a b : ErrorType) : bool :=
  match a, b with
  | AUTHENTICATION, AUTHENTICATION | NETWORK, NETWORK | RATE_LIMIT, RATE_LIMIT
  | PARSING, PARSING | CACHE, CACHE | PERMISSION, PERMISSION | TIMEOUT, TIMEOUT
  | UNKNOWN, UNKNOWN => true
  | _, _ => false
  end.

(** [acc[type] = (acc[type] || 0) + 1] on an object whose keys are listed in
    the order in which they were added. *)
Fixpoint bump (t : ErrorType) (acc : list (ErrorType * Z)) : list (ErrorType * Z) :=
  match acc with
  | [] => [(t, (0 + 1)%Z)]
  | (t', n) :: rest =>
      if ErrorType_eqb t t'
      then (t', ((if (n =? 0)%Z then 0 else n) + 1)%Z) :: rest
      else (t', n) :: bump t rest
  end.

Record ErrorAnalysis : Type := {
  totalErrors : Z;
  errorsByType : list (ErrorType * Z);
  recentErrors : Z;
  criticalErrors : Z;
  recoveryRate : SpecFloat.spec_float
}.

(** [getErrorAnalysis()] at time [now]. *)
Definition getErrorAnalysis (now : Z) (st : State) : ErrorAnalysis :=
  let oneHourAgo := (now - 60 * 60 * 1000)%Z in
  let recentErrors := filter (fun e => (oneHourAgo <? timestamp e)%Z) (errorLog st) in
  let criticalErrors := filter (fun e => negb (recoverable e)) (errorLog st) in
  let errorsByType :=
    fold_left (fun acc error => bump (type error) acc) (errorLog st) [] in
  let totalErrors := Z.of_nat (List.length (errorLog st)) in
  let recoveryRate :=
    if (0 <? totalErrors)%Z
    then Number.mul
           (Number.div
              (Number.ofZ (totalErrors - Z.of_nat (List.length criticalErrors)))
              (Number.ofZ totalErrors))
           (Number.ofZ 100)
    else Number.ofZ 100 in
  {| totalErrors := totalErrors;
     errorsByType := errorsByType;
     recentErrors := Z.of_nat (List.length recentErrors);
     criticalErrors := Z.of_nat (List.length criticalErrors);
     recoveryRate := Number.round recoveryRate |}.

End ErrorHandler.

(** ** Regular expressions

    The part of the regular expressions of JavaScript that the code uses,
    without flags: characters, [.], [\s], [^], [$], sequences, alternatives,
    one capturing group, and [+] and [+?] on a single character. A match is
    looked for by backtracking, from the leftmost position on. *)

Module RegExp.

Inductive atom : Type :=
| Char (c : ascii)
| Dot
| Space.

Definition isLineTerminator (c : ascii) : bool :=
  let n := N_of_ascii c in ((n =? 10) || (n =? 13))%N.

Definition atomMatches (a : atom) (c : ascii) : bool :=
  match a with
  | Char x => Ascii.eqb x c
  | Dot => negb (isLineTerminator c)
  | Space => Js.is_js_whitespace c
  end.

Inductive node : Type :=
| Atom (a : atom)
| Start
| End_
| Seq (x y : node)
| Alt (x y : node)
| Group (x : node)
| Plus (greedy : bool) (a : atom).

(** What is left to match: whether the position is the start of the input,
    the rest of the input and the capture so far; the result is the capture
    of the match found, [None] when the group took no part. *)
Definition Continuation : Type :=
  bool -> string -> option string -> option (option string).

(** The part of [s] that was consumed when [rest] is left of it. *)
Definition consumed (s rest : string) : string :=
  substring 0 (String.length s - String.length rest) s.

(** [a+] and [a+?] *)
Fixpoint plus (greedy : bool) (a : atom) (s : string)
    (k : string -> option (option string)) : option (option string) :=
  match s with
  | EmptyString => None
  | String c r =>
      if atomMatches a c then
        if greedy then
          match plus greedy a r k with
          | Some m => Some m
          | None => k r
          end
        else
          match k r with
          | Some m => Some m
          | None => plus greedy a r k
          end
      else None
  end.

Fixpoint run (n : node) (atStart : bool) (s : string) (capture : option string)
    (k : Continuation) : option (option string) :=
  match n with
  | Atom a =>
      match s with
      | String c r => if atomMatches a c then k false r capture else None
      | EmptyString => None
      end
  | Start => if atStart then k atStart s capture else None
  | End_ =>
      match s with
      | EmptyString => k atStart s capture
      | String _ _ => None
      end
  | Seq x y =>
      run x atStart s capture (fun atStart s capture => run y atStart s capture k)
  | Alt x y =>
      match run x atStart s capture k with
      | Some m => Some m
      | None => run y atStart s capture k
      end
  | Group x =>
      run x atStart s capture (fun atStart' s' _ => k atStart' s' (Some (consumed s s')))
  | Plus greedy a => plus greedy a s (fun r => k false r capture)
  end.

(** The leftmost match. *)
Fixpoint search (n : node) (atStart : bool) (s : string) : option (option string) :=
  match run n atStart s None (fun _ _ capture => Some capture) with
  | Some m => Some m
  | None =>
      match s with
      | EmptyString => None
      | String _ r => search n false r
      end
  end.

(** [s.match(n)]: [None] for [null], and the first group of the match
    otherwise. *)
Definition exec (n : node) (s : string) : option (option string) :=
  search n true s.

End RegExp.

(** ** linkedin-api.ts: what is read off the occupation *)

Module LinkedInAPI.

Import RegExp.

(** [s.trim()] *)
Fixpoint trimEnd (s : string) : string :=
  match s with
  | EmptyString => EmptyString
  | String c r =>
      match trimEnd r with
      | EmptyString => if Js.is_js_whitespace c then EmptyString else String c EmptyString
      | String d r' => String c (String d r')
      end
  end.

Definition trim (s : string) : string := trimEnd (Js.trimStart s).

(** [/at (.+?)(?:\s|$)/] *)
Definition companyPattern : node :=
  Seq (Atom (Char "a")) (Seq (Atom (Char "t")) (Seq (Atom (Char " "))
    (Seq (Group (Plus false Dot)) (Alt (Atom Space) End_)))).

(** [/^(.+?)\s+at/] *)
Definition positionPattern : node :=
  Seq Start (Seq (Group (Plus false Dot))
    (Seq (Plus true Space) (Seq (Atom (Char "a")) (Atom (Char "t"))))).

Definition typeError : Js.Error :=
  {| Js.name := "TypeError"; Js.message := "Cannot read properties of undefined" |}.

(** [extractCompanyName(occupation)]: [inr None] for [undefined]. *)
Definition extractCompanyName (occupation : string) : Js.Error + option string :=
  match exec companyPattern occupation with
  | Some (Some group) => inr (Some (trim group))
  | Some None => inl typeError
  | None => inr None
  end.

(** [extractPosition(occupation)] *)
Definition extractPosition (occupation : string) : Js.Error + option string :=
  match exec positionPattern occupation with
  | Some (Some group) => inr (Some (trim group))
  | Some None => inl typeError
  | None =>
      if String.eqb occupation EmptyString then inr None else inr (Some occupation)
  end.

End LinkedInAPI.

(** ** The rate limiter ([RateLimiter]) *)

Module RateLimiter.

(** A number that may be [Infinity]: [Math.min()] of no argument. *)
Inductive bound : Type :=
| Finite (z : Z)
| Infinity.

(** The fields of the class. *)
Record State : Type := {
  requests : list Z;
  windowMs : Z;
  maxRequests : Z
}.

(** [new RateLimiter(maxRequests, windowMs)] *)
Definition create (maxRequests windowMs : Z) : State :=
  {| requests := []; windowMs := windowMs; maxRequests := maxRequests |}.

Definition withRequests (l : list Z) (st : State) : State :=
  {| requests := l; windowMs := windowMs st; maxRequests := maxRequests st |}.

(** [this.requests.filter((timestamp) => now - timestamp < this.windowMs)] *)
Definition inWindow (now : Z) (st : State) : list Z :=
  filter (fun timestamp => (now - timestamp <? windowMs st)%Z) (requests st).

(** [Math.min(...l)] *)
Definition minOf (l : list Z) : bound :=
  fold_left (fun acc x =>
               match acc with
               | Infinity => Finite x
               | Finite a => Finite (Z.min a x)
               end) l Infinity.

(** [x + k] and [k - x] and [Math.max(0, x)] on such numbers. *)
Definition bound_add (x : bound) (k : Z) : bound :=
  match x with
  | Finite z => Finite (z + k)
  | Infinity => Infinity
  end.

(** [windowMs - (now - oldestRequest)] *)
Definition untilFree (windowMs now : Z) (oldestRequest : bound) : bound :=
  match oldestRequest with
  | Finite o => Finite (windowMs - (now - o))
  | Infinity => Infinity
  end.

Definition bound_max0 (x : bound) : bound :=
  match x with
  | Finite z => Finite (Z.max 0 z)
  | Infinity => Infinity
  end.

(** What [checkLimit] resolves to. *)
Record Verdict : Type := {
  allowed : bool;
  retryAfter : option bound
}.

(** What a spread of more arguments than the engine takes throws. *)
Definition rangeError : Js.Error :=
  {| Js.name := "RangeError"; Js.message := "Maximum call stack size exceeded" |}.

(** [checkLimit()] called at time [now]. *)
Definition checkLimit (P : Platform) (now : Z) (st : State)
  : (Js.Error + Verdict) * State :=
  let st := withRequests (inWindow now st) st in
  if (maxRequests st <=? Z.of_nat (List.length (requests st)))%Z then
    if (maxArguments P <? N.of_nat (List.length (requests st)))%N
    then (inl rangeError, st)
    else
      let oldestRequest := minOf (requests st) in
      let retryAfter := untilFree (windowMs st) now oldestRequest in
      (inr {| allowed := false; retryAfter := Some (bound_max0 retryAfter) |}, st)
  else
    (inr {| allowed := true; retryAfter := None |},
     withRequests (requests st ++ [now])%list st).

(** [getRemainingRequests()] called at time [now]. *)
Definition getRemainingRequests (now : Z) (st : State) : Z * State :=
  let st := withRequests (inWindow now st) st in
  (Z.max 0 (maxRequests st - Z.of_nat (List.length (requests st))), st).

(** [getResetTime()] *)
Definition getResetTime (P : Platform) (st : State) : Js.Error + bound :=
  if (List.length (requests st) =? 0)%nat then inr (Finite 0)
  else if (maxArguments P <? N.of_nat (List.length (requests st)))%N
  then inl rangeError
  else
    let oldestRequest := minOf (requests st) in
    inr (bound_add oldestRequest (windowMs st)).

(** [reset()] *)
Definition reset (st : State) : State := withRequests [] st.

End RateLimiter.

(** ** request-queue.ts *)

Module RequestQueue.

Import JSON.

Record QueueStats : Type := {
  totalRequests : Z;
  successfulRequests : Z;
  failedRequests : Z;
  averageResponseTime : Z;
  queueLength : Z;
  statsIsProcessing : bool;
  rateLimitHits : Z
}.

Record RequestOptions : Type := {
  optPriority : option Z;
  optTimeout : option Z;
  optRetryDelay : option Z;
  optHeaders : option (list (string * string))
}.

Definition noOptions : RequestOptions :=
  {| optPriority := None; optTimeout := None; optRetryDelay := None;
     optHeaders := None |}.

(** [EnhancedRequestQueueItem]. The pair [resolve]/[reject] of the promise
    that [enqueue] returns is the number [handle]. *)
Record Item : Type := {
  handle : nat;
  url : string;
  retries : Z;
  priority : Z;
  startTime : option Z;
  timeout : Z;
  retryDelay : Z;
  headers : list (string * string)
}.

(** What happens to the promises, and when requests leave: [attempt] is the
    number of retries that the item has behind it. *)
Inductive Event : Type :=
| Dispatched (h : nat) (attempt : Z) (time : Z)
| Resolved (h : nat) (response : json)
| Rejected (h : nat) (error : Js.Error).

(** The fields of the class, the item that [processQueue] has shifted and
    is working on, the clock, the next promise and the events so far (latest
    first). *)
Record State : Type := {
  queue : list Item;
  isProcessing : bool;
  stats : QueueStats;
  responseTimes : list Z;
  lastRequestTime : Z;
  rateLimitBackoff : Js.num;
  inflight : option Item;
  clock : Z;
  nextHandle : nat;
  trace : list Event
}.

Definition minDelay : Z := 300.
Definition maxDelay : Z := 1000.
Definition maxRetries : Z := 3.
Definition defaultTimeout : Z := 30000.

Definition initial : State :=
  {| queue := []; isProcessing := false;
     stats := {| totalRequests := 0; successfulRequests := 0; failedRequests := 0;
                 averageResponseTime := 0; queueLength := 0;
                 statsIsProcessing := false; rateLimitHits := 0 |};
     responseTimes := []; lastRequestTime := 0; rateLimitBackoff := Js.Int 0;
     inflight := None; clock := 0; nextHandle := 0; trace := [] |}.

(** Field updates. *)
Definition withQueue (q : list Item) (st : State) : State :=
  {| queue := q; isProcessing := isProcessing st; stats := stats st;
     responseTimes := responseTimes st; lastRequestTime := lastRequestTime st;
     rateLimitBackoff := rateLimitBackoff st; inflight := inflight st;
     clock := clock st; nextHandle := nextHandle st; trace := trace st |}.

Definition withIsProcessing (b : bool) (st : State) : State :=
  {| queue := queue st; isProcessing := b; stats := stats st;
     responseTimes := responseTimes st; lastRequestTime := lastRequestTime st;
     rateLimitBackoff := rateLimitBackoff st; inflight := inflight st;
     clock := clock st; nextHandle := nextHandle st; trace := trace st |}.

Definition withStats (s : QueueStats) (st : State) : State :=
  {| queue := queue st; isProcessing := isProcessing st; stats := s;
     responseTimes := responseTimes st; lastRequestTime := lastRequestTime st;
     rateLimitBackoff := rateLimitBackoff st; inflight := inflight st;
     clock := clock st; nextHandle := nextHandle st; trace := trace st |}.

Definition withResponseTimes (l : list Z) (st : State) : State :=
  {| queue := queue st; isProcessing := isProcessing st; stats := stats st;
     responseTimes := l; lastRequestTime := lastRequestTime st;
     rateLimitBackoff := rateLimitBackoff st; inflight := inflight st;
     clock := clock st; nextHandle := nextHandle st; trace := trace st |}.

Definition withLastRequestTime (t : Z) (st : State) : State :=
  {| queue := queue st; isProcessing := isProcessing st; stats := stats st;
     responseTimes := responseTimes st; lastRequestTime := t;
     rateLimitBackoff := rateLimitBackoff st; inflight := inflight st;
     clock := clock st; nextHandle := nextHandle st; trace := trace st |}.

Definition withRateLimitBackoff (b : Js.num) (st : State) : State :=
  {| queue := queue st; isProcessing := isProcessing st; stats := stats st;
     responseTimes := responseTimes st; lastRequestTime := lastRequestTime st;
     rateLimitBackoff := b; inflight := inflight st;
     clock := clock st; nextHandle := nextHandle st; trace := trace st |}.

Definition withInflight (i : option Item) (st : State) : State :=
  {| queue := queue st; isProcessing := isProcessing st; stats := stats st;
     responseTimes := responseTimes st; lastRequestTime := lastRequestTime st;
     rateLimitBackoff := rateLimitBackoff st; inflight := i;
     clock := clock st; nextHandle := nextHandle st; trace := trace st |}.

Definition withClock (t : Z) (st : State) : State :=
  {| queue := queue st; isProcessing := isProcessing st; stats := stats st;
     responseTimes := responseTimes st; lastRequestTime := lastRequestTime st;
     rateLimitBackoff := rateLimitBackoff st; inflight := inflight st;
     clock := t; nextHandle := nextHandle st; trace := trace st |}.

Definition withNextHandle (n : nat) (st : State) : State :=
  {| queue := queue st; isProcessing := isProcessing st; stats := stats st;
     responseTimes := responseTimes st; lastRequestTime := lastRequestTime st;
     rateLimitBackoff := rateLimitBackoff st; inflight := inflight st;
     clock := clock st; nextHandle := n; trace := trace st |}.

Definition emit (e : Event) (st : State) : State :=
  {| queue := queue st; isProcessing := isProcessing st; stats := stats st;
     responseTimes := responseTimes st; lastRequestTime := lastRequestTime st;
     rateLimitBackoff := rateLimitBackoff st; inflight := inflight st;
     clock := clock st; nextHandle := nextHandle st; trace := e :: trace st |}.

Definition withQueueLength (n : Z) (s : QueueStats) : QueueStats :=
  {| totalRequests := totalRequests s; successfulRequests := successfulRequests s;
     failedRequests := failedRequests s; averageResponseTime := averageResponseTime s;
     queueLength := n; statsIsProcessing := statsIsProcessing s;
     rateLimitHits := rateLimitHits s |}.

Definition withStatsIsProcessing (b : bool) (s : QueueStats) : QueueStats :=
  {| totalRequests := totalRequests s; successfulRequests := successfulRequests s;
     failedRequests := failedRequests s; averageResponseTime := averageResponseTime s;
     queueLength := queueLength s; statsIsProcessing := b;
     rateLimitHits := rateLimitHits s |}.

Definition incTotalRequests (s : QueueStats) : QueueStats :=
  {| totalRequests := totalRequests s + 1; successfulRequests := successfulRequests s;
     failedRequests := failedRequests s; averageResponseTime := averageResponseTime s;
     queueLength := queueLength s; statsIsProcessing := statsIsProcessing s;
     rateLimitHits := rateLimitHits s |}.

Definition incSuccessfulRequests (s : QueueStats) : QueueStats :=
  {| totalRequests := totalRequests s; successfulRequests := successfulRequests s + 1;
     failedRequests := failedRequests s; averageResponseTime := averageResponseTime s;
     queueLength := queueLength s; statsIsProcessing := statsIsProcessing s;
     rateLimitHits := rateLimitHits s |}.

Definition incFailedRequests (s : QueueStats) : QueueStats :=
  {| totalRequests := totalRequests s; successfulRequests := successfulRequests s;
     failedRequests := failedRequests s + 1; averageResponseTime := averageResponseTime s;
     queueLength := queueLength s; statsIsProcessing := statsIsProcessing s;
     rateLimitHits := rateLimitHits s |}.

Definition incRateLimitHits (s : QueueStats) : QueueStats :=
  {| totalRequests := totalRequests s; successfulRequests := successfulRequests s;
     failedRequests := failedRequests s; averageResponseTime := averageResponseTime s;
     queueLength := queueLength s; statsIsProcessing := statsIsProcessing s;
     rateLimitHits := rateLimitHits s + 1 |}.

Definition withAverageResponseTime (a : Z) (s : QueueStats) : QueueStats :=
  {| totalRequests := totalRequests s; successfulRequests := successfulRequests s;
     failedRequests := failedRequests s; averageResponseTime := a;
     queueLength := queueLength s; statsIsProcessing := statsIsProcessing s;
     rateLimitHits := rateLimitHits s |}.

Definition withRetries (r : Z) (it : Item) : Item :=
  {| handle := handle it; url := url it; retries := r; priority := priority it;
     startTime := startTime it; timeout := timeout it; retryDelay := retryDelay it;
     headers := headers it |}.

Definition withPriority (p : Z) (it : Item) : Item :=
  {| handle := handle it; url := url it; retries := retries it; priority := p;
     startTime := startTime it; timeout := timeout it; retryDelay := retryDelay it;
     headers := headers it |}.

Definition withStartTime (t : Z) (it : Item) : Item :=
  {| handle := handle it; url := url it; retries := retries it;
     priority := priority it; startTime := Some t; timeout := timeout it;
     retryDelay := retryDelay it; headers := headers it |}.

(** [await this.sleep(ms)]: the clock moves on by [ms], not at all when
    [ms] is negative. *)
Definition sleep (ms : Z) (st : State) : State :=
  withClock (clock st + Z.max 0 ms) st.

(** [o || d] for a number option. *)
Definition orDefault (o : option Z) (d : Z) : Z :=
  match o with
  | Some z => if (z =? 0)%Z then d else z
  | None => d
  end.

(** [queue.findIndex(p)], [None] for -1. *)
Fixpoint findIndex (p : Item -> bool) (q : list Item) : option nat :=
  match q with
  | [] => None
  | x :: r =>
      if p x then Some O
      else match findIndex p r with
           | Some i => Some (S i)
           | None => None
           end
  end.

(** The insertion of [enqueue] and of the retry: before the first item of
    lower priority, at the end when there is none. *)
Definition insertItem (item : Item) (q : list Item) : list Item :=
  match findIndex (fun queueItem => (priority queueItem <? priority item)%Z) q with
  | None => (q ++ [item])%list                  (* push *)
  | Some i => (firstn i q ++ item :: skipn i q)%list (* splice(i, 0, item) *)
  end.

(** [processQueue] up to its first [await]: the head of the queue is
    shifted. *)
Definition processQueue_begin (st : State) : State :=
  match queue st with
  | [] =>
      withStats (withStatsIsProcessing false (stats st))
        (withIsProcessing false st)
  | item :: rest =>
      let st := withIsProcessing true st in
      let st := withStats (withStatsIsProcessing true (stats st)) st in
      let st := withInflight (Some item) (withQueue rest st) in
      withStats (withQueueLength (Z.of_nat (List.length rest)) (stats st)) st
  end.

(** [enqueue(url, options)] called at time [now]. *)
Definition enqueue (u : string) (options : RequestOptions) (now : Z)
    (st : State) : State :=
  let st := withClock (Z.max (clock st) now) st in
  let item :=
    {| handle := nextHandle st; url := u; retries := 0;
       priority := orDefault (optPriority options) 0;
       startTime := None;
       timeout := orDefault (optTimeout options) defaultTimeout;
       retryDelay := orDefault (optRetryDelay options) 1000;
       headers := match optHeaders options with Some h => h | None => [] end |} in
  let st := withNextHandle (S (nextHandle st)) st in
  let st := withQueue (insertItem item (queue st)) st in
  let st := withStats (incTotalRequests (stats st)) st in
  let st := withStats (withQueueLength (Z.of_nat (List.length (queue st))) (stats st)) st in
  if negb (isProcessing st) then processQueue_begin st else st.

(** What [fetch] does with a request. *)
Inductive FetchOutcome : Type :=
| FetchRejects (e : Js.Error)
| FetchResponse (status : Z) (statusText : string) (retryAfter : option string)
    (body : Js.Error + json).

(** The draws and answers that one dispatch meets: the jittered delay
    [Math.random() * (maxDelay - minDelay) + minDelay], the time [fetch]
    takes, its outcome, and the jitter [Math.random() * 1000] of a retry. *)
Record Oracle : Type := {
  requiredDelay : Z;
  latency : Z;
  outcome : FetchOutcome;
  retryJitter : Z
}.

(** The world: the oracle that the dispatch of promise [h] meets after [r]
    retries. *)
Definition Env : Type := nat -> Z -> Oracle.

Definition abortError : Js.Error :=
  {| Js.name := "AbortError"; Js.message := "The user aborted a request." |}.

(** [retryAfter ? Number.parseInt(retryAfter) * 1000 : 5000] *)
Definition backoffTime (retryAfter : option string) : Js.num :=
  match retryAfter with
  | Some h =>
      if String.eqb h EmptyString then Js.Int 5000
      else Js.num_mul (Js.parseInt h) 1000
  | None => Js.Int 5000
  end.

(** [makeRequest(item)]: what it throws or returns, and the state after.
    The abort timer wins when the answer has not come within
    [item.timeout]. *)
Definition makeRequest (item : Item) (o : Oracle) (st : State)
  : (Js.Error + json) * State :=
  if (timeout item <=? latency o)%Z then
    (inl abortError, sleep (timeout item) st)
  else
    let st := sleep (latency o) st in
    match outcome o with
    | FetchRejects e => (inl e, st)
    | FetchResponse status statusText retryAfter body =>
        if (status =? 429)%Z then
          let st := withStats (incRateLimitHits (stats st)) st in
          let backoff := backoffTime retryAfter in
          let st := withRateLimitBackoff
                      (Js.num_max (rateLimitBackoff st) backoff) st in
          (inl (Js.newError
                  ("Rate limited. Retry after " ++ Js.string_of_num backoff ++ "ms")),
           st)
        else if negb ((200 <=? status) && (status <=? 299))%Z then
          (inl (Js.newError
                  ("HTTP " ++ Js.string_of_Z status ++ ": " ++ statusText)), st)
        else (body, st)
    end.

Definition isRateLimit (error : Js.Error) : bool :=
  Js.includes "Rate limited" (Js.message error).

Definition isTimeout (error : Js.Error) : bool :=
  String.eqb (Js.name error) "AbortError".

Definition isNetworkError (error : Js.Error) : bool :=
  Js.includes "fetch" (Js.message error).

Definition handleRequestError (item : Item) (error : Js.Error) (o : Oracle)
    (st : State) : State :=
  if (retries item <? maxRetries)%Z
     && (isRateLimit error || isTimeout error || isNetworkError error) then
    let item := withRetries (retries item + 1) item in
    let backoffDelay := (retryDelay item * 2 ^ (retries item - 1))%Z in
    let jitteredDelay := (backoffDelay + retryJitter o)%Z in
    let st := sleep jitteredDelay st in
    let item := withPriority (priority item + 10) item in
    let st := withQueue (insertItem item (queue st)) st in
    withStats (withQueueLength (Z.of_nat (List.length (queue st))) (stats st)) st
  else
    let st := withStats (incFailedRequests (stats st)) st in
    emit (Rejected (handle item) error) st.

(** [Math.round(sum / length)] *)
Definition updateAverageResponseTime (st : State) : State :=
  match responseTimes st with
  | [] => st
  | _ =>
      let sum := fold_left Z.add (responseTimes st) 0%Z in
      let n := Z.of_nat (List.length (responseTimes st)) in
      withStats (withAverageResponseTime ((2 * sum + n) / (2 * n)) (stats st)) st
  end.

(** [processQueue] after the shift, up to the timer that calls it again. *)
Definition processQueue_rest (env : Env) (st : State) : State :=
  match inflight st with
  | None => st
  | Some item =>
      let o := env (handle item) (retries item) in
      let st := withInflight None st in
      let st :=
        if Js.num_positive (rateLimitBackoff st) then
          match rateLimitBackoff st with
          | Js.Int b =>
              withRateLimitBackoff (Js.Int (Z.max 0 (b - 1000))) (sleep b st)
          | Js.NaN => st
          end
        else st in
      let timeSinceLastRequest := (clock st - lastRequestTime st)%Z in
      let st :=
        if (timeSinceLastRequest <? requiredDelay o)%Z
        then sleep (requiredDelay o - timeSinceLastRequest) st else st in
      let item := withStartTime (clock st) item in
      let st := withLastRequestTime (clock st) st in
      let st := emit (Dispatched (handle item) (retries item) (clock st)) st in
      match makeRequest item o st with
      | (inr response, st) =>
          let responseTime :=
            (clock st - match startTime item with Some t => t | None => 0 end)%Z in
          let times := (responseTimes st ++ [responseTime])%list in
          let times :=
            if (100 <? List.length times)%nat then tl times else times in
          let st := withResponseTimes times st in
          let st := withStats (incSuccessfulRequests (stats st)) st in
          let st := updateAverageResponseTime st in
          emit (Resolved (handle item) response) st
      | (inl error, st) => handleRequestError item error o st
      end
  end.

(** One turn of the worker: the rest of the running [processQueue], the
    100 ms timer, and the start of the next [processQueue]. *)
Definition workerCycle (env : Env) (st : State) : State :=
  processQueue_begin (sleep 100 (processQueue_rest env st)).


(** The promises dispatched, first to last. *)
Definition dispatchOrder (st : State) : list nat :=
  rev (flat_map (fun e => match e with Dispatched h _ _ => [h] | _ => [] end)
         (trace st)).

(** How the promise [h] was settled. *)
Definition settlements (h : nat) (st : State) : list Event :=
  rev (filter (fun e => match e with
                        | Resolved h' _ | Rejected h' _ => Nat.eqb h h'
                        | Dispatched _ _ _ => false
                        end) (trace st)).

(** *** Statistics and maintenance *)

(** [getStats()] *)
Definition getStats (st : State) : QueueStats :=
  withStatsIsProcessing (isProcessing st)
    (withQueueLength (Z.of_nat (List.length (queue st))) (stats st)).

(** [getQueueLength()] *)
Definition getQueueLength (st : State) : Z := Z.of_nat (List.length (queue st)).

(** [clear()]: the items that wait are rejected in queue order. *)
Definition clear (st : State) : State :=
  let st :=
    fold_left (fun st item => emit (Rejected (handle item) (Js.newError "Queue cleared")) st)
      (queue st) st in
  let st := withQueue [] st in
  let st := withIsProcessing false st in
  let st := withStats (withQueueLength 0 (stats st)) st in
  withStats (withStatsIsProcessing false (stats st)) st.


(** The callback of [forEach] in [optimizeQueue], called at time [now]. *)
Definition boost (now : Z) (item : Item) : Item :=
  let waitTime :=
    (now - match startTime item with
           | Some t => if (t =? 0)%Z then now else t
           | None => now
           end)%Z in
  if (30000 <? waitTime)%Z
  then withPriority (priority item + waitTime / 10000) item
  else item.

(** [queue.sort((a, b) => b.priority - a.priority)]: a stable sort, higher
    priority first. *)
Fixpoint insertByPriority (item : Item) (sorted : list Item) : list Item :=
  match sorted with
  | [] => [item]
  | x :: rest =>
      if (priority item <? priority x)%Z then x :: insertByPriority item rest
      else item :: sorted
  end.

Definition sortByPriority (q : list Item) : list Item :=
  fold_right insertByPriority [] q.

(** [optimizeQueue()] called at time [now]. *)
Definition optimizeQueue (now : Z) (st : State) : State :=
  withQueue (sortByPriority (map (boost now) (queue st))) st.

End RequestQueue.

(** ** connections-service.ts *)

Module ConnectionsService.

Import JSON.

Definition CONNECTIONS_CACHE_KEY : string := "connections".
Definition COMPANY_CACHE_PREFIX : string := "company_logo_".

(** [LinkedInAPI.fetchConnections] as the service sees it: what the call
    number [i], made with [start] and [count], throws or returns, how long
    it takes, and the draw [500 + Math.random() * 500] that follows it. *)
Record Api : Type := {
  fetchConnections : nat -> Z -> Z -> Js.Error + list json;
  fetchLatency : nat -> Z;
  batchDelay : nat -> Z
}.

(** The store, the error handler, the clock, and a record of what the
    service did: the number of [fetchConnections] calls, the sleeps and the
    outcomes of the batches ([true] for a success), latest first. *)
Record World : Type := {
  store : Store;
  errors : ErrorHandler.State;
  now : Z;
  calls : nat;
  sleeps : list Z;
  batches : list bool
}.

Definition withStore (s : Store) (w : World) : World :=
  {| store := s; errors := errors w; now := now w; calls := calls w;
     sleeps := sleeps w; batches := batches w |}.

Definition withErrors (e : ErrorHandler.State) (w : World) : World :=
  {| store := store w; errors := e; now := now w; calls := calls w;
     sleeps := sleeps w; batches := batches w |}.

Definition sleep (ms : Z) (w : World) : World :=
  {| store := store w; errors := errors w; now := now w + Z.max 0 ms;
     calls := calls w; sleeps := ms :: sleeps w; batches := batches w |}.

(** One call of [fetchConnections] comes back. *)
Definition called (latency : Z) (ok : bool) (w : World) : World :=
  {| store := store w; errors := errors w; now := now w + Z.max 0 latency;
     calls := S (calls w); sleeps := sleeps w; batches := ok :: batches w |}.

Definition batchSize : Z := 100.
Definition maxConsecutiveFailures : Z := 3.

Inductive StepResult : Type :=
| Continue (allConnections : list json) (start consecutiveFailures : Z)
| Break (allConnections : list json)
| Throw (error : Js.Error).

(** One turn of the [while] loop of [getAllConnections], its condition
    included. *)
Definition batchStep (api : Api) (allConnections : list json)
    (start consecutiveFailures : Z) (w : World) : StepResult * World :=
  if negb (consecutiveFailures <? maxConsecutiveFailures)%Z
  then (Break allConnections, w)
  else
    let i := calls w in
    match fetchConnections api i start batchSize with
    | inr connections =>
        let w := called (fetchLatency api i) true w in
        if (List.length connections =? 0)%nat then (Break allConnections, w)
        else
          let allConnections := (allConnections ++ connections)%list in
          let start := (start + batchSize)%Z in
          let w := sleep (batchDelay api i) w in
          if (1000 <=? List.length allConnections)%nat
          then (Break allConnections, w)
          else (Continue allConnections start 0, w)
    | inl batchError =>
        let w := called (fetchLatency api i) false w in
        let consecutiveFailures := (consecutiveFailures + 1)%Z in
        let (error, eh) :=
          ErrorHandler.handleNetworkError batchError
            (Some [("batch", Num start); ("attempt", Num consecutiveFailures)])
            (now w) (errors w) in
        let w := withErrors eh w in
        if (maxConsecutiveFailures <=? consecutiveFailures)%Z then
          (Throw (Js.newError
                    ("Failed to fetch connections after "
                     ++ Js.string_of_Z maxConsecutiveFailures
                     ++ " consecutive failures")), w)
        else
          (Continue allConnections start consecutiveFailures,
           sleep (2000 * consecutiveFailures) w)
    end.

Inductive LoopResult : Type :=
| Completed (allConnections : list json)
| Threw (error : Js.Error)
| OutOfFuel.

Fixpoint batchLoop (fuel : nat) (api : Api) (allConnections : list json)
    (start consecutiveFailures : Z) (w : World) : LoopResult * World :=
  match fuel with
  | O => (OutOfFuel, w)
  | S fuel' =>
      match batchStep api allConnections start consecutiveFailures w with
      | (Continue all' start' failures', w') =>
          batchLoop fuel' api all' start' failures' w'
      | (Break all', w') => (Completed all', w')
      | (Throw e, w') => (Threw e, w')
      end
  end.

(** Turns enough for any run: a success adds a connection and the loop
    stops at 1000 of them; fewer than three failures separate two
    successes. *)
Definition loopFuel : nat := 3003.

(** The outer [catch] of [getAllConnections]: the error is classified by
    [handleNetworkError] and the classified error is thrown. *)
Definition throwHandled (error : Js.Error) (w : World)
  : (ErrorHandler.ExtensionError + json) * World :=
  let (handledError, eh) :=
    ErrorHandler.handleNetworkError error
      (Some [("operation", Str "get_all_connections")]) (now w) (errors w) in
  (inl handledError, withErrors eh w).

(** [getAllConnections] from "Fetching fresh connections" on. *)
Definition fetchFresh (P : Platform) (api : Api) (w : World)
  : (ErrorHandler.ExtensionError + json) * World :=
  match batchLoop loopFuel api [] 0 0 w with
  | (Completed allConnections, w) =>
      if (List.length allConnections =? 0)%nat then
        throwHandled (Js.newError
          "No connections could be fetched. Please check your LinkedIn authentication.") w
      else
        let st :=
          CacheManager.set P CONNECTIONS_CACHE_KEY (Arr allConnections)
            CacheManager.DEFAULT_TTL (now w) (store w) in
        (inr (Arr allConnections), withStore st w)
  | (Threw error, w) => throwHandled error w
  | (OutOfFuel, w) => throwHandled (Js.newError "out of fuel") w
  end.

(** [getAllConnections(forceRefresh)]. The logo fetch that it starts in the
    background is not awaited and is left out. *)
Definition getAllConnections (P : Platform) (api : Api) (forceRefresh : bool)
    (w : World) : (ErrorHandler.ExtensionError + json) * World :=
  if negb forceRefresh then
    let (cachedConnections, st) :=
      CacheManager.get P CONNECTIONS_CACHE_KEY (now w) (store w) in
    let w := withStore st w in
    match cachedConnections with
    | Some cached => if truthy cached then (inr cached, w) else fetchFresh P api w
    | None => fetchFresh P api w
    end
  else fetchFresh P api w.

(** [String(v)], as a template literal renders a value. *)
Fixpoint toString (v : json) : string :=
  match v with
  | Null => "null"
  | Bool true => "true"
  | Bool false => "false"
  | Num z => Js.string_of_Z z
  | Str s => s
  | Arr l =>
      (fix join (l : list json) : string :=
         match l with
         | [] => EmptyString
         | [x] => match x with Null => EmptyString | _ => toString x end
         | x :: r =>
             match x with Null => EmptyString | _ => toString x end
             ++ String "," (join r)
         end) l
  | Obj _ => "[object Object]"
  end.

(** [{ ...fields, k: v }] *)
Fixpoint setField (k : string) (v : json) (fields : list (string * json))
  : list (string * json) :=
  match fields with
  | [] => [(k, v)]
  | (k', v') :: r =>
      if String.eqb k k' then (k, v) :: r else (k', v') :: setField k v r
  end.

(** What is thrown to the caller: an error that the handler classified, or
    a raw one. *)
Inductive Thrown : Type :=
| Handled (e : ErrorHandler.ExtensionError)
| Raw (e : Js.Error).

Definition typeError (msg : string) : Js.Error :=
  {| Js.name := "TypeError"; Js.message := msg |}.

(** The callback of [connections.map] in [getConnectionsWithLogos]. *)
Definition enhanceConnection (P : Platform) (connection : json) (w : World)
  : (Js.Error + json) * World :=
  match connection with
  | Null => (inl (typeError "Cannot read properties of null"), w)
  | Obj fields =>
      match lookup "currentCompany" fields with
      | Some company =>
          if truthy company then
            let (cachedLogo, st) :=
              CacheManager.get P (COMPANY_CACHE_PREFIX ++ toString company)
                (now w) (store w) in
            let w := withStore st w in
            match cachedLogo with
            | Some logo =>
                if truthy logo
                then (inr (Obj (setField "companyLogo" logo fields)), w)
                else (inr connection, w)
            | None => (inr connection, w)
            end
          else (inr connection, w)
      | None => (inr connection, w)
      end
  | _ => (inr connection, w)
  end.

Fixpoint enhanceAll (P : Platform) (connections : list json) (w : World)
  : (Js.Error + list json) * World :=
  match connections with
  | [] => (inr [], w)
  | c :: rest =>
      match enhanceConnection P c w with
      | (inl e, w) => (inl e, snd (enhanceAll P rest w))
      | (inr c', w) =>
          match enhanceAll P rest w with
          | (inl e, w) => (inl e, w)
          | (inr rest', w) => (inr (c' :: rest'), w)
          end
      end
  end.

Definition getConnectionsWithLogos (P : Platform) (api : Api) (w : World)
  : (Thrown + json) * World :=
  match getAllConnections P api false w with
  | (inl e, w) => (inl (Handled e), w)
  | (inr (Arr connections), w) =>
      match enhanceAll P connections w with
      | (inl e, w) => (inl (Raw e), w)
      | (inr enhancedConnections, w) => (inr (Arr enhancedConnections), w)
      end
  | (inr _, w) => (inl (Raw (typeError "connections.map is not a function")), w)
  end.

Definition initial (st : Store) (t : Z) : World :=
  {| store := st; errors := ErrorHandler.initial; now := t; calls := O;
     sleeps := []; batches := [] |}.

(** *** Refresh, statistics and the health check *)

(** [refreshConnections()]. [CacheManager.remove] does not throw, and what
    [getAllConnections] throws passes through. *)
Definition refreshConnections (P : Platform) (api : Api) (w : World)
  : (ErrorHandler.ExtensionError + json) * World :=
  let w := withStore (CacheManager.remove CONNECTIONS_CACHE_KEY (store w)) w in
  getAllConnections P api true w.

(** [getCacheStats()] *)
Definition getCacheStats (w : World) : CacheManager.CacheStats :=
  CacheManager.getCacheStats (now w) (store w).

(** [clearCache()] *)
Definition clearCache (w : World) : World :=
  withStore (CacheManager.clear (store w)) w.

Record HealthCheck : Type := {
  status : Health.Status;
  issues : list string;
  recommendations : list string
}.

(** [performHealthCheck()], with the queue of the service. *)
Definition performHealthCheck (requestQueue : RequestQueue.State) (w : World)
  : HealthCheck :=
  let acc := (Health.healthy, [], []) in
  let cacheStats := getCacheStats w in
  let acc :=
    Health.flag (Number.ltb
            (Number.mul (Number.ofN (CacheManager.totalItems cacheStats)) Number.half)
            (Number.ofN (CacheManager.expiredItems cacheStats)))
      Health.warning "High number of expired cache items"
      "Clear cache to improve performance" acc in
  let errorAnalysis := ErrorHandler.getErrorAnalysis (now w) (errors w) in
  let acc :=
    Health.flag (10 <? ErrorHandler.recentErrors errorAnalysis)%Z Health.warning
      ("High error rate: " ++ Js.string_of_Z (ErrorHandler.recentErrors errorAnalysis)
       ++ " errors in the last hour")
      "Check network connection and LinkedIn authentication" acc in
  let acc :=
    Health.flag (0 <? ErrorHandler.criticalErrors errorAnalysis)%Z Health.critical
      (Js.string_of_Z (ErrorHandler.criticalErrors errorAnalysis) ++ " critical errors detected")
      "Review error log and restart extension if needed" acc in
  let queueStats := RequestQueue.getStats requestQueue in
  let acc :=
    Health.flag (50 <? RequestQueue.queueLength queueStats)%Z Health.warning
      "Request queue is backed up"
      "Wait for queue to process or restart extension" acc in
  let '(status, issues, recommendations) := acc in
  {| status := status; issues := issues; recommendations := recommendations |}.

End ConnectionsService.

(* ================================================================== *)
(** * Part II. The vocabulary of the statements                        *)
(* ================================================================== *)

(** ** JSON texts *)

Module JsonFacts.

Import JSON.

(** A text that does not go on with a digit. *)
Definition no_digit_ahead (s : string) : Prop :=
  match s with
  | EmptyString => True
  | String c _ => Js.is_digit c = false
  end.

(** The number of values in a value: the fuel that parsing it takes. *)
Fixpoint jsize (v : json) : nat :=
  match v with
  | Arr l => S (fold_right (fun x n => jsize x + n) 0 l)%nat
  | Obj l => S (fold_right (fun kv n => jsize (snd kv) + n) 0 l)%nat
  | _ => 1
  end.

(** The text of the elements of an array, closing bracket included. *)
Definition elems_text : list json -> string :=
  fix elems (l : list json) : string :=
    match l with
    | [] => "]"
    | [x] => stringify x ++ "]"
    | x :: r => stringify x ++ String "," (elems r)
    end.

(** The text of the members of an object, closing brace included. *)
Definition members_text : list (string * json) -> string :=
  fix members (l : list (string * json)) : string :=
    match l with
    | [] => "}"
    | [(k, x)] => quote k ++ String ":" (stringify x ++ "}")
    | (k, x) :: r => quote k ++ String ":" (stringify x ++ String "," (members r))
    end.

End JsonFacts.

(** Induction on a value, with the hypothesis on every element of an array
    and on every member of an object. *)
Section JsonInduction.

Import JSON.

Variable P : json -> Prop.
Hypothesis HNull : P Null.
Hypothesis HBool : forall b, P (Bool b).
Hypothesis HNum : forall z, P (Num z).
Hypothesis HStr : forall s, P (Str s).
Hypothesis HArr : forall l, Forall P l -> P (Arr l).
Hypothesis HObj : forall l, Forall (fun kv => P (snd kv)) l -> P (Obj l).

Fixpoint json_nested_ind (v : json) : P v :=
  match v with
  | Null => HNull
  | Bool b => HBool b
  | Num z => HNum z
  | Str s => HStr s
  | Arr l =>
      HArr l ((fix all (l : list json) : Forall P l :=
                 match l with
                 | [] => Forall_nil P
                 | x :: r => Forall_cons x (json_nested_ind x) (all r)
                 end) l)
  | Obj l =>
      HObj l ((fix all (l : list (string * json))
                 : Forall (fun kv => P (snd kv)) l :=
                 match l with
                 | [] => Forall_nil _
                 | kv :: r => Forall_cons kv (json_nested_ind (snd kv)) (all r)
                 end) l)
  end.

End JsonInduction.

(** ** The cache *)

Module CacheFacts.

Import JSON CacheManager.

(** A platform to run the examples on. *)
Definition examplePlatform : Platform :=
  {| maxArguments := 65535; textDecode := fromCharCodes |}.

Definition longText : json := Str (Js.repeat "a" 2000).

(** The entry that [set] writes. *)
Definition written (P : Platform) (d : json) (t now : Z) : StoredEntry :=
  let serialized := stringify (cacheEntryJson d now t) in
  let serializedData :=
    if (COMPRESSION_THRESHOLD <? Js.length serialized)%N
    then compressData P serialized else serialized in
  {| data := d; timestamp := now; ttl := t;
     compressed := (COMPRESSION_THRESHOLD <? Js.length serializedData)%N;
     size := Js.length serializedData |}.

(** The sum that [getCacheStats] reports as [totalSize]. *)
Definition footprint (st : Store) : N :=
  fold_right (fun kv n => entrySize (snd kv) + n)%N 0%N st.

(** An entry flagged as compressed. *)
Definition flaggedEntry : StoredEntry :=
  {| data := Str "payload"; timestamp := 1000; ttl := 300000;
     compressed := true; size := 2048 |}.

(** The keys of an object are distinct. *)
Definition uniqueKeys (st : Store) : Prop := NoDup (map fst st).

(** The timestamps that [getCacheStats] looks at: those that are not 0. *)
Definition stamps (st : Store) : list Z :=
  filter (fun t => negb (t =? 0)%Z) (map (fun kv => timestamp (snd kv)) st).

(** What [get] takes for expired. *)
Definition expiredForGet (now : Z) (e : StoredEntry) : bool :=
  (ttl e <? now - timestamp e)%Z.

(** The entries that [getCacheStats] counts as expired. *)
Definition countedExpired (now : Z) (st : Store) : Store :=
  filter (fun kv => negb (timestamp (snd kv) =? 0)%Z
                    && (ttl (snd kv) <? now - timestamp (snd kv))%Z) st.

(** The oldest and the newest of the timestamps seen bound them all. *)
Definition extremes (oldest newest : option Z) (seen : list Z) : Prop :=
  match oldest, newest with
  | Some o, Some n =>
      o <> 0%Z /\ n <> 0%Z /\ In o seen /\ In n seen
      /\ forall t, In t seen -> (o <= t <= n)%Z
  | None, None => seen = []
  | _, _ => False
  end.

Definition entryAt (ts t : Z) : StoredEntry :=
  {| data := Str "x"; timestamp := ts; ttl := t; compressed := false; size := 100 |}.

(** A store with a live entry, an expired one, one without time to live
    and one without timestamp. *)
Definition mixedStore : Store :=
  [("live", entryAt 1000 5000); ("old", entryAt 1000 10);
   ("forever", entryAt 1000 0); ("unstamped", entryAt 0 5000)].

End CacheFacts.

(** ** The error logs *)

Module ErrorLog.

Import ErrorHandler.

(** One call of [createError]. *)
Record Classification : Type := {
  ofType : ErrorType;
  withMessage : string;
  withOriginal : option Js.Error;
  withContext : option Context;
  atTime : Z
}.


Definition classify (st : State) (c : Classification) : State :=
  snd (createError (ofType c) (withMessage c) (withOriginal c) (withContext c)
         (atTime c) st).

Definition classifyAll (cs : list Classification) (st : State) : State :=
  fold_left classify cs st.



Definition exampleClassifications : list Classification :=
  [ {| ofType := NETWORK; withMessage := "Failed to fetch"; withOriginal := None;
       withContext := None; atTime := 1 |};
    {| ofType := AUTHENTICATION; withMessage := "Not logged in";
       withOriginal := None; withContext := None; atTime := 2 |} ].

(** Every error of the log has the recoverability of its type, as
    [createError] gives it. *)
Definition classified (st : State) : Prop :=
  Forall (fun e => recoverable e = isRecoverable (type e)) (errorLog st).

(** [errorsByType[t]], 0 when the key is missing. *)
Fixpoint countOf (t : ErrorType) (byType : list (ErrorType * Z)) : Z :=
  match byType with
  | [] => 0
  | (t', n) :: rest => if ErrorType_eqb t t' then n else countOf t rest
  end.

(** The errors of type [t] in a log. *)
Definition errorsOfType (t : ErrorType) (log : list ExtensionError) : list ExtensionError :=
  filter (fun e => ErrorType_eqb t (type e)) log.

(** The percentage of [part] in [whole], rounded half up. *)
Definition percentage (part whole : Z) : Z := ((200 * part + whole) / (2 * whole))%Z.

(** The recovery rate of a log of [t] errors of which [c] are critical: the
    percentage of the others rounded half up, but for two logs whose
    percentage is 57.5 and whose product in doubles falls below it. *)
Definition expectedRate (t c : Z) : Z :=
  if ((t =? 40) && (c =? 17) || (t =? 80) && (c =? 34))%Z then 57%Z
  else percentage (t - c) t.

(** [recoveryRate] is computed in doubles as [expectedRate] says. *)
Definition rateExact (t c : Z) : bool :=
  match Number.round (Number.mul (Number.div (Number.ofZ (t - c)) (Number.ofZ t))
                        (Number.ofZ 100)),
        Number.ofZ (expectedRate t c) with
  | SpecFloat.S754_finite s m e, SpecFloat.S754_finite s' m' e' =>
      Bool.eqb s s' && Pos.eqb m m' && Z.eqb e e'
  | SpecFloat.S754_zero s, SpecFloat.S754_zero s' => Bool.eqb s s'
  | _, _ => false
  end.

(** [rateExact] for the logs of [S t] errors. *)
Definition rateExactUpTo (t : nat) : bool :=
  forallb (fun c => rateExact (Z.of_nat (S t)) (Z.of_nat c)) (seq 0 (S (S t))).

(** A log of 17 authentication errors and 23 network errors. *)
Definition unevenLog : State :=
  classifyAll
    (List.repeat {| ofType := AUTHENTICATION; withMessage := "Not logged in";
                    withOriginal := None; withContext := None; atTime := 1 |} 17
     ++ List.repeat {| ofType := NETWORK; withMessage := "Failed to fetch";
                       withOriginal := None; withContext := None; atTime := 2 |} 23)
    initial.

Definition exampleLog : State :=
  classifyAll exampleClassifications initial.

End ErrorLog.

(** ** The request queue *)

Module QueueFacts.

Import JSON RequestQueue.

(** What [makeRequest] throws or returns for an item with the given
    timeout. *)
Definition requestResult (tmo : Z) (o : Oracle) : Js.Error + json :=
  if (tmo <=? latency o)%Z then inl abortError
  else
    match outcome o with
    | FetchRejects e => inl e
    | FetchResponse status statusText retryAfter body =>
        if (status =? 429)%Z then
          inl (Js.newError ("Rate limited. Retry after "
                            ++ Js.string_of_num (backoffTime retryAfter) ++ "ms"))
        else if negb ((200 <=? status) && (status <=? 299))%Z then
          inl (Js.newError ("HTTP " ++ Js.string_of_Z status ++ ": " ++ statusText))
        else body
    end.

(** The test of [handleRequestError] on the error. *)
Definition retryable (e : Js.Error) : bool :=
  isRateLimit e || isTimeout e || isNetworkError e.



(** The item in flight and the items that wait. *)
Definition pool (st : State) : list Item :=
  match inflight st with
  | Some it => it :: queue st
  | None => queue st
  end.

(** The item as a retry puts it back. *)
Definition bumped (it : Item) (t : Z) : Item :=
  withPriority (priority it + 10) (withRetries (retries it + 1) (withStartTime t it)).

(** Insertion before the first item of lower priority, by recursion. *)
Fixpoint insertSorted (item : Item) (q : list Item) : list Item :=
  match q with
  | [] => [item]
  | x :: r =>
      if (priority x <? priority item)%Z then item :: q
      else x :: insertSorted item r
  end.

(** The worker has an item in flight whenever items wait. *)
Definition consistent (st : State) : Prop :=
  inflight st = None -> queue st = [].

(** The worker is on exactly when an item is in flight. *)
Definition busy (st : State) : Prop :=
  isProcessing st = match inflight st with Some _ => true | None => false end.



(** The number of times the promise [h] was dispatched. *)
Definition attempts (h : nat) (st : State) : nat :=
  List.length (filter (fun e => match e with
                                | Dispatched h' _ _ => Nat.eqb h h'
                                | _ => false
                                end) (trace st)).


(** The states that the queue gets into: calls of [enqueue] and turns of
    the worker, in any order and in any world. *)
Inductive reachable : State -> Prop :=
| reach_initial : reachable initial
| reach_enqueue (u : string) (options : RequestOptions) (now : Z) (st : State) :
    reachable st -> reachable (enqueue u options now st)
| reach_cycle (env : Env) (st : State) :
    reachable st -> reachable (workerCycle env st).

Definition eventHandle (e : Event) : nat :=
  match e with
  | Dispatched h _ _ | Resolved h _ | Rejected h _ => h
  end.

(** Promises are numbered in the order of the calls of [enqueue]. *)
Definition wellFormed (st : State) : Prop :=
  consistent st
  /\ NoDup (map handle (pool st))
  /\ (forall it, In it (pool st) -> (handle it < nextHandle st)%nat)
  /\ (forall e, In e (trace st) -> (eventHandle e < nextHandle st)%nat).

(** The item that [enqueue] makes. *)
Definition newItem (u : string) (options : RequestOptions) (st : State) : Item :=
  {| handle := nextHandle st; url := u; retries := 0;
     priority := orDefault (optPriority options) 0;
     startTime := None;
     timeout := orDefault (optTimeout options) defaultTimeout;
     retryDelay := orDefault (optRetryDelay options) 1000;
     headers := match optHeaders options with Some h => h | None => [] end |}.

(** A call of [enqueue] or a turn of the worker. *)
Inductive Step : Type :=
| Enqueue (u : string) (options : RequestOptions) (now : Z)
| Turn.

Definition step (env : Env) (st : State) (s : Step) : State :=
  match s with
  | Enqueue u options now => enqueue u options now st
  | Turn => workerCycle env st
  end.

(** Calls of [enqueue] and turns of the worker, in the given order. *)
Definition run (env : Env) (steps : list Step) (st : State) : State :=
  fold_left (step env) steps st.




(** Higher priority first. *)
Definition byPriority (a b : Item) : Prop := (priority b <= priority a)%Z.

Definition ordered (st : State) : Prop :=
  StronglySorted byPriority (queue st)
  /\ (forall it, In it (pool st) -> (0 <= retries it)%Z).





(** Examples. *)
Definition okOracle : Oracle :=
  {| requiredDelay := 500; latency := 120;
     outcome := FetchResponse 200 "OK" None (inr (Str "ok")); retryJitter := 10 |}.




(** The promises resolved and the promises rejected so far. *)
Definition resolvedCount (st : State) : nat :=
  List.length (filter (fun e => match e with Resolved _ _ => true | _ => false end)
                 (trace st)).

Definition rejectedCount (st : State) : nat :=
  List.length (filter (fun e => match e with Rejected _ _ => true | _ => false end)
                 (trace st)).

(** [Math.round] of the mean of a list of numbers. *)
Definition roundedMean (l : list Z) : Z :=
  ((2 * fold_left Z.add l 0 + Z.of_nat (List.length l))
   / (2 * Z.of_nat (List.length l)))%Z.


(** The error that [clear] rejects with. *)
Definition cleared : Js.Error := Js.newError "Queue cleared".

(** The items of priority [p], in queue order. *)
Definition ofPriority (p : Z) (q : list Item) : list Item :=
  filter (fun item => (priority item =? p)%Z) q.

(** A state that two enqueued requests and a turn of the worker lead to. *)
Definition afterTwo : State :=
  workerCycle (fun _ _ => okOracle)
    (enqueue "b" noOptions 0 (enqueue "a" noOptions 0 initial)).

(** The counters that only [enqueue] and the settlement of a promise
    change. *)
Definition sameCounters (s s' : QueueStats) : Prop :=
  totalRequests s' = totalRequests s
  /\ successfulRequests s' = successfulRequests s
  /\ failedRequests s' = failedRequests s
  /\ queueLength s' = queueLength s
  /\ statsIsProcessing s' = statsIsProcessing s.


(** The window of response times: it holds the response times of the last
    successful requests, up to 100 of them, none is negative, and the
    average of the statistics is their rounded mean. *)
Definition timed (st : State) : Prop :=
  List.length (responseTimes st) = Nat.min 100 (resolvedCount st)
  /\ Forall (fun t => (0 <= t)%Z) (responseTimes st)
  /\ averageResponseTime (stats st)
     = match responseTimes st with
       | [] => 0%Z
       | _ => roundedMean (responseTimes st)
       end.

(** [e] settles the promise [h]. *)
Definition settles (h : nat) (e : Event) : bool :=
  match e with
  | Resolved h' _ | Rejected h' _ => Nat.eqb h h'
  | Dispatched _ _ _ => false
  end.

(** The rejections of [clear], in queue order. *)
Definition clearings (q : list Item) : list Event :=
  map (fun item => Rejected (handle item) cleared) q.

(** A queue with two requests waiting behind the one in flight. *)
Definition threeEnqueued : State :=
  enqueue "c" noOptions 0 (enqueue "b" noOptions 0 (enqueue "a" noOptions 0 initial)).

(** A queue in which a retried request has waited for 45 seconds behind a
    request of higher priority. *)
Definition staleQueue : State :=
  withQueue
    [withPriority 12 (newItem "a" noOptions initial);
     withStartTime 5000 (withPriority 10 (newItem "b" noOptions initial))]
    initial.

End QueueFacts.

(** ** The connections service *)

Module ServiceFacts.

Import JSON ConnectionsService.




(** The property [k] of a value: [None] for [undefined]. *)
Definition field (k : string) (v : json) : option json :=
  match v with
  | Obj fields => lookup k fields
  | _ => None
  end.

(** Every entry of the first store is an entry of the second. *)
Definition subStore (st' st : Store) : Prop :=
  forall k e, Storage.get k st' = Some e -> Storage.get k st = Some e.

Definition connection (i : string) : json :=
  Obj [("id", Str i); ("fullName", Str "Ada Lovelace");
       ("currentCompany", Str "Acme")].

(** What [fetchConnections] throws on a 401 answer. *)
Definition unauthorized : Js.Error := Js.newError "HTTP 401: Unauthorized".

(** The first batch is refused, the next ones come. *)
Definition unauthorizedOnce : Api :=
  {| fetchConnections := fun i _ _ =>
       match i with
       | 0%nat => inl unauthorized
       | 1%nat => inr [connection "1"; connection "2"]
       | 2%nat => inr [connection "3"]
       | _ => inr []
       end;
     fetchLatency := fun _ => 50%Z;
     batchDelay := fun _ => 700%Z |}.

(** Every batch is refused. *)
Definition unauthorizedAlways : Api :=
  {| fetchConnections := fun _ _ _ => inl unauthorized;
     fetchLatency := fun _ => 50%Z;
     batchDelay := fun _ => 700%Z |}.

(** The connection with the logo of the example. *)
Definition withLogo (c : json) : json :=
  match c with
  | Obj fields =>
      Obj (setField "companyLogo" (Str "https://logo.example/acme.png") fields)
  | _ => c
  end.

(** A store that holds the logo of the company of the example. *)
Definition logoStore : Store :=
  CacheManager.set CacheFacts.examplePlatform "company_logo_Acme"
    (Str "https://logo.example/acme.png") 86400000 0 [].

(** A transport that delivers two batches of three connections and then
    none. *)
Definition twoBatches : Api :=
  {| fetchConnections := fun i _ _ =>
       match i with
       | 0%nat => inr [connection "1"; connection "2"; connection "3"]
       | 1%nat => inr [connection "4"; connection "5"; connection "6"]
       | _ => inr []
       end;
     fetchLatency := fun _ => 200%Z;
     batchDelay := fun _ => 700%Z |}.

(** No batch has more than [bound] connections. *)
Definition batchesWithin (api : Api) (bound : nat) : Prop :=
  forall i start count connections,
    fetchConnections api i start count = inr connections ->
    (List.length connections <= bound)%nat.

End ServiceFacts.

(** ** The rate limiter *)

Module LimiterFacts.

Import RateLimiter.

(** The calls that touch the list of requests, with the time of the call. *)
Inductive Call : Type :=
| CheckLimit (now : Z)
| GetRemainingRequests (now : Z).

Definition callTime (c : Call) : Z :=
  match c with
  | CheckLimit now | GetRemainingRequests now => now
  end.

(** One call: the time at which a request was allowed, if one was, and the
    state after. *)
Definition call (P : Platform) (c : Call) (st : State) : list Z * State :=
  match c with
  | CheckLimit now =>
      match checkLimit P now st with
      | (inr v, st') => (if allowed v then [now] else [], st')
      | (inl _, st') => ([], st')
      end
  | GetRemainingRequests now => ([], snd (getRemainingRequests now st))
  end.

(** The times of the requests that a sequence of calls allowed. *)
Fixpoint granted (P : Platform) (calls : list Call) (st : State) : list Z :=
  match calls with
  | [] => []
  | c :: rest => (fst (call P c st) ++ granted P rest (snd (call P c st)))%list
  end.

(** The state after a sequence of calls. *)
Definition after (P : Platform) (calls : list Call) (st : State) : State :=
  fold_left (fun st c => snd (call P c st)) calls st.

(** The requests allowed in the window of length [w] that ends at [x]. *)
Definition within (w x : Z) (times : list Z) : list Z :=
  filter (fun a => (x - w <? a)%Z && (a <=? x)%Z) times.

(** The timestamps of [l] that a window of [w] milliseconds ending at [now]
    keeps. *)
Definition live (w now : Z) (l : list Z) : list Z :=
  filter (fun timestamp => (now - timestamp <? w)%Z) l.

(** No more timestamps are held than requests are allowed. *)
Definition bounded (st : State) : Prop :=
  (Z.of_nat (List.length (requests st)) <= Z.max 0 (maxRequests st))%Z.

(** A limiter that holds as many requests as it allows, and one that has
    room. *)
Definition fullLimiter : State :=
  {| requests := [100; 200]%Z; windowMs := 1000; maxRequests := 2 |}.

Definition openLimiter : State :=
  {| requests := [100]%Z; windowMs := 1000; maxRequests := 3 |}.

End LimiterFacts.

(** ** The occupation *)

Module ApiFacts.

Import RegExp LinkedInAPI.

(** The characters up to the first white space. *)
Fixpoint untilSpace (s : string) : string :=
  match s with
  | EmptyString => EmptyString
  | String c r => if Js.is_js_whitespace c then EmptyString else String c (untilSpace r)
  end.

(** No character of [s] passes [p]. *)
Fixpoint free (p : ascii -> bool) (s : string) : bool :=
  match s with
  | EmptyString => true
  | String c r => negb (p c) && free p r
  end.

(** What follows "at " makes a company: a character that is not a line
    terminator, and the characters after it up to the first white space. *)
Definition companyFrom (s : string) : option string :=
  match s with
  | EmptyString => None
  | String c r =>
      if isLineTerminator c then None else Some (String c (untilSpace r))
  end.

(** The first place where "at " is followed by a company. *)
Fixpoint findCompany (s : string) : option string :=
  match
    match Js.stripPrefix "at " s with
    | Some r => companyFrom r
    | None => None
    end
  with
  | Some group => Some group
  | None =>
      match s with
      | EmptyString => None
      | String _ r => findCompany r
      end
  end.

(** White space, and after the white space "at". *)
Definition spaceThenAt (s : string) : bool :=
  match s with
  | EmptyString => false
  | String c _ => Js.is_js_whitespace c && Js.startsWith "at" (Js.trimStart s)
  end.

(** The shortest start of [s], of one character at least and without line
    terminator, that [spaceThenAt] follows; [before] is what was passed. *)
Fixpoint findPosition (before s : string) : option string :=
  match s with
  | EmptyString => None
  | String c r =>
      if isLineTerminator c then None
      else if spaceThenAt r then Some (before ++ String c EmptyString)
      else findPosition (before ++ String c EmptyString) r
  end.

(** [spaceThenAt] holds nowhere in [s]. *)
Fixpoint noSpaceThenAt (s : string) : bool :=
  negb (spaceThenAt s)
  && match s with
     | EmptyString => true
     | String _ r => noSpaceThenAt r
     end.

(** White space and "at" follow no end of [title] that is not empty, when
    [after] comes after [title]. *)
Fixpoint noneBefore (title after : string) : bool :=
  match title with
  | EmptyString => true
  | String _ r => negb (spaceThenAt (title ++ after)) && noneBefore r after
  end.

(** [s] is empty or starts with white space. *)
Definition endsWord (s : string) : bool :=
  match s with
  | EmptyString => true
  | String c _ => Js.is_js_whitespace c
  end.

End ApiFacts.

(* ================================================================== *)
(** * Part III. Properties                                             *)
(* ================================================================== *)

(** ** Strings, JSON and Base64, and the cache *)

Section CacheProofs.

Import JSON JsonFacts CacheManager CacheFacts.

Lemma append_assoc (a b c : string) : (a ++ b) ++ c = a ++ (b ++ c).
Proof. induction a as [|x a IH]; simpl; [reflexivity | now rewrite IH]. Qed.

Lemma append_nil_r (a : string) : a ++ "" = a.
Proof. induction a as [|x a IH]; simpl; [reflexivity | now rewrite IH]. Qed.

Lemma length_append (a b : string) :
  String.length (a ++ b) = (String.length a + String.length b)%nat.
Proof. induction a as [|x a IH]; simpl; [reflexivity | now rewrite IH]. Qed.

Lemma span_digits_uint (d : Decimal.uint) (rest : string) :
  no_digit_ahead rest ->
  Js.span_digits (NilEmpty.string_of_uint d ++ rest)
  = (NilEmpty.string_of_uint d, rest).
Proof.
  intros Hrest. induction d; simpl; try (rewrite IHd; reflexivity).
  destruct rest as [|c r]; simpl in *; [reflexivity | now rewrite Hrest].
Qed.

Lemma to_uint_not_nil (n : N) : N.to_uint n <> Decimal.Nil.
Proof.
  destruct n as [|p]; simpl; [discriminate|].
  intros H. apply (f_equal Pos.of_uint) in H. rewrite DecimalPos.Unsigned.of_to in H. discriminate.
Qed.

Lemma string_of_N_eq (n : N) :
  Js.string_of_N n = NilEmpty.string_of_uint (N.to_uint n).
Proof.
  unfold Js.string_of_N, NilZero.string_of_uint.
  pose proof (to_uint_not_nil n). destruct (N.to_uint n); congruence.
Qed.

Lemma N_of_digits_string_of_N (n : N) :
  Js.N_of_digits (Js.string_of_N n) = Some n.
Proof.
  unfold Js.N_of_digits, Js.string_of_N.
  rewrite NilZero.usu by apply to_uint_not_nil.
  simpl. now rewrite DecimalN.Unsigned.of_to.
Qed.

Lemma span_digits_N (n : N) (rest : string) :
  no_digit_ahead rest ->
  Js.span_digits (Js.string_of_N n ++ rest) = (Js.string_of_N n, rest).
Proof. intros H. rewrite string_of_N_eq. now apply span_digits_uint. Qed.

(** The first character of a decimal rendering is a digit. *)
Lemma string_of_N_head (n : N) :
  exists c r, Js.string_of_N n = String c r /\ Js.is_digit c = true.
Proof.
  rewrite string_of_N_eq. pose proof (to_uint_not_nil n) as H.
  destruct (N.to_uint n); try congruence; simpl; eauto.
Qed.

Lemma parse_number_string_of_Z (z : Z) (rest : string) :
  no_digit_ahead rest ->
  JSON.parse_number (Js.string_of_Z z ++ rest) = Some (z, rest).
Proof.
  intros Hrest. unfold JSON.parse_number, Js.string_of_Z.
  destruct (Z.ltb_spec z 0) as [Hneg|Hpos].
  - simpl. rewrite span_digits_N by assumption.
    rewrite N_of_digits_string_of_N. f_equal. f_equal. lia.
  - destruct (string_of_N_head (Z.to_N z)) as (c & r & Heq & Hc).
    assert (Hm : Ascii.eqb c "-" = false).
    { destruct (Ascii.eqb_spec c "-") as [->|]; [discriminate Hc | reflexivity]. }
    rewrite Heq. simpl. rewrite Hm.
    change (String c (r ++ rest)) with (String c r ++ rest). rewrite <- Heq.
    rewrite span_digits_N by assumption.
    rewrite N_of_digits_string_of_N. f_equal. f_equal. lia.
Qed.

Lemma parse_chars_escape_char (c : ascii) (rest : string) :
  JSON.parse_chars (JSON.escape_char c ++ rest)
  = JSON.cons_char c (JSON.parse_chars rest).
Proof.
  destruct c as [[] [] [] [] [] [] [] []]; reflexivity.
Qed.

Lemma parse_chars_escape (s rest : string) :
  JSON.parse_chars (JSON.escape s ++ String Js.dquote rest) = Some (s, rest).
Proof.
  induction s as [|c s IH]; simpl.
  - reflexivity.
  - rewrite append_assoc, parse_chars_escape_char, IH. reflexivity.
Qed.

Lemma parse_string_quote (s rest : string) :
  JSON.parse_string (JSON.quote s ++ rest) = Some (s, rest).
Proof.
  unfold JSON.quote. simpl. rewrite append_assoc. simpl.
  apply parse_chars_escape.
Qed.

Lemma stringify_Arr (l : list json) : stringify (Arr l) = String "[" (elems_text l).
Proof. reflexivity. Qed.

Lemma stringify_Obj (l : list (string * json)) :
  stringify (Obj l) = String "{" (members_text l).
Proof. reflexivity. Qed.

(** No value starts with a closing bracket. *)
Lemma stringify_head (v : json) :
  exists c r, stringify v = String c r /\ Ascii.eqb c "]" = false.
Proof.
  destruct v as [|[]|z|s|l|l]; simpl;
    try (do 2 eexists; split; reflexivity).
  unfold Js.string_of_Z.
  destruct (z <? 0)%Z; [do 2 eexists; split; reflexivity|].
  destruct (string_of_N_head (Z.to_N z)) as (c & r & -> & Hc).
  exists c, r. split; [reflexivity|].
  destruct (Ascii.eqb_spec c "]") as [->|]; [discriminate Hc | reflexivity].
Qed.

Lemma parse_value_numeric (f : nat) (c : ascii) (r : string) :
  Js.is_digit c = true \/ c = "-"%char ->
  parse_value (S f) (String c r) = with_rest Num (parse_number (String c r)).
Proof.
  destruct c as [[] [] [] [] [] [] [] []]; intros [H|H];
    try discriminate H; reflexivity.
Qed.

Lemma parse_value_Num (f : nat) (z : Z) (rest : string) :
  no_digit_ahead rest ->
  parse_value (S f) (stringify (Num z) ++ rest) = Some (Num z, rest).
Proof.
  intros Hrest.
  assert (Hhead : exists c r, Js.string_of_Z z = String c r
                              /\ (Js.is_digit c = true \/ c = "-"%char)).
  { unfold Js.string_of_Z. destruct (z <? 0)%Z; [eauto|].
    destruct (string_of_N_head (Z.to_N z)) as (c & r & -> & Hc); eauto. }
  destruct Hhead as (c & r & Heq & Hc). simpl stringify.
  pose proof (parse_number_string_of_Z z rest Hrest) as Hnum.
  rewrite Heq in *. simpl append in *.
  rewrite parse_value_numeric by assumption. now rewrite Hnum.
Qed.

Lemma parse_elems_text (pv : string -> option (json * string)) (l : list json)
    (rest : string) :
  l <> [] ->
  Forall (fun x => forall rest', no_digit_ahead rest' ->
                                 pv (stringify x ++ rest') = Some (x, rest')) l ->
  forall n, (List.length l <= n)%nat ->
  parse_elems pv n (elems_text l ++ rest) = Some (l, rest).
Proof.
  intros Hne Hall. induction Hall as [|x r Hx Hr IH]; [congruence|].
  intros n Hn. destruct n as [|n]; [simpl in Hn; lia|].
  destruct r as [|y r].
  - simpl. rewrite append_assoc. simpl. rewrite Hx by reflexivity. reflexivity.
  - change (elems_text (x :: y :: r))
      with (stringify x ++ String "," (elems_text (y :: r))).
    rewrite append_assoc. simpl append.
    cbn [parse_elems]. rewrite Hx by reflexivity.
    cbn [Ascii.eqb Bool.eqb]. simpl in Hn.
    rewrite IH by (simpl; try congruence; lia). reflexivity.
Qed.

Lemma parse_members_text (pv : string -> option (json * string))
    (l : list (string * json)) (rest : string) :
  l <> [] ->
  Forall (fun kv => forall rest', no_digit_ahead rest' ->
            pv (stringify (snd kv) ++ rest') = Some (snd kv, rest')) l ->
  forall n, (List.length l <= n)%nat ->
  parse_members pv n (members_text l ++ rest) = Some (l, rest).
Proof.
  intros Hne Hall. induction Hall as [|[k x] r Hx Hr IH]; [congruence|].
  intros n Hn. destruct n as [|n]; [simpl in Hn; lia|]. simpl in Hx.
  destruct r as [|y r].
  - change (members_text [(k, x)]) with (quote k ++ String ":" (stringify x ++ "}")).
    rewrite append_assoc. cbn [parse_members].
    rewrite parse_string_quote. simpl append. cbn [Ascii.eqb Bool.eqb].
    rewrite append_assoc. simpl append. rewrite Hx by reflexivity. reflexivity.
  - change (members_text ((k, x) :: y :: r))
      with (quote k ++ String ":" (stringify x ++ String "," (members_text (y :: r)))).
    rewrite append_assoc. cbn [parse_members].
    rewrite parse_string_quote. simpl append. cbn [Ascii.eqb Bool.eqb].
    rewrite append_assoc. simpl append. rewrite Hx by reflexivity.
    cbn [Ascii.eqb Bool.eqb]. simpl in Hn.
    rewrite IH by (simpl; try congruence; lia). reflexivity.
Qed.

Lemma fold_size_length (l : list json) :
  (List.length l <= fold_right (fun x n => jsize x + n) 0 l)%nat.
Proof.
  induction l as [|x l IH]; simpl; [lia|].
  assert (1 <= jsize x)%nat by (destruct x; simpl; lia). lia.
Qed.

Lemma fold_size_length_members (l : list (string * json)) :
  (List.length l <= fold_right (fun kv n => jsize (snd kv) + n) 0 l)%nat.
Proof.
  induction l as [|x l IH]; simpl; [lia|].
  assert (1 <= jsize (snd x))%nat by (destruct (snd x); simpl; lia). lia.
Qed.

Lemma parse_value_bracket (f : nat) (c : ascii) (r : string) :
  Ascii.eqb c "]" = false ->
  parse_value (S f) (String "[" (String c r))
  = with_rest Arr (parse_elems (parse_value f) f (String c r)).
Proof.
  intros H. cbn [parse_value]. change (N_of_ascii "[") with 91%N.
  cbv iota. now rewrite H.
Qed.

Lemma parse_value_brace (f : nat) (r : string) :
  parse_value (S f) (String "{" (String Js.dquote r))
  = with_rest Obj (parse_members (parse_value f) f (String Js.dquote r)).
Proof. reflexivity. Qed.

(** Parsing what [stringify] wrote gives the value back, with any fuel
    from the size of the value on. *)
Lemma parse_value_stringify (v : json) :
  forall fuel rest, (jsize v <= fuel)%nat -> no_digit_ahead rest ->
  parse_value fuel (stringify v ++ rest) = Some (v, rest).
Proof.
  induction v as [|b|z|s|l IH|l IH] using json_nested_ind;
    intros fuel rest Hfuel Hrest;
    (destruct fuel as [|f]; [simpl in Hfuel; lia|]).
  - reflexivity.
  - destruct b; reflexivity.
  - now apply parse_value_Num.
  - change (stringify (Str s)) with (quote s).
    unfold quote. simpl. rewrite append_assoc. simpl.
    now rewrite parse_chars_escape.
  - rewrite stringify_Arr. destruct l as [|x l]; [reflexivity|].
    simpl in Hfuel.
    assert (Hhead : exists c r, elems_text (x :: l) ++ rest = String c r
                                /\ Ascii.eqb c "]" = false).
    { destruct (stringify_head x) as (c & r & Hc & Hne).
      destruct l; simpl; rewrite Hc; simpl; eauto. }
    destruct Hhead as (c & r & Hc & Hne).
    change (String "[" (elems_text (x :: l)) ++ rest)
      with (String "[" (elems_text (x :: l) ++ rest)).
    rewrite Hc, parse_value_bracket, <- Hc by assumption.
    rewrite (parse_elems_text (parse_value f) (x :: l) rest); [reflexivity|congruence| |].
    + rewrite Forall_forall in IH |- *. intros y Hy rest' Hrest'.
      apply IH; [assumption| |assumption].
      pose proof (fold_size_length (x :: l)).
      assert (jsize y <= fold_right (fun x n => jsize x + n) 0 (x :: l))%nat.
      { clear - Hy. induction (x :: l) as [|a l' IHl]; [destruct Hy|].
        destruct Hy as [->|Hy]; simpl; [lia|]. specialize (IHl Hy). lia. }
      simpl in *. lia.
    + pose proof (fold_size_length (x :: l)). simpl in *. lia.
  - rewrite stringify_Obj. destruct l as [|[k x] l]; [reflexivity|].
    simpl in Hfuel.
    assert (Hhead : exists r, members_text ((k, x) :: l) ++ rest = String Js.dquote r).
    { destruct l as [|[k' x'] l]; simpl; eauto. }
    destruct Hhead as (r & Hc).
    change (String "{" (members_text ((k, x) :: l)) ++ rest)
      with (String "{" (members_text ((k, x) :: l) ++ rest)).
    rewrite Hc, parse_value_brace, <- Hc.
    rewrite (parse_members_text (parse_value f) ((k, x) :: l) rest); [reflexivity|congruence| |].
    + rewrite Forall_forall in IH |- *. intros y Hy rest' Hrest'.
      apply IH; [assumption| |assumption].
      assert (jsize (snd y) <= fold_right (fun kv n => jsize (snd kv) + n) 0 ((k, x) :: l))%nat.
      { clear - Hy. induction ((k, x) :: l) as [|a l' IHl]; [destruct Hy|].
        destruct Hy as [->|Hy]; simpl; [lia|]. specialize (IHl Hy). lia. }
      simpl in *. lia.
    + pose proof (fold_size_length_members ((k, x) :: l)). simpl in *. lia.
Qed.

Lemma fold_size_text (l : list json) :
  Forall (fun x => (jsize x <= String.length (stringify x))%nat) l ->
  (fold_right (fun x n => jsize x + n) 0 l <= String.length (elems_text l))%nat.
Proof.
  induction 1 as [|x r Hx Hr IH]; [simpl; lia|].
  destruct r as [|y r].
  - change (elems_text [x]) with (stringify x ++ "]").
    rewrite length_append. simpl. lia.
  - change (elems_text (x :: y :: r))
      with (stringify x ++ String "," (elems_text (y :: r))).
    rewrite length_append. simpl fold_right in *.
    change (String.length (String "," (elems_text (y :: r))))
      with (S (String.length (elems_text (y :: r)))). lia.
Qed.

Lemma fold_size_text_members (l : list (string * json)) :
  Forall (fun kv => (jsize (snd kv) <= String.length (stringify (snd kv)))%nat) l ->
  (fold_right (fun kv n => jsize (snd kv) + n) 0 l
   <= String.length (members_text l))%nat.
Proof.
  induction 1 as [|[k x] r Hx Hr IH]; [simpl; lia|]. simpl in Hx.
  destruct r as [|y r].
  - change (members_text [(k, x)]) with (quote k ++ String ":" (stringify x ++ "}")).
    rewrite length_append.
    change (String.length (String ":" (stringify x ++ "}")))
      with (S (String.length (stringify x ++ "}"))).
    rewrite length_append. simpl fold_right. lia.
  - change (members_text ((k, x) :: y :: r))
      with (quote k ++ String ":" (stringify x ++ String "," (members_text (y :: r)))).
    rewrite length_append.
    change (String.length (String ":" (stringify x ++ String "," (members_text (y :: r)))))
      with (S (String.length (stringify x ++ String "," (members_text (y :: r))))).
    rewrite length_append. simpl fold_right in *.
    change (String.length (String "," (members_text (y :: r))))
      with (S (String.length (members_text (y :: r)))). lia.
Qed.

Lemma jsize_le_length (v : json) : (jsize v <= String.length (stringify v))%nat.
Proof.
  induction v as [|b|z|s|l IH|l IH] using json_nested_ind.
  - simpl; lia.
  - destruct b; simpl; lia.
  - simpl. unfold Js.string_of_Z. destruct (z <? 0)%Z; [simpl; lia|].
    destruct (string_of_N_head (Z.to_N z)) as (c & r & -> & _). simpl; lia.
  - simpl; lia.
  - rewrite stringify_Arr. pose proof (fold_size_text l IH). simpl in *. lia.
  - rewrite stringify_Obj. pose proof (fold_size_text_members l IH). simpl in *. lia.
Qed.

(** [JSON.parse(JSON.stringify(v))] is [v]. *)
Lemma parse_stringify (v : json) : parse (stringify v) = Some v.
Proof.
  unfold parse.
  pose proof (parse_value_stringify v (S (String.length (stringify v))) "") as H.
  rewrite append_nil_r in H. rewrite H; [reflexivity| |exact I].
  pose proof (jsize_le_length v). lia.
Qed.

(** *** Base64 *)

Lemma remove_padding_head (c : ascii) (r : string) :
  Ascii.eqb c "=" = false ->
  exists r', Base64.remove_padding (String c r) = String c r'.
Proof.
  intros Hc. destruct r as [|b [|d r]]; simpl; rewrite ?Hc; eauto.
  destruct (Ascii.eqb b "="); eauto.
Qed.

(** [atob] throws on a text that starts with a brace. *)
Lemma atob_brace (r : string) : Base64.atob (String "{" r) = None.
Proof.
  unfold Base64.atob.
  change (Base64.strip_whitespace (String "{" r))
    with (String "{" (Base64.strip_whitespace r)).
  set (t := String "{" (Base64.strip_whitespace r)).
  assert (Ht : exists r', (if (Js.length t mod 4 =? 0)%N
                           then Base64.remove_padding t else t) = String "{" r').
  { destruct (Js.length t mod 4 =? 0)%N; [|unfold t; eauto].
    apply remove_padding_head. reflexivity. }
  destruct Ht as (r' & ->).
  destruct (Js.length (String "{" r') mod 4 =? 1)%N; reflexivity.
Qed.

Lemma btoa_length_aux (n : nat) :
  forall s, (String.length s <= n)%nat ->
            (String.length s <= String.length (Base64.btoa s))%nat.
Proof.
  induction n as [|n IH]; intros s Hs.
  - destruct s; simpl in *; lia.
  - destruct s as [|a [|b [|c r]]]; simpl in *; try lia.
    assert (String.length r <= String.length (Base64.btoa r))%nat
      by (apply IH; lia). lia.
Qed.

Lemma btoa_length (s : string) :
  (String.length s <= String.length (Base64.btoa s))%nat.
Proof. now apply (btoa_length_aux (String.length s)). Qed.

Lemma textEncode_length (s : string) :
  (String.length s <= List.length (textEncode s))%nat.
Proof.
  induction s as [|c s IH]; simpl; [lia|].
  rewrite length_app. unfold textEncode_char.
  destruct (N_of_ascii c <? 128)%N; simpl; lia.
Qed.

Lemma fromCharCodes_length (l : list Byte.byte) :
  String.length (fromCharCodes l) = List.length l.
Proof.
  unfold fromCharCodes, string_of_list_byte.
  induction l as [|b l IH]; simpl; [reflexivity | now rewrite IH].
Qed.

(** *** The cache *)

Lemma decompressData_stored (P : Platform) (e : StoredEntry) :
  decompressData P (stringify (storedEntryJson e)) = stringify (storedEntryJson e).
Proof.
  unfold decompressData, storedEntryJson. rewrite stringify_Obj.
  now rewrite atob_brace.
Qed.

Lemma compressData_length (P : Platform) (s : string) :
  (Js.length s <= Js.length (compressData P s))%N.
Proof.
  unfold compressData, Js.length.
  destruct (maxArguments P <? _)%N; [lia|].
  pose proof (btoa_length (fromCharCodes (textEncode s))) as H.
  rewrite fromCharCodes_length in H. pose proof (textEncode_length s). lia.
Qed.

Lemma storage_get_set (k : string) (e : StoredEntry) (st : Store) :
  Storage.get k (Storage.set k e st) = Some e.
Proof.
  induction st as [|[k' e'] st IH]; simpl.
  - now rewrite String.eqb_refl.
  - destruct (String.eqb k k') eqn:E; simpl; rewrite ?String.eqb_refl, ?E; auto.
Qed.

(** What [get] does with a compressed entry that has not expired. *)
Lemma get_compressed (P : Platform) (key : string) (now : Z) (st : Store)
    (e : StoredEntry) :
  Storage.get key st = Some e ->
  (ttl e <? now - timestamp e)%Z = false ->
  get P key now st = (Some (data e), st).
Proof.
  intros Hget Hfresh. unfold get. rewrite Hget, Hfresh.
  destruct (compressed e); [|reflexivity].
  rewrite decompressData_stored, parse_stringify. reflexivity.
Qed.

Lemma set_unfold (P : Platform) (key : string) (d : json) (t now : Z) (st : Store) :
  set P key d t now st
  = Storage.set key (written P d t now) (enforceStorageLimit now st).
Proof. reflexivity. Qed.

Lemma written_compressed (P : Platform) (d : json) (t now : Z) :
  compressed (written P d t now)
  = (COMPRESSION_THRESHOLD <? Js.length (stringify (cacheEntryJson d now t)))%N.
Proof.
  unfold written. cbn [compressed].
  destruct (N.ltb_spec COMPRESSION_THRESHOLD
              (Js.length (stringify (cacheEntryJson d now t)))) as [H|H].
  - apply N.ltb_lt. pose proof (compressData_length P (stringify (cacheEntryJson d now t))). lia.
  - apply N.ltb_ge. assumption.
Qed.

(** C1. For every key, data and ttl that is not negative, [get(key)] right
    after [set(key, data, ttl)] returns the data unchanged, also when the
    entry is flagged as compressed, which happens exactly when its serialized
    form is longer than the threshold; the same holds as long as no more than
    [ttl] has elapsed; once more than [ttl] has elapsed [get] returns a miss
    and removes the entry. *)
Theorem cache_set_get_round_trip (P : Platform) (st : Store) (key : string)
    (d : json) (t now : Z) :
  (0 <= t)%Z ->
  let st' := set P key d t now st in
  get P key now st' = (Some d, st')
  /\ (forall now', (now' - now <= t)%Z -> get P key now' st' = (Some d, st'))
  /\ (forall now', (t < now' - now)%Z -> get P key now' st' = (None, remove key st'))
  /\ (exists e, Storage.get key st' = Some e
                /\ compressed e
                   = (COMPRESSION_THRESHOLD
                      <? Js.length (stringify (cacheEntryJson d now t)))%N).
Proof.
  intros Ht st'.
  assert (Hget : Storage.get key st' = Some (written P d t now)).
  { unfold st'. rewrite set_unfold. apply storage_get_set. }
  assert (Hhit : forall now', (now' - now <= t)%Z ->
                              get P key now' st' = (Some d, st')).
  { intros now' Hle.
    apply (get_compressed P key now' st' (written P d t now) Hget).
    cbn [ttl timestamp written]. apply Z.ltb_ge. assumption. }
  repeat split.
  - apply Hhit. lia.
  - exact Hhit.
  - intros now' Hlt. unfold get. rewrite Hget. cbn [ttl timestamp written].
    apply Z.ltb_lt in Hlt. now rewrite Hlt.
  - exists (written P d t now). split; [exact Hget | apply written_compressed].
Qed.

Lemma cache_set_get_round_trip_witness :
  (0 <= 1000)%Z
  /\ get examplePlatform "logo" 5
       (set examplePlatform "logo" longText 1000 5 [])
     = (Some longText, set examplePlatform "logo" longText 1000 5 []).
Proof.
  assert (H : (0 <= 1000)%Z) by lia.
  split; [exact H|].
  exact (proj1 (cache_set_get_round_trip examplePlatform [] "logo" longText 1000 5 H)).
Defined.

(** *** The size ceiling *)

Lemma totalSize_fold (now : Z) (st : Store) (acc : CacheStats) :
  totalSize (fold_left (statsStep now) st acc) = (totalSize acc + footprint st)%N.
Proof.
  revert acc. induction st as [|kv st IH]; intros acc; simpl.
  - lia.
  - rewrite IH. cbn [totalSize statsStep]. lia.
Qed.

Lemma totalSize_footprint (now : Z) (st : Store) :
  totalSize (getCacheStats now st) = footprint st.
Proof. unfold getCacheStats. rewrite totalSize_fold. reflexivity. Qed.





Lemma filter_length_le {A : Type} (p : A -> bool) (l : list A) :
  (List.length (filter p l) <= List.length l)%nat.
Proof.
  induction l as [|x l IH]; cbn [filter List.length]; [lia|].
  destruct (p x); cbn [List.length]; lia.
Qed.

Lemma filter_drops {A : Type} (p : A -> bool) (l : list A) (x : A) :
  In x l -> p x = false -> (List.length (filter p l) < List.length l)%nat.
Proof.
  induction l as [|y l IH]; intros Hin Hx; [destruct Hin|].
  cbn [filter List.length]. destruct Hin as [->|Hin].
  - rewrite Hx. pose proof (filter_length_le p l). lia.
  - specialize (IH Hin Hx). destruct (p y); cbn [List.length]; lia.
Qed.






Lemma getCacheStats_totalItems (now : Z) (st : Store) :
  totalItems (getCacheStats now st) = N.of_nat (List.length st).
Proof.
  unfold getCacheStats.
  generalize (N.of_nat (List.length st)) as n.
  assert (H : forall acc, totalItems (fold_left (statsStep now) st acc) = totalItems acc).
  { induction st as [|kv st IH]; intros acc; cbn [fold_left]; [reflexivity|].
    now rewrite IH. }
  intros n. now rewrite H.
Qed.












(** *** Entries that do not decompress *)

(** C8, as the code has it. The text that [get] hands to [decompressData]
    for an entry flagged as compressed never decodes; [decompressData] then
    returns the text as it is, and [get] on an entry that has not expired
    returns the data of the entry and leaves the store as it is. *)
Theorem cache_get_undecodable_entry (P : Platform) (st : Store) (key : string)
    (e : StoredEntry) (now : Z) :
  Storage.get key st = Some e ->
  compressed e = true ->
  (now - timestamp e <= ttl e)%Z ->
  Base64.atob (stringify (storedEntryJson e)) = None
  /\ decompressData P (stringify (storedEntryJson e)) = stringify (storedEntryJson e)
  /\ get P key now st = (Some (data e), st).
Proof.
  intros Hget _ Hfresh. repeat split.
  - unfold storedEntryJson. rewrite stringify_Obj. apply atob_brace.
  - apply decompressData_stored.
  - apply get_compressed; [assumption | now apply Z.ltb_ge].
Qed.

Lemma cache_get_undecodable_entry_witness :
  get examplePlatform "logo" 2000 [("logo", flaggedEntry)]
  = (Some (Str "payload"), [("logo", flaggedEntry)]).
Proof.
  refine (proj2 (proj2 (cache_get_undecodable_entry examplePlatform
            [("logo", flaggedEntry)] "logo" flaggedEntry 2000 _ _ _)));
    [reflexivity | reflexivity | vm_compute; discriminate].
Defined.

(** C8 fails as stated: the entry is flagged as compressed and its text does
    not decode, yet [get] returns its data and the entry stays. *)
Lemma cache_get_undecodable_counterexample :
  compressed flaggedEntry = true
  /\ Base64.atob (stringify (storedEntryJson flaggedEntry)) = None
  /\ fst (get examplePlatform "logo" 2000 [("logo", flaggedEntry)]) <> None
  /\ Storage.get "logo" (snd (get examplePlatform "logo" 2000 [("logo", flaggedEntry)]))
     = Some flaggedEntry.
Proof.
  repeat split; try (vm_compute; reflexivity). vm_compute. discriminate.
Qed.

End CacheProofs.

(** ** The error logs *)

Section ErrorLogProofs.

Import ErrorHandler ErrorLog.


Lemma logError_errorLog (e : ExtensionError) (st : State) :
  errorLog (logError e st) = firstn MAX_LOG_SIZE (e :: errorLog st).
Proof.
  unfold logError.
  assert (H : (if (MAX_LOG_SIZE <? List.length (e :: errorLog st))%nat
               then firstn MAX_LOG_SIZE (e :: errorLog st) else e :: errorLog st)
              = firstn MAX_LOG_SIZE (e :: errorLog st)).
  { destruct (Nat.ltb_spec MAX_LOG_SIZE (List.length (e :: errorLog st)));
      [reflexivity | symmetry; now apply firstn_all2]. }
  rewrite H. destruct (negb (recoverable e)); reflexivity.
Qed.







End ErrorLogProofs.

(** ** The request queue *)

Section QueueProofs.

Import JSON RequestQueue QueueFacts.

(** The bookkeeping of a response: the window of response times is either
    full or not, and it is never empty when the average is taken. *)
Ltac response_bookkeeping :=
  unfold updateAverageResponseTime;
  match goal with
  | |- context [if ?c then tl ?x else ?y] => destruct c
  end;
  cbn;
  match goal with
  | |- context [match ?x with [] => _ | _ => _ end] => destruct x
  end;
  cbn.

Lemma insertItem_insertSorted (item : Item) (q : list Item) :
  insertItem item q = insertSorted item q.
Proof.
  unfold insertItem. induction q as [|x r IH]; [reflexivity|].
  cbn [findIndex insertSorted].
  destruct (priority x <? priority item)%Z; [reflexivity|].
  destruct (findIndex _ r) as [i|]; cbn [firstn skipn app] in *; now rewrite IH.
Qed.

Lemma makeRequest_result (it : Item) (o : Oracle) (st : State) :
  fst (makeRequest it o st) = requestResult (timeout it) o.
Proof.
  unfold makeRequest, requestResult.
  destruct (timeout it <=? latency o)%Z; [reflexivity|].
  destruct (outcome o) as [e|status text ra body]; [reflexivity|].
  destruct (status =? 429)%Z; [reflexivity|].
  destruct (negb _); reflexivity.
Qed.

Lemma makeRequest_frame (it : Item) (o : Oracle) (st : State) :
  let st' := snd (makeRequest it o st) in
  queue st' = queue st /\ trace st' = trace st /\ inflight st' = inflight st
  /\ (clock st <= clock st')%Z.
Proof.
  unfold makeRequest.
  destruct (timeout it <=? latency o)%Z; [cbn; repeat split; lia|].
  destruct (outcome o) as [e|status text ra body]; [cbn; repeat split; lia|].
  destruct (status =? 429)%Z; [cbn; repeat split; lia|].
  destruct (negb _); cbn; repeat split; lia.
Qed.

(** What the rest of [processQueue] does with the item in flight. *)
Lemma processQueue_rest_spec (env : Env) (st : State) (it : Item) :
  inflight st = Some it ->
  let st' := processQueue_rest env st in
  exists t,
    inflight st' = None /\ (clock st <= t)%Z /\
    match requestResult (timeout it) (env (handle it) (retries it)) with
    | inr r =>
        queue st' = queue st
        /\ trace st' = Resolved (handle it) r
                       :: Dispatched (handle it) (retries it) t :: trace st
    | inl e =>
        if (retries it <? maxRetries)%Z && retryable e then
          queue st' = insertSorted (bumped it t) (queue st)
          /\ trace st' = Dispatched (handle it) (retries it) t :: trace st
        else
          queue st' = queue st
          /\ trace st' = Rejected (handle it) e
                         :: Dispatched (handle it) (retries it) t :: trace st
    end.
Proof.
  intros Hin. unfold processQueue_rest. rewrite Hin.
  set (o := env (handle it) (retries it)).
  set (st0 := withInflight None st).
  set (st1 := if Js.num_positive (rateLimitBackoff st0) then _ else st0).
  assert (H1 : queue st1 = queue st /\ trace st1 = trace st /\ inflight st1 = None
               /\ (clock st <= clock st1)%Z).
  { unfold st1. destruct (Js.num_positive _); [|cbn; repeat split; lia].
    destruct (rateLimitBackoff st0); cbn; repeat split; lia. }
  set (st2 := if (clock st1 - lastRequestTime st1 <? requiredDelay o)%Z then _ else st1).
  assert (H2 : queue st2 = queue st /\ trace st2 = trace st /\ inflight st2 = None
               /\ (clock st <= clock st2)%Z).
  { unfold st2. destruct (_ <? _)%Z; cbn; repeat split; try apply H1; lia. }
  clearbody st2. clear st1 H1 st0.
  exists (clock st2).
  set (item := withStartTime (clock st2) it).
  set (st3 := emit _ (withLastRequestTime (clock st2) st2)).
  pose proof (makeRequest_result item o st3) as Hres.
  pose proof (makeRequest_frame item o st3) as Hfr. cbv zeta in Hfr.
  destruct (makeRequest item o st3) as [res st4]. cbn [fst snd] in Hres, Hfr.
  change (timeout item) with (timeout it) in Hres. subst res.
  destruct Hfr as (Hq & Htr & Hinf & _).
  assert (Hq3 : queue st3 = queue st) by (cbn; apply H2).
  assert (Htr3 : trace st3 = Dispatched (handle it) (retries it) (clock st2) :: trace st).
  { cbn. f_equal. apply H2. }
  assert (Hinf3 : inflight st3 = None) by (cbn; apply H2).
  split; [|split; [apply H2|]].
  - destruct (requestResult (timeout it) o) as [e|r].
    + unfold handleRequestError. change (retries item) with (retries it).
      destruct ((retries it <? maxRetries)%Z && _); cbn; congruence.
    + response_bookkeeping; congruence.
  - destruct (requestResult (timeout it) o) as [e|r].
    + unfold handleRequestError. change (retries item) with (retries it).
      fold (retryable e).
      destruct ((retries it <? maxRetries)%Z && retryable e).
      * cbn. rewrite insertItem_insertSorted. split; [|congruence].
        rewrite Hq, Hq3. reflexivity.
      * cbn. split; congruence.
    + response_bookkeeping; split; congruence.
Qed.

Lemma insertSorted_perm (x : Item) (q : list Item) :
  Permutation (insertSorted x q) (x :: q).
Proof.
  induction q as [|y q IH]; cbn [insertSorted]; [reflexivity|].
  destruct (priority y <? priority x)%Z; [reflexivity|].
  rewrite IH. apply perm_swap.
Qed.

Lemma processQueue_begin_pool (st : State) :
  inflight st = None ->
  pool (processQueue_begin st) = queue st
  /\ trace (processQueue_begin st) = trace st.
Proof.
  intros H. unfold processQueue_begin, pool.
  destruct (queue st) as [|x q] eqn:E; cbn; rewrite ?H, ?E; split; reflexivity.
Qed.

Lemma processQueue_begin_consistent (st : State) :
  inflight st = None -> consistent (processQueue_begin st).
Proof.
  intros H. unfold processQueue_begin, consistent.
  destruct (queue st) as [|x q] eqn:E; cbn; [now rewrite E | discriminate].
Qed.

(** One turn of the worker, on the pool and on the trace. *)
Lemma workerCycle_spec (env : Env) (st : State) :
  consistent (workerCycle env st) /\
  match inflight st with
  | None =>
      pool (workerCycle env st) = queue st
      /\ trace (workerCycle env st) = trace st
  | Some it =>
      exists t, (clock st <= t)%Z /\
      match requestResult (timeout it) (env (handle it) (retries it)) with
      | inr r =>
          pool (workerCycle env st) = queue st
          /\ trace (workerCycle env st)
             = Resolved (handle it) r
               :: Dispatched (handle it) (retries it) t :: trace st
      | inl e =>
          if (retries it <? maxRetries)%Z && retryable e then
            pool (workerCycle env st) = insertSorted (bumped it t) (queue st)
            /\ trace (workerCycle env st)
               = Dispatched (handle it) (retries it) t :: trace st
          else
            pool (workerCycle env st) = queue st
            /\ trace (workerCycle env st)
               = Rejected (handle it) e
                 :: Dispatched (handle it) (retries it) t :: trace st
      end
  end.
Proof.
  unfold workerCycle.
  destruct (inflight st) as [it|] eqn:Hin.
  - destruct (processQueue_rest_spec env st it Hin) as (t & Hnone & Ht & Hres).
    set (st1 := processQueue_rest env st) in *.
    assert (Hn : inflight (sleep 100 st1) = None) by exact Hnone.
    destruct (processQueue_begin_pool _ Hn) as [Hp Htr].
    split; [now apply processQueue_begin_consistent|].
    exists t. split; [exact Ht|]. rewrite Hp, Htr.
    change (queue (sleep 100 st1)) with (queue st1).
    change (trace (sleep 100 st1)) with (trace st1). exact Hres.
  - assert (Hrest : processQueue_rest env st = st)
      by (unfold processQueue_rest; now rewrite Hin).
    rewrite Hrest.
    assert (Hn : inflight (sleep 100 st) = None) by exact Hin.
    split; [now apply processQueue_begin_consistent|].
    exact (processQueue_begin_pool _ Hn).
Qed.






Section Retry.

Variable env : Env.
Variable h : nat.
Variable T : Z.
Variable m : Z.
Variable ev : Event.

Hypothesis Hm : (0 <= m <= 3)%Z.
Hypothesis Hfail :
  forall k, (0 <= k < m)%Z ->
            exists e, requestResult T (env h k) = inl e /\ retryable e = true.
Hypothesis Hfinal :
  (exists r, requestResult T (env h m) = inr r /\ ev = Resolved h r)
  \/ (exists e, requestResult T (env h m) = inl e
                /\ (m <? maxRetries)%Z && retryable e = false
                /\ ev = Rejected h e).





End Retry.

Lemma enqueue_unfold (u : string) (options : RequestOptions) (now : Z) (st : State) :
  exists st0,
    enqueue u options now st
    = (if negb (isProcessing st) then processQueue_begin st0 else st0)
    /\ queue st0 = insertSorted (newItem u options st) (queue st)
    /\ inflight st0 = inflight st
    /\ trace st0 = trace st
    /\ nextHandle st0 = S (nextHandle st)
    /\ isProcessing st0 = isProcessing st
    /\ rateLimitBackoff st0 = rateLimitBackoff st.
Proof.
  unfold enqueue. rewrite insertItem_insertSorted.
  eexists. split; [reflexivity|]. repeat split.
Qed.

(** [enqueue] on the pool: the new item goes to its place among the items
    that wait, or straight into flight when the worker is idle. *)
Lemma enqueue_spec (u : string) (options : RequestOptions) (now : Z) (st : State) :
  consistent st -> busy st ->
  let st' := enqueue u options now st in
  trace st' = trace st
  /\ nextHandle st' = S (nextHandle st)
  /\ consistent st' /\ busy st'
  /\ match inflight st with
     | Some it =>
         inflight st' = Some it
         /\ queue st' = insertSorted (newItem u options st) (queue st)
     | None =>
         inflight st' = Some (newItem u options st) /\ queue st' = []
     end.
Proof.
  intros Hc Hb.
  destruct (enqueue_unfold u options now st)
    as (st0 & -> & Hq & Hin & Htr & Hnh & Hp & _).
  unfold busy in Hb. destruct (inflight st) as [it|] eqn:E; rewrite Hb; cbn [negb].
  - repeat split; try assumption.
    + unfold consistent. rewrite Hin. discriminate.
    + unfold busy. now rewrite Hp, Hin.
  - rewrite (Hc E) in Hq. cbn [insertSorted] in Hq.
    unfold processQueue_begin. rewrite Hq. cbn.
    repeat split; assumption.
Qed.

Lemma workerCycle_frame (env : Env) (st : State) :
  nextHandle (workerCycle env st) = nextHandle st /\ busy (workerCycle env st).
Proof.
  unfold workerCycle.
  assert (H : forall s, nextHandle (processQueue_begin s) = nextHandle s
                        /\ (inflight s = None -> busy (processQueue_begin s))).
  { intros s. unfold processQueue_begin, busy.
    destruct (queue s); cbn; split; try reflexivity; intros ->; reflexivity. }
  destruct (H (sleep 100 (processQueue_rest env st))) as [Hn Hb].
  split.
  - rewrite Hn. cbn [sleep nextHandle withClock].
    unfold processQueue_rest. destruct (inflight st) as [it|]; [|reflexivity].
    match goal with |- context [makeRequest ?i ?o ?s] =>
      assert (Hm : nextHandle (snd (makeRequest i o s)) = nextHandle st);
      [|destruct (makeRequest i o s) as [[e|r] s'] ] end.
    + unfold makeRequest.
      destruct (_ <=? _)%Z; [|destruct (outcome _);
        [|destruct (_ =? 429)%Z; [|destruct (negb _)]]];
      cbn;
      repeat match goal with
             | |- context [if ?c then _ else _] => destruct c
             | |- context [match rateLimitBackoff ?s with _ => _ end] =>
                 destruct (rateLimitBackoff s)
             end; reflexivity.
    + cbn [snd] in Hm. unfold handleRequestError.
      destruct (_ && _); cbn; exact Hm.
    + cbn [snd] in Hm. response_bookkeeping; exact Hm.
  - apply Hb. destruct (inflight st) as [it|] eqn:E.
    + destruct (processQueue_rest_spec env st it E) as (t & Hnone & _). exact Hnone.
    + unfold processQueue_rest. now rewrite E.
Qed.

Lemma wellFormed_busy_reachable (st : State) :
  reachable st -> wellFormed st /\ busy st.
Proof.
  induction 1 as [|u options now st Hr [Hwf Hb]|env st Hr [Hwf Hb]].
  - split; [|reflexivity]. repeat split; cbn; try constructor; try discriminate;
      intros ? [].
  - destruct Hwf as (Hc & Hnd & Hpool & Htrace).
    destruct (enqueue_spec u options now st Hc Hb) as (Htr & Hnh & Hc' & Hb' & Hcase).
    split; [|exact Hb']. split; [exact Hc'|].
    assert (Hperm : Permutation (pool (enqueue u options now st))
                                (newItem u options st :: pool st)).
    { unfold pool. destruct (inflight st) as [it|] eqn:E;
        destruct Hcase as [-> ->].
      - rewrite perm_swap. apply perm_skip. apply insertSorted_perm.
      - rewrite (Hc E). reflexivity. }
    repeat split.
    + eapply Permutation_NoDup; [symmetry; apply Permutation_map; exact Hperm|].
      cbn [map]. apply NoDup_cons; [|exact Hnd].
      intros Hin. apply in_map_iff in Hin. destruct Hin as (it & Hh & Hin).
      specialize (Hpool it Hin). cbn in Hh. lia.
    + intros it Hin. rewrite Hnh. eapply Permutation_in in Hin; [|exact Hperm].
      destruct Hin as [<-|Hin]; [cbn; lia|]. specialize (Hpool it Hin). lia.
    + intros e He. rewrite Htr in He. rewrite Hnh. specialize (Htrace e He). lia.
  - destruct Hwf as (Hc & Hnd & Hpool & Htrace).
    destruct (workerCycle_frame env st) as [Hnh Hb'].
    destruct (workerCycle_spec env st) as [Hc' Hspec].
    split; [|exact Hb']. split; [exact Hc'|]. rewrite Hnh.
    destruct (inflight st) as [it|] eqn:E.
    + assert (Hp : pool st = it :: queue st) by (unfold pool; now rewrite E).
      rewrite Hp in Hnd, Hpool. cbn [map] in Hnd.
      pose proof (Hpool it (or_introl eq_refl)) as Hit.
      destruct Hspec as (t & _ & Hspec).
      assert (Hbump : Permutation (insertSorted (bumped it t) (queue st))
                                  (bumped it t :: queue st))
        by apply insertSorted_perm.
      destruct (requestResult _ _) as [e|r];
        [destruct (_ && _)|]; destruct Hspec as [-> ->]; repeat split.
      * eapply Permutation_NoDup;
          [symmetry; apply Permutation_map; exact Hbump | exact Hnd].
      * intros x Hx. eapply Permutation_in in Hx; [|exact Hbump].
        destruct Hx as [<-|Hx]; [exact Hit | apply Hpool; now right].
      * intros x [<-|Hx]; [exact Hit | now apply Htrace].
      * now apply NoDup_cons_iff in Hnd.
      * intros x Hx. apply Hpool. now right.
      * intros x [<-|[<-|Hx]]; [exact Hit | exact Hit | now apply Htrace].
      * now apply NoDup_cons_iff in Hnd.
      * intros x Hx. apply Hpool. now right.
      * intros x [<-|[<-|Hx]]; [exact Hit | exact Hit | now apply Htrace].
    + destruct Hspec as [-> ->]. unfold pool in Hnd, Hpool. rewrite E in Hnd, Hpool.
      repeat split; assumption.
Qed.


Lemma no_event_of_handle (h : nat) (st : State) :
  (forall e, In e (trace st) -> (eventHandle e < h)%nat) ->
  settlements h st = [] /\ attempts h st = 0%nat.
Proof.
  unfold settlements, attempts. induction (trace st) as [|e l IH]; intros H.
  - split; reflexivity.
  - destruct IH as [IH1 IH2]; [intros e' He'; apply H; now right|].
    pose proof (H e (or_introl eq_refl)) as He.
    assert (Hneq : forall h', (h' < h)%nat -> Nat.eqb h h' = false)
      by (intros h' Hlt; apply Nat.eqb_neq; lia).
    cbn [filter]. destruct e as [h' a t|h' r|h' err]; cbn in He;
      rewrite ?(Hneq h' He); split; assumption.
Qed.
























End QueueProofs.

(** ** The connections service *)

Section ServiceProofs.

Import JSON JsonFacts CacheFacts ConnectionsService ServiceFacts.

(** What one turn of the loop does, by the outcome of the fetch. *)
Lemma batchStep_spec (api : Api) (all : list json) (start cf : Z) (w : World) :
  (0 <= cf < 3)%Z ->
  let r := batchStep api all start cf w in
  match fetchConnections api (calls w) start batchSize with
  | inl error =>
      batches (snd r) = false :: batches w
      /\ calls (snd r) = S (calls w)
      /\ if (cf + 1 <? 3)%Z
         then fst r = Continue all start (cf + 1)
              /\ sleeps (snd r) = (2000 * (cf + 1))%Z :: sleeps w
         else fst r = Throw (Js.newError
                "Failed to fetch connections after 3 consecutive failures")
  | inr connections =>
      batches (snd r) = true :: batches w
      /\ calls (snd r) = S (calls w)
      /\ (fst r = Break all /\ connections = []
          \/ fst r = Break (all ++ connections)
             /\ connections <> [] /\ (1000 <= List.length (all ++ connections))%nat
          \/ fst r = Continue (all ++ connections) (start + batchSize) 0
             /\ connections <> [] /\ (List.length (all ++ connections) < 1000)%nat)
  end.
Proof.
  intros Hcf. cbv zeta. unfold batchStep.
  assert (Hlt : (cf <? maxConsecutiveFailures)%Z = true)
    by (apply Z.ltb_lt; unfold maxConsecutiveFailures; lia).
  rewrite Hlt. cbn [negb].
  destruct (fetchConnections api (calls w) start batchSize) as [error|connections].
  - destruct (ErrorHandler.handleNetworkError _ _ _ _) as [err eh].
    unfold maxConsecutiveFailures.
    destruct (Z.ltb_spec (cf + 1) 3) as [H|H];
      destruct (Z.leb_spec 3 (cf + 1)) as [H'|H']; try lia; cbn; auto.
  - destruct connections as [|c cs]; cbn [List.length Nat.eqb].
    + cbn. auto.
    + destruct (Nat.leb_spec 1000 (List.length (all ++ c :: cs))) as [H|H];
        cbn; repeat split; auto.
      * right. left. repeat split; [discriminate | exact H].
      * right. right. repeat split; [discriminate | exact H].
Qed.




Lemma lookup_setField_other (k k' : string) (v : json) (fields : list (string * json)) :
  k' <> k -> lookup k' (setField k v fields) = lookup k' fields.
Proof.
  intros Hne. induction fields as [|[k0 v0] fields IH]; cbn [setField lookup].
  - destruct (String.eqb_spec k' k); [contradiction | reflexivity].
  - destruct (String.eqb_spec k k0) as [->|H0]; cbn [lookup].
    + destruct (String.eqb_spec k' k0); [contradiction | reflexivity].
    + destruct (String.eqb k' k0); [reflexivity | exact IH].
Qed.

Lemma storage_get_removed (k : string) (ks : list string) (st : Store) :
  existsb (String.eqb k) ks = true -> Storage.get k (Storage.remove ks st) = None.
Proof.
  intros Hk. unfold Storage.remove.
  induction st as [|[k' e'] st IH]; cbn [filter fst]; [reflexivity|].
  destruct (existsb (String.eqb k') ks) eqn:E; cbn [negb]; [exact IH|].
  cbn [Storage.get]. destruct (String.eqb_spec k k') as [->|_]; [|exact IH].
  rewrite Hk in E. discriminate E.
Qed.

Lemma remove_subStore (ks : list string) (st : Store) :
  subStore (Storage.remove ks st) st.
Proof.
  intros k e. destruct (existsb (String.eqb k) ks) eqn:Hk.
  - now rewrite storage_get_removed.
  - unfold Storage.remove.
    induction st as [|[k' e'] st IH]; cbn [filter fst]; [auto|].
    cbn [Storage.get].
    destruct (String.eqb_spec k k') as [->|Hne].
    + rewrite Hk. cbn [negb Storage.get]. now rewrite String.eqb_refl.
    + destruct (negb _); cbn [Storage.get].
      * destruct (String.eqb_spec k k'); [contradiction | exact IH].
      * exact IH.
Qed.

(** A hit of [get] returns the data of the entry found under the key, and
    [get] never adds to the store. *)
Lemma get_hit (P : Platform) (key : string) (now : Z) (st st' : Store) (v : json) :
  CacheManager.get P key now st = (Some v, st') ->
  exists e, Storage.get key st = Some e /\ data e = v.
Proof.
  intros H. destruct (Storage.get key st) as [e|] eqn:E.
  - destruct (ttl e <? now - timestamp e)%Z eqn:Hexp.
    + unfold CacheManager.get in H. rewrite E, Hexp in H. discriminate H.
    + rewrite (get_compressed P key now st e E Hexp) in H.
      injection H as Hv _. eauto.
  - unfold CacheManager.get in H. rewrite E in H. discriminate H.
Qed.

Lemma get_subStore (P : Platform) (key : string) (now : Z) (st : Store) :
  subStore (snd (CacheManager.get P key now st)) st.
Proof.
  unfold CacheManager.get. destruct (Storage.get key st) as [e|]; [|intros k e; auto].
  destruct (ttl e <? now - timestamp e)%Z; [apply remove_subStore|].
  destruct (compressed e); [|intros k e'; auto].
  destruct (parse _) as [[]|]; intros k e'; auto.
Qed.

(** What the callback of [map] does to one connection. *)
Lemma enhanceConnection_spec (P : Platform) (c c' : json) (w w' : World) :
  enhanceConnection P c w = (inr c', w') ->
  subStore (store w') (store w)
  /\ (c' = c
      \/ exists fields company logo e,
           c = Obj fields
           /\ lookup "currentCompany" fields = Some company
           /\ truthy company = true
           /\ Storage.get (COMPANY_CACHE_PREFIX ++ toString company) (store w) = Some e
           /\ data e = logo /\ truthy logo = true
           /\ c' = Obj (setField "companyLogo" logo fields)).
Proof.
  unfold enhanceConnection.
  assert (Hrefl : subStore (store w) (store w)) by (intros k e; auto).
  destruct c as [| | | | |fields]; try (intros [= <- <-]; auto).
  destruct (lookup "currentCompany" fields) as [company|] eqn:Hc;
    [|intros [= <- <-]; auto].
  destruct (truthy company) eqn:Ht; [|intros [= <- <-]; auto].
  pose proof (get_subStore P (COMPANY_CACHE_PREFIX ++ toString company) (now w) (store w))
    as Hsub.
  destruct (CacheManager.get P _ (now w) (store w)) as [cached st] eqn:Hget.
  cbn [snd] in Hsub.
  destruct cached as [logo|]; [|intros [= <- <-]; auto].
  destruct (truthy logo) eqn:Hl; intros [= <- <-]; (split; [exact Hsub|]); auto.
  right. destruct (get_hit P _ _ _ _ _ Hget) as (e & He & Hd).
  exists fields, company, logo, e. auto 10.
Qed.

Lemma enhanceAll_spec (P : Platform) (connections : list json) :
  forall w enhanced w',
    enhanceAll P connections w = (inr enhanced, w') ->
    subStore (store w') (store w)
    /\ Forall2 (fun c c' =>
         c' = c
         \/ exists fields company logo e,
              c = Obj fields
              /\ lookup "currentCompany" fields = Some company
              /\ truthy company = true
              /\ Storage.get (COMPANY_CACHE_PREFIX ++ toString company) (store w) = Some e
              /\ data e = logo /\ truthy logo = true
              /\ c' = Obj (setField "companyLogo" logo fields))
         connections enhanced.
Proof.
  induction connections as [|c rest IH]; intros w enhanced w'; cbn [enhanceAll].
  - intros [= <- <-]. split; [intros k e; auto | constructor].
  - destruct (enhanceConnection P c w) as [[err|c'] w1] eqn:Hc; [discriminate|].
    destruct (enhanceAll P rest w1) as [[err|rest'] w2] eqn:Hr; [discriminate|].
    intros [= <- <-].
    destruct (enhanceConnection_spec P c c' w w1 Hc) as [Hs1 H1].
    destruct (IH w1 rest' w2 Hr) as [Hs2 H2].
    split; [intros k e He; auto|].
    constructor; [exact H1|].
    eapply Forall2_impl; [|exact H2].
    intros a b [->|(fields & company & logo & e & ? & ? & ? & He & ?)]; [now left|].
    right. exists fields, company, logo, e. repeat split; try tauto. apply Hs1. tauto.
Qed.

(** C10. When [getConnectionsWithLogos] returns, the list has the length
    and the order of the list that [getAllConnections] returned; each
    connection is either returned as it is, or returned with [companyLogo]
    set, all its other fields being the same, and then the store holds an
    entry for the logo of its company whose data is that logo. *)
Theorem logos_preserve_connections (P : Platform) (api : Api) (w w' : World)
    (result : json) :
  getConnectionsWithLogos P api w = (inr result, w') ->
  exists connections enhanced,
    fst (getAllConnections P api false w) = inr (Arr connections)
    /\ result = Arr enhanced
    /\ List.length enhanced = List.length connections
    /\ forall i c c',
         nth_error connections i = Some c ->
         nth_error enhanced i = Some c' ->
         (forall k, k <> "companyLogo" -> field k c' = field k c)
         /\ (c' = c
             \/ exists company logo e,
                  field "currentCompany" c = Some company
                  /\ truthy company = true
                  /\ Storage.get (COMPANY_CACHE_PREFIX ++ toString company)
                       (store (snd (getAllConnections P api false w))) = Some e
                  /\ data e = logo /\ truthy logo = true
                  /\ field "companyLogo" c' = Some logo).
Proof.
  unfold getConnectionsWithLogos.
  destruct (getAllConnections P api false w) as [[err|v] w1]; [discriminate|].
  destruct v as [| | | |connections|]; try discriminate.
  destruct (enhanceAll P connections w1) as [[err|enhanced] w2] eqn:He; [discriminate|].
  intros [= <- <-]. destruct (enhanceAll_spec P connections w1 enhanced w2 He) as [_ H2].
  exists connections, enhanced. cbn [fst snd].
  split; [reflexivity|]. split; [reflexivity|].
  split; [symmetry; eapply Forall2_length; exact H2|].
  intros i c c' Hc Hc'.
  assert (Hrel : c' = c
                 \/ exists fields company logo e,
                      c = Obj fields
                      /\ lookup "currentCompany" fields = Some company
                      /\ truthy company = true
                      /\ Storage.get (COMPANY_CACHE_PREFIX ++ toString company) (store w1)
                         = Some e
                      /\ data e = logo /\ truthy logo = true
                      /\ c' = Obj (setField "companyLogo" logo fields)).
  { clear He. revert i Hc Hc'. induction H2 as [|a b l l' Hab Hl IH]; intros i Hc Hc'.
    - destruct i; discriminate.
    - destruct i as [|i]; cbn [nth_error] in Hc, Hc'.
      + injection Hc as <-. injection Hc' as <-. exact Hab.
      + now apply (IH i). }
  destruct Hrel as [->|(fields & company & logo & e & -> & Hco & Ht & Hget & Hd & Hl & ->)].
  - split; [reflexivity | now left].
  - split.
    + intros k Hk. cbn [field]. now apply lookup_setField_other.
    + right. exists company, logo, e. repeat split; try assumption.
      cbn [field]. clear. induction fields as [|[k0 v0] fields IH]; cbn [setField lookup].
      * reflexivity.
      * destruct (String.eqb_spec "companyLogo" k0) as [<-|Hne]; cbn [lookup].
        -- reflexivity.
        -- destruct (String.eqb_spec "companyLogo" k0); [contradiction | exact IH].
Qed.

Lemma logos_preserve_connections_witness :
  exists connections enhanced,
    fst (getAllConnections examplePlatform unauthorizedOnce false (initial logoStore 0))
    = inr (Arr connections)
    /\ fst (getConnectionsWithLogos examplePlatform unauthorizedOnce (initial logoStore 0))
       = inr (Arr enhanced)
    /\ List.length enhanced = List.length connections.
Proof.
  destruct (logos_preserve_connections examplePlatform unauthorizedOnce
              (initial logoStore 0)
              (snd (getConnectionsWithLogos examplePlatform unauthorizedOnce
                      (initial logoStore 0)))
              (Arr (map withLogo [connection "1"; connection "2"; connection "3"])))
    as (connections & enhanced & H1 & H2 & H3 & _).
  - vm_compute. reflexivity.
  - exists connections, enhanced. split; [exact H1|]. split; [|exact H3].
    rewrite <- H2. vm_compute. reflexivity.
Defined.

Lemma batchLoop_S (fuel : nat) (api : Api) (all : list json) (start cf : Z) (w : World) :
  batchLoop (S fuel) api all start cf w
  = match batchStep api all start cf w with
    | (Continue all' start' failures', w') => batchLoop fuel api all' start' failures' w'
    | (Break all', w') => (Completed all', w')
    | (Throw e, w') => (Threw e, w')
    end.
Proof. reflexivity. Qed.

Lemma networkErrorType_kinds (e : Js.Error) :
  ErrorHandler.networkErrorType e = ErrorHandler.NETWORK
  \/ ErrorHandler.networkErrorType e = ErrorHandler.TIMEOUT
  \/ ErrorHandler.networkErrorType e = ErrorHandler.RATE_LIMIT.
Proof.
  unfold ErrorHandler.networkErrorType.
  destruct (_ || _); [auto|]. destruct (_ || _); auto.
Qed.

Lemma handleNetworkError_recoverable (e : Js.Error) (ctx : option ErrorHandler.Context)
    (now : Z) (st : ErrorHandler.State) :
  ErrorHandler.recoverable (fst (ErrorHandler.handleNetworkError e ctx now st)) = true
  /\ ErrorHandler.type (fst (ErrorHandler.handleNetworkError e ctx now st))
     = ErrorHandler.networkErrorType e.
Proof.
  cbn. destruct (networkErrorType_kinds e) as [->|[->| ->]]; split; reflexivity.
Qed.

Lemma batchStep_store (api : Api) (a : list json) (s c : Z) (w0 : World) :
  store (snd (batchStep api a s c w0)) = store w0.
Proof.
  unfold batchStep. destruct (negb _); [reflexivity|].
  destruct (fetchConnections api (calls w0) s batchSize) as [err|conns].
  - destruct (ErrorHandler.handleNetworkError _ _ _ _).
    destruct (_ <=? _)%Z; reflexivity.
  - destruct (_ =? _)%nat; [reflexivity|]. destruct (_ <=? _)%nat; reflexivity.
Qed.

Lemma batchStep_throw_sleeps (api : Api) (a : list json) (s c : Z) (w0 : World)
    (e : Js.Error) :
  fst (batchStep api a s c w0) = Throw e ->
  sleeps (snd (batchStep api a s c w0)) = sleeps w0.
Proof.
  unfold batchStep. destruct (negb _); [discriminate|].
  destruct (fetchConnections api (calls w0) s batchSize) as [err|conns].
  - destruct (ErrorHandler.handleNetworkError _ _ _ _).
    destruct (_ <=? _)%Z; [reflexivity | discriminate].
  - destruct (_ =? _)%nat; [discriminate|]. destruct (_ <=? _)%nat; discriminate.
Qed.

(** Three failed batches in a row, from the start of the loop. *)
Lemma batchLoop_three_failures (api : Api) (w : World) (e0 e1 e2 : Js.Error) (fuel : nat) :
  fetchConnections api (calls w) 0 batchSize = inl e0 ->
  fetchConnections api (S (calls w)) 0 batchSize = inl e1 ->
  fetchConnections api (S (S (calls w))) 0 batchSize = inl e2 ->
  let r := batchLoop (S (S (S fuel))) api [] 0 0 w in
  fst r = Threw (Js.newError "Failed to fetch connections after 3 consecutive failures")
  /\ calls (snd r) = S (S (S (calls w)))
  /\ sleeps (snd r) = 4000%Z :: 2000%Z :: sleeps w
  /\ store (snd r) = store w.
Proof.
  intros H0 H1 H2. cbv zeta.
  pose proof (batchStep_store api) as Hstore.
  rewrite batchLoop_S.
  pose proof (batchStep_spec api [] 0 0 w ltac:(lia)) as S1. cbv zeta in S1.
  pose proof (Hstore [] 0%Z 0%Z w) as T1.
  rewrite H0 in S1. destruct (batchStep api [] 0 0 w) as [r1 w1].
  cbn in S1, T1. destruct S1 as (_ & C1 & -> & L1). cbv beta iota.
  rewrite batchLoop_S.
  pose proof (batchStep_spec api [] 0 1 w1 ltac:(lia)) as S2. cbv zeta in S2.
  pose proof (Hstore [] 0%Z 1%Z w1) as T2.
  rewrite C1, H1 in S2. destruct (batchStep api [] 0 1 w1) as [r2 w2].
  cbn in S2, T2. destruct S2 as (_ & C2 & -> & L2). cbv beta iota.
  rewrite batchLoop_S.
  pose proof (batchStep_spec api [] 0 2 w2 ltac:(lia)) as S3. cbv zeta in S3.
  pose proof (Hstore [] 0%Z 2%Z w2) as T3.
  pose proof (batchStep_throw_sleeps api [] 0%Z 2%Z w2) as L3.
  rewrite C2, H2 in S3. destruct (batchStep api [] 0 2 w2) as [r3 w3].
  cbn in S3, T3, L3. destruct S3 as (_ & C3 & ->). cbv beta iota.
  cbn [fst snd]. repeat split.
  - exact C3.
  - rewrite (L3 _ eq_refl), L2, L1. reflexivity.
  - now rewrite T3, T2, T1.
Qed.

(** C7, as the code has it. A failure of the first batch is classified by
    [handleNetworkError], which only knows the recoverable kinds NETWORK,
    TIMEOUT and RATE_LIMIT; the service sleeps 2000 ms and fetches the batch
    again. Only the third failure in a row makes [getAllConnections] throw,
    and what it throws is the NETWORK error that reports three consecutive
    failures. *)
Theorem first_batch_failure_is_retried (P : Platform) (api : Api) (w : World)
    (e0 : Js.Error) :
  fetchConnections api (calls w) 0 batchSize = inl e0 ->
  (forall e ctx t st,
      ErrorHandler.recoverable (fst (ErrorHandler.handleNetworkError e ctx t st)) = true
      /\ ErrorHandler.type (fst (ErrorHandler.handleNetworkError e ctx t st))
         <> ErrorHandler.AUTHENTICATION)
  /\ fst (batchStep api [] 0 0 w) = Continue [] 0 1
  /\ sleeps (snd (batchStep api [] 0 0 w)) = 2000%Z :: sleeps w
  /\ (forall e1 e2,
        fst (CacheManager.get P CONNECTIONS_CACHE_KEY (now w) (store w)) = None ->
        fetchConnections api (S (calls w)) 0 batchSize = inl e1 ->
        fetchConnections api (S (S (calls w))) 0 batchSize = inl e2 ->
        let r := getAllConnections P api false w in
        exists err,
          fst r = inl err
          /\ ErrorHandler.type err = ErrorHandler.NETWORK
          /\ ErrorHandler.message err
             = "Failed to fetch connections after 3 consecutive failures"
          /\ ErrorHandler.recoverable err = true
          /\ calls (snd r) = (3 + calls w)%nat
          /\ sleeps (snd r) = 4000%Z :: 2000%Z :: sleeps w).
Proof.
  intros H0. split; [|split; [|split]].
  - intros e ctx t st.
    destruct (handleNetworkError_recoverable e ctx t st) as [Hr Ht].
    split; [exact Hr|]. rewrite Ht.
    destruct (networkErrorType_kinds e) as [->|[->| ->]]; discriminate.
  - pose proof (batchStep_spec api [] 0 0 w ltac:(lia)) as S1. cbv zeta in S1.
    rewrite H0 in S1. apply S1.
  - pose proof (batchStep_spec api [] 0 0 w ltac:(lia)) as S1. cbv zeta in S1.
    rewrite H0 in S1. apply S1.
  - intros e1 e2 Hmiss H1 H2. cbv zeta.
    unfold getAllConnections. cbn [negb].
    destruct (CacheManager.get P CONNECTIONS_CACHE_KEY (now w) (store w))
      as [cached st]. cbn [fst] in Hmiss. subst cached.
    unfold fetchFresh.
    change loopFuel with (S (S (S 3000))).
    pose proof (batchLoop_three_failures api (withStore st w) e0 e1 e2 3000 H0 H1 H2)
      as H.
    cbv zeta in H.
    destruct (batchLoop (S (S (S 3000))) api [] 0 0 (withStore st w)) as [res w3].
    cbn [fst snd] in H. destruct H as (-> & Hc & Hs & _).
    unfold throwHandled.
    eexists. cbn [fst snd ErrorHandler.handleNetworkError ErrorHandler.createError].
    split; [reflexivity|]. cbn. repeat split; assumption.
Qed.

Lemma first_batch_failure_is_retried_witness :
  fst (batchStep unauthorizedOnce [] 0 0 (initial [] 0)) = Continue [] 0 1.
Proof.
  refine (proj1 (proj2 (first_batch_failure_is_retried examplePlatform
                          unauthorizedOnce (initial [] 0) unauthorized _))).
  reflexivity.
Defined.

(** C7 fails as stated. The first batch is refused with a 401: the service
    does not return that error; it fetches again and returns the
    connections, and the failure is logged as NETWORK. When every batch is
    refused, the service fetches three times and throws a NETWORK error. *)
Lemma auth_error_counterexample :
  (let r := getAllConnections examplePlatform unauthorizedOnce false (initial [] 0) in
   fst r = inr (Arr [connection "1"; connection "2"; connection "3"])
   /\ calls (snd r) = 4%nat
   /\ map ErrorHandler.type (ErrorHandler.errorLog (errors (snd r)))
      = [ErrorHandler.NETWORK])
  /\ (let r := getAllConnections examplePlatform unauthorizedAlways false (initial [] 0) in
      calls (snd r) = 3%nat
      /\ match fst r with
         | inl err => ErrorHandler.type err = ErrorHandler.NETWORK
                      /\ ErrorHandler.recoverable err = true
         | inr _ => False
         end).
Proof. vm_compute. repeat split. Qed.

End ServiceProofs.

(** ** The cache: the other operations *)

Section CacheMoreProofs.

Import JSON JsonFacts CacheManager CacheFacts.

(** *** Lookups in a filtered store *)

Lemma storage_get_in (k : string) (e : StoredEntry) (st : Store) :
  Storage.get k st = Some e -> In (k, e) st.
Proof.
  induction st as [|[k' e'] st IH]; cbn [Storage.get]; [discriminate|].
  destruct (String.eqb_spec k k') as [->|_].
  - intros [= ->]. now left.
  - intros H. right. now apply IH.
Qed.

Lemma storage_get_none (k : string) (st : Store) :
  ~ In k (map fst st) -> Storage.get k st = None.
Proof.
  induction st as [|[k' e'] st IH]; cbn [Storage.get map fst In]; [reflexivity|].
  intros H. destruct (String.eqb_spec k k') as [->|_]; [tauto|].
  apply IH. tauto.
Qed.

Lemma uniqueKeys_filter (p : string * StoredEntry -> bool) (st : Store) :
  uniqueKeys st -> uniqueKeys (filter p st).
Proof.
  unfold uniqueKeys. induction st as [|kv st IH]; cbn [filter map]; [auto|].
  intros H. inversion H as [|? ? Hnin Hnd]; subst.
  destruct (p kv); cbn [map]; [|auto].
  constructor; [|auto]. intros Hin. apply Hnin.
  apply in_map_iff in Hin. destruct Hin as (x & Hx & Hin).
  apply filter_In in Hin. apply in_map_iff. exists x. tauto.
Qed.

(** In an object, a filter on the entries is a filter on the lookups. *)
Lemma storage_get_filter (p : string * StoredEntry -> bool) (k : string) (st : Store) :
  uniqueKeys st ->
  Storage.get k (filter p st)
  = match Storage.get k st with
    | Some e => if p (k, e) then Some e else None
    | None => None
    end.
Proof.
  unfold uniqueKeys. induction st as [|[k' e'] st IH]; cbn [filter map fst]; [reflexivity|].
  intros H. inversion H as [|? ? Hnin Hnd]; subst.
  cbn [Storage.get]. destruct (String.eqb_spec k k') as [->|Hne].
  - destruct (p (k', e')) eqn:Hp; cbn [Storage.get].
    + now rewrite String.eqb_refl.
    + apply storage_get_none. intros Hin. apply Hnin.
      apply in_map_iff in Hin. destruct Hin as (x & Hx & Hin).
      apply filter_In in Hin. apply in_map_iff. exists x. tauto.
  - destruct (p (k', e')); cbn [Storage.get].
    + destruct (String.eqb_spec k k'); [contradiction | now apply IH].
    + now apply IH.
Qed.





Lemma filter_twice {A : Type} (p q : A -> bool) (l : list A) :
  filter p (filter q l) = filter (fun x => q x && p x) l.
Proof.
  induction l as [|x l IH]; cbn [filter]; [reflexivity|].
  destruct (q x); cbn [filter andb]; [destruct (p x)|]; congruence.
Qed.





(** *** Expiry *)

Lemma remove_as_filter (p : string * StoredEntry -> bool) (st : Store) :
  uniqueKeys st ->
  Storage.remove (map fst (filter p st)) st = filter (fun kv => negb (p kv)) st.
Proof.
  intros Hu. unfold Storage.remove. apply filter_ext_in.
  intros [k e] Hin. f_equal.
  destruct (p (k, e)) eqn:Hp.
  - apply existsb_exists. exists k. split; [|apply String.eqb_refl].
    apply in_map_iff. exists (k, e). split; [reflexivity|].
    apply filter_In. split; assumption.
  - apply not_true_is_false. intros Hex. apply existsb_exists in Hex.
    destruct Hex as (k' & Hin' & Heq). cbn [fst] in Heq.
    apply String.eqb_eq in Heq. subst k'.
    apply in_map_iff in Hin'. destruct Hin' as ([k' e'] & Hk & Hin').
    cbn [fst] in Hk. subst k'. apply filter_In in Hin'. destruct Hin' as (Hin' & Hp').
    assert (e' = e); [|subst; congruence].
    clear - Hu Hin Hin'. unfold uniqueKeys in Hu.
    induction st as [|[k0 e0] st IH]; [destruct Hin|].
    cbn [map fst] in Hu. inversion Hu as [|? ? Hnin Hnd]; subst.
    destruct Hin as [Hin|Hin], Hin' as [Hin'|Hin'].
    + congruence.
    + injection Hin as -> ->. exfalso. apply Hnin.
      apply in_map_iff. exists (k, e'). auto.
    + injection Hin' as -> ->. exfalso. apply Hnin.
      apply in_map_iff. exists (k, e). auto.
    + auto.
Qed.

Lemma filter_none {A : Type} (p : A -> bool) (l : list A) :
  (forall x, In x l -> p x = false) -> filter p l = [].
Proof.
  induction l as [|x l IH]; intros H; cbn [filter]; [reflexivity|].
  rewrite (H x (or_introl eq_refl)). apply IH. intros y Hy. apply H. now right.
Qed.

Lemma filter_all {A : Type} (p : A -> bool) (l : list A) :
  (forall x, In x l -> p x = true) -> filter p l = l.
Proof.
  induction l as [|x l IH]; intros H; cbn [filter]; [reflexivity|].
  rewrite (H x (or_introl eq_refl)). f_equal. apply IH. intros y Hy. apply H. now right.
Qed.

Lemma filter_split_length {A : Type} (p : A -> bool) (l : list A) :
  List.length l
  = (List.length (filter p l) + List.length (filter (fun x => negb (p x)) l))%nat.
Proof.
  induction l as [|x l IH]; cbn [filter List.length]; [reflexivity|].
  destruct (p x); cbn [negb List.length]; lia.
Qed.

(** What [cleanupExpired] returns and leaves. *)
Lemma cache_cleanup_expired_aux (now : Z) (st : Store) :
  uniqueKeys st ->
  N.of_nat (List.length st)
  = (fst (cleanupExpired now st) + N.of_nat (List.length (snd (cleanupExpired now st))))%N
  /\ snd (cleanupExpired now st)
     = filter (fun kv => negb (isExpiredForCleanup now (snd kv))) st.
Proof.
  intros Hu.
  assert (Hst' : snd (cleanupExpired now st)
                 = filter (fun kv => negb (isExpiredForCleanup now (snd kv))) st).
  { unfold cleanupExpired. cbn [snd]. now apply remove_as_filter. }
  split; [|exact Hst'].
  rewrite Hst'. unfold cleanupExpired. cbn [fst]. rewrite length_map.
  rewrite (filter_split_length (fun kv => isExpiredForCleanup now (snd kv)) st). lia.
Qed.

(** X2. [cleanupExpired] returns the number of entries that it removes; it
    removes the entries with a timestamp, a time to live and an age above
    it, and no other; a second call finds nothing; what [get] returns
    before, it returns after. *)
Theorem cache_cleanup_expired (P : Platform) (now : Z) (st : Store) :
  uniqueKeys st ->
  let st' := snd (cleanupExpired now st) in
  N.of_nat (List.length st) = (fst (cleanupExpired now st) + N.of_nat (List.length st'))%N
  /\ (forall k,
        Storage.get k st'
        = match Storage.get k st with
          | Some e => if isExpiredForCleanup now e then None else Some e
          | None => None
          end)
  /\ cleanupExpired now st' = (0%N, st')
  /\ (forall k d, fst (get P k now st) = Some d -> fst (get P k now st') = Some d).
Proof.
  intros Hu st'.
  assert (Hst' : st' = filter (fun kv => negb (isExpiredForCleanup now (snd kv))) st).
  { subst st'. unfold cleanupExpired. cbn [snd]. now apply remove_as_filter. }
  assert (Hlookup : forall k,
             Storage.get k st'
             = match Storage.get k st with
               | Some e => if isExpiredForCleanup now e then None else Some e
               | None => None
               end).
  { intros k. rewrite Hst', storage_get_filter by assumption.
    destruct (Storage.get k st) as [e|]; [|reflexivity].
    cbn [snd]. now destruct (isExpiredForCleanup now e). }
  split; [|split; [|split]].
  - unfold cleanupExpired at 1. cbn [fst]. rewrite length_map, Hst'.
    rewrite (filter_split_length (fun kv => isExpiredForCleanup now (snd kv)) st). lia.
  - exact Hlookup.
  - unfold cleanupExpired.
    assert (Hnone : filter (fun kv => isExpiredForCleanup now (snd kv)) st' = []).
    { apply filter_none. intros x Hx. rewrite Hst' in Hx. apply filter_In in Hx.
      now apply negb_true_iff. }
    rewrite Hnone. cbn [map List.length]. f_equal.
    unfold Storage.remove. apply filter_all. reflexivity.
  - intros k d Hget. unfold get in *. rewrite Hlookup.
    destruct (Storage.get k st) as [e|]; [|discriminate].
    destruct (ttl e <? now - timestamp e)%Z eqn:Hexp; [discriminate|].
    unfold isExpiredForCleanup. rewrite Hexp, andb_false_r.
    rewrite Hexp. destruct (compressed e); [|exact Hget].
    rewrite decompressData_stored, parse_stringify in *. exact Hget.
Qed.

Lemma cache_cleanup_expired_witness :
  N.of_nat (List.length mixedStore)
  = (fst (cleanupExpired 2000 mixedStore)
     + N.of_nat (List.length (snd (cleanupExpired 2000 mixedStore))))%N.
Proof.
  refine (proj1 (cache_cleanup_expired examplePlatform 2000 mixedStore _)).
  unfold uniqueKeys. cbn. repeat constructor; cbn; intuition discriminate.
Defined.


(** *** The statistics *)

Lemma stats_fold_extremes (now : Z) (st : Store) :
  forall (acc : CacheStats) (seen : list Z),
    extremes (oldestEntry acc) (newestEntry acc) seen ->
    extremes (oldestEntry (fold_left (statsStep now) st acc))
             (newestEntry (fold_left (statsStep now) st acc))
             (seen ++ stamps st).
Proof.
  induction st as [|[k e] st IH]; intros acc seen Hacc; cbn [fold_left].
  - unfold stamps. cbn. now rewrite app_nil_r.
  - unfold stamps. cbn [map filter snd].
    destruct (Z.eqb_spec (timestamp e) 0) as [Hz|Hnz]; cbn [negb].
    + apply IH. unfold statsStep. cbn [snd oldestEntry newestEntry].
      destruct (Z.eqb_spec (timestamp e) 0) as [_|]; [|contradiction]. exact Hacc.
    + change (seen ++ timestamp e :: filter _ _)%list
        with (seen ++ [timestamp e] ++ stamps st)%list.
      rewrite app_assoc. apply IH.
      unfold statsStep. cbn [snd oldestEntry newestEntry].
      destruct (Z.eqb_spec (timestamp e) 0) as [|_]; [contradiction|]. cbn [negb andb].
      unfold extremes in *.
      destruct (oldestEntry acc) as [o|], (newestEntry acc) as [n|]; try contradiction.
      * destruct Hacc as (Ho & Hn & Hino & Hinn & Hall). cbn [falsy].
        destruct (Z.eqb_spec o 0) as [|_]; [contradiction|].
        destruct (Z.eqb_spec n 0) as [|_]; [contradiction|]. cbn [orb].
        assert (Hnew : In (timestamp e) (seen ++ [timestamp e]))
          by (apply in_or_app; right; now left).
        assert (Hold : forall x, In x seen -> In x (seen ++ [timestamp e]))
          by (intros x Hx; apply in_or_app; now left).
        assert (Hcases : forall x, In x (seen ++ [timestamp e]) ->
                                   In x seen \/ x = timestamp e).
        { intros x Hx. apply in_app_or in Hx. destruct Hx as [Hx|[<-|[]]]; auto. }
        pose proof (Hall o Hino) as Hon.
        destruct (Z.ltb_spec (timestamp e) o), (Z.ltb_spec n (timestamp e));
          (split; [assumption|]; split; [assumption|];
           split; [auto|]; split; [auto|];
           intros x Hx; destruct (Hcases x Hx) as [Hx'| ->];
           [specialize (Hall x Hx'); lia | lia]).
      * subst seen. cbn [falsy orb app].
        split; [assumption|]. split; [assumption|].
        split; [now left|]. split; [now left|].
        intros x [<-|[]]. lia.
Qed.

Lemma stats_fold_expired (now : Z) (st : Store) (acc : CacheStats) :
  expiredItems (fold_left (statsStep now) st acc)
  = (expiredItems acc + N.of_nat (List.length (countedExpired now st)))%N.
Proof.
  revert acc. induction st as [|kv st IH]; intros acc; cbn [fold_left].
  - cbn. lia.
  - rewrite IH. unfold countedExpired. cbn [filter statsStep expiredItems].
    destruct (negb (timestamp (snd kv) =? 0)%Z
              && (ttl (snd kv) <? now - timestamp (snd kv))%Z);
      cbn [List.length]; lia.
Qed.

Lemma cache_stats_extremes_aux (now : Z) (st : Store) :
  totalItems (getCacheStats now st) = N.of_nat (List.length st)
  /\ expiredItems (getCacheStats now st) = N.of_nat (List.length (countedExpired now st))
  /\ (expiredItems (getCacheStats now st) <= totalItems (getCacheStats now st))%N.
Proof.
  assert (Hexp : expiredItems (getCacheStats now st)
                 = N.of_nat (List.length (countedExpired now st))).
  { unfold getCacheStats. rewrite stats_fold_expired. cbn. lia. }
  split; [apply getCacheStats_totalItems|]. split; [exact Hexp|].
  rewrite Hexp, getCacheStats_totalItems.
  pose proof (filter_length_le
    (fun kv => negb (timestamp (snd kv) =? 0)%Z
               && (ttl (snd kv) <? now - timestamp (snd kv))%Z) st).
  unfold countedExpired. lia.
Qed.

(** X3. [getCacheStats] counts every entry; the oldest and the newest entry
    are the least and the greatest of the timestamps that are not 0, and
    both are null when there is none; the expired items are the entries with
    a timestamp whose age is above their time to live, never more than the
    entries. *)
Theorem cache_stats_extremes (now : Z) (st : Store) :
  let s := getCacheStats now st in
  totalItems s = N.of_nat (List.length st)
  /\ totalSize s = footprint st
  /\ expiredItems s = N.of_nat (List.length (countedExpired now st))
  /\ (expiredItems s <= totalItems s)%N
  /\ match oldestEntry s, newestEntry s with
     | Some o, Some n =>
         In o (stamps st) /\ In n (stamps st)
         /\ forall t, In t (stamps st) -> (o <= t <= n)%Z
     | None, None => stamps st = []
     | _, _ => False
     end.
Proof.
  intros s. subst s.
  assert (Hexp : expiredItems (getCacheStats now st)
                 = N.of_nat (List.length (countedExpired now st))).
  { unfold getCacheStats. rewrite stats_fold_expired. cbn. lia. }
  split; [apply getCacheStats_totalItems|].
  split; [apply totalSize_footprint|].
  split; [exact Hexp|]. split.
  - rewrite Hexp, getCacheStats_totalItems.
    pose proof (filter_length_le
      (fun kv => negb (timestamp (snd kv) =? 0)%Z
                 && (ttl (snd kv) <? now - timestamp (snd kv))%Z) st).
    unfold countedExpired. lia.
  - pose proof (stats_fold_extremes now st
      {| totalItems := N.of_nat (List.length st); totalSize := 0;
         oldestEntry := None; newestEntry := None; expiredItems := 0 |} [] eq_refl) as H.
    cbn [app] in H. unfold getCacheStats, extremes in *.
    destruct (oldestEntry _), (newestEntry _); tauto.
Qed.

Lemma cache_stats_extremes_witness :
  totalItems (getCacheStats 2000 mixedStore) = N.of_nat (List.length mixedStore).
Proof.
  exact (proj1 (cache_stats_extremes 2000 mixedStore)).
Defined.

(** *** Validation *)

Lemma validate_fold (st : Store) (v i : N) (ks : list string) :
  fold_left validateStep st (v, i, ks)
  = ((v + N.of_nat (List.length (filter (fun kv => negb (invalidEntry (snd kv))) st)))%N,
     (i + N.of_nat (List.length (filter (fun kv => invalidEntry (snd kv)) st)))%N,
     (ks ++ map fst (filter (fun kv => invalidEntry (snd kv)) st))%list).
Proof.
  revert v i ks. induction st as [|kv st IH]; intros v i ks; cbn [fold_left filter].
  - cbn. now rewrite !N.add_0_r, app_nil_r.
  - unfold validateStep at 2. destruct (invalidEntry (snd kv)); cbn [negb].
    + rewrite IH. cbn [map List.length]. rewrite <- app_assoc. cbn [app].
      f_equal. f_equal. lia.
    + rewrite IH. cbn [List.length]. f_equal. f_equal. lia.
Qed.

Lemma validateCache_unfold (st : Store) :
  validateCache st
  = ({| valid := N.of_nat (List.length (filter (fun kv => negb (invalidEntry (snd kv))) st));
        invalid := N.of_nat (List.length (filter (fun kv => invalidEntry (snd kv)) st));
        repaired := N.of_nat (List.length (filter (fun kv => invalidEntry (snd kv)) st)) |},
     Storage.remove (map fst (filter (fun kv => invalidEntry (snd kv)) st)) st).
Proof.
  unfold validateCache. rewrite validate_fold. cbn [app].
  now rewrite !N.add_0_l, length_map.
Qed.

(** X4. [validateCache] counts every entry as valid or invalid, repairs as
    many as it finds invalid, removes exactly the entries whose timestamp or
    time to live is 0, whatever they hold, and finds nothing invalid when it
    is called again. *)
Theorem cache_validate (st : Store) :
  uniqueKeys st ->
  let v := fst (validateCache st) in
  let st' := snd (validateCache st) in
  (valid v + invalid v = N.of_nat (List.length st))%N
  /\ repaired v = invalid v
  /\ st' = filter (fun kv => negb (invalidEntry (snd kv))) st
  /\ valid v = N.of_nat (List.length st')
  /\ validateCache st' = ({| valid := valid v; invalid := 0; repaired := 0 |}, st').
Proof.
  intros Hu v st'. subst v st'. rewrite validateCache_unfold. cbn [fst snd valid invalid repaired].
  rewrite remove_as_filter by assumption.
  split; [|split; [|split; [|split]]]; try reflexivity.
  - rewrite (filter_split_length (fun kv => invalidEntry (snd kv)) st). lia.
  - rewrite validateCache_unfold.
    set (st' := filter (fun kv => negb (invalidEntry (snd kv))) st).
    assert (Hnone : filter (fun kv => invalidEntry (snd kv)) st' = []).
    { apply filter_none. intros x Hx. apply filter_In in Hx.
      now apply negb_true_iff. }
    assert (Hall : filter (fun kv => negb (invalidEntry (snd kv))) st' = st').
    { apply filter_all. intros x Hx. now apply filter_In in Hx. }
    rewrite Hnone, Hall. cbn [map List.length]. f_equal.
    unfold Storage.remove. apply filter_all. reflexivity.
Qed.

Lemma cache_validate_witness :
  snd (validateCache mixedStore)
  = filter (fun kv => negb (invalidEntry (snd kv))) mixedStore.
Proof.
  refine (proj1 (proj2 (proj2 (cache_validate mixedStore _)))).
  unfold uniqueKeys. cbn. repeat constructor; cbn; intuition discriminate.
Defined.

(** *** The detailed statistics *)

Lemma stripPrefix_append (p s : string) : Js.stripPrefix p (p ++ s) = Some s.
Proof.
  induction p as [|c p IH]; cbn [Js.stripPrefix append]; [reflexivity|].
  now rewrite Ascii.eqb_refl.
Qed.

Lemma removeFirst_prefix (p s : string) : removeFirst p (p ++ s) = s.
Proof.
  destruct (p ++ s) as [|c r] eqn:E; cbn [removeFirst];
    rewrite <- E, stripPrefix_append; reflexivity.
Qed.

(** X5. [getDetailedStats] lists the entries in order under their key
    without the prefix; their sizes add up to the total size of the
    overview; the entries it flags as expired are the ones that
    [cleanupExpired] removes at that time. *)
Theorem cache_detailed_stats (nowStats now : Z) (st : Store) :
  let overview := fst (getDetailedStats nowStats now st) in
  let entries := snd (getDetailedStats nowStats now st) in
  map Detail.key entries = map fst st
  /\ fold_right N.add 0%N (map Detail.size entries) = totalSize overview
  /\ N.of_nat (List.length (filter Detail.expired entries)) = fst (cleanupExpired now st)
  /\ snd (cleanupExpired now st)
     = Storage.remove (map Detail.key (filter Detail.expired entries)) st.
Proof.
  cbn zeta. unfold getDetailedStats. cbn [fst snd].
  rewrite totalSize_footprint.
  assert (Hexp : forall l : Store,
    map Detail.key
      (filter Detail.expired
         (map (fun kv =>
                 {| Detail.key := removeFirst CACHE_PREFIX (CACHE_PREFIX ++ fst kv);
                    Detail.size := entrySize (snd kv);
                    Detail.age := now - timestamp (snd kv);
                    Detail.ttl := ttl (snd kv);
                    Detail.expired := isExpiredForCleanup now (snd kv);
                    Detail.compressed := compressed (snd kv) |}) l))
    = map fst (filter (fun kv => isExpiredForCleanup now (snd kv)) l)).
  { induction l as [|kv l IH]; cbn [map filter Detail.expired]; [reflexivity|].
    destruct (isExpiredForCleanup now (snd kv)); cbn [map Detail.key]; [|exact IH].
    now rewrite removeFirst_prefix, IH. }
  split; [|split; [|split]].
  - rewrite map_map. cbn [Detail.key]. apply map_ext. intros kv.
    apply removeFirst_prefix.
  - rewrite map_map. cbn [Detail.size]. unfold footprint.
    induction st as [|kv st IH]; cbn [map fold_right]; [reflexivity|]. now rewrite IH.
  - unfold cleanupExpired. cbn [fst]. rewrite <- Hexp. now rewrite length_map.
  - unfold cleanupExpired. cbn [snd]. now rewrite Hexp.
Qed.

Lemma cache_detailed_stats_witness :
  map Detail.key (snd (getDetailedStats 2000 2000 mixedStore)) = map fst mixedStore.
Proof.
  exact (proj1 (cache_detailed_stats 2000 2000 mixedStore)).
Defined.

(** *** Removal *)

Lemma storage_get_remove_other (k : string) (ks : list string) (st : Store) :
  existsb (String.eqb k) ks = false ->
  Storage.get k (Storage.remove ks st) = Storage.get k st.
Proof.
  intros Hk. unfold Storage.remove.
  induction st as [|[k' e'] st IH]; cbn [filter fst]; [reflexivity|].
  cbn [Storage.get]. destruct (String.eqb_spec k k') as [->|Hne].
  - rewrite Hk. cbn [negb Storage.get]. now rewrite String.eqb_refl.
  - destruct (negb _); cbn [Storage.get]; [|exact IH].
    destruct (String.eqb_spec k k'); [contradiction | exact IH].
Qed.

Lemma clear_empty (st : Store) : clear st = [].
Proof.
  unfold clear, Storage.remove. apply filter_none.
  intros [k e] Hin. apply negb_false_iff. apply existsb_exists.
  exists k. split; [|apply String.eqb_refl].
  apply in_map_iff. exists (k, e). auto.
Qed.

(** X6. After [remove(key)] a [get] of the key is a miss and every other key
    holds what it held; after [clear()] the cache holds nothing, every [get]
    is a miss and the statistics are those of the empty cache. *)
Theorem cache_remove_clear (P : Platform) (key : string) (now : Z) (st : Store) :
  get P key now (remove key st) = (None, remove key st)
  /\ (forall k, k <> key -> Storage.get k (remove key st) = Storage.get k st)
  /\ clear st = []
  /\ (forall k, get P k now (clear st) = (None, clear st))
  /\ getCacheStats now (clear st)
     = {| totalItems := 0; totalSize := 0; oldestEntry := None; newestEntry := None;
          expiredItems := 0 |}.
Proof.
  split; [|split; [|split; [|split]]].
  - unfold get, remove. rewrite storage_get_removed; [reflexivity|].
    cbn [existsb]. now rewrite String.eqb_refl.
  - intros k Hne. unfold remove. apply storage_get_remove_other.
    cbn [existsb]. destruct (String.eqb_spec k key); [contradiction | reflexivity].
  - apply clear_empty.
  - intros k. now rewrite clear_empty.
  - now rewrite clear_empty.
Qed.

Lemma cache_remove_clear_witness :
  Storage.get "live" (remove "old" mixedStore) = Storage.get "live" mixedStore.
Proof.
  refine (proj1 (proj2 (cache_remove_clear examplePlatform "old" 2000 mixedStore))
            "live" _).
  discriminate.
Defined.

End CacheMoreProofs.

(** ** The cache monitor *)

Section MonitorProofs.

Import JSON JsonFacts CacheManager CacheFacts Health CacheMonitor.

(** X7. After [performMaintenanceTasks] the cache holds the entries that have
    a timestamp and a time to live not below their age, and no other; the
    statistics it logs count no expired item; each entry left is a hit for
    [get] at that time; the entries gone are the ones counted as expired and
    as invalid. *)
Theorem monitor_maintenance (P : Platform) (now : Z) (st : Store) :
  uniqueKeys st ->
  let m := fst (performMaintenanceTasks now st) in
  let st' := snd (performMaintenanceTasks now st) in
  st' = filter (fun kv => negb (invalidEntry (snd kv))
                          && negb (expiredForGet now (snd kv))) st
  /\ N.of_nat (List.length st)
     = (expiredCount m + invalid (validation m) + N.of_nat (List.length st'))%N
  /\ expiredItems (stats m) = 0%N
  /\ totalItems (stats m) = N.of_nat (List.length st')
  /\ (forall k e, Storage.get k st' = Some e -> get P k now st' = (Some (data e), st')).
Proof.
  intros Hu m st'.
  pose proof (cache_cleanup_expired_aux now st Hu) as (Hc1 & Hc2).
  set (st1 := snd (cleanupExpired now st)) in *.
  assert (Hu1 : uniqueKeys st1) by (rewrite Hc2; now apply uniqueKeys_filter).
  assert (Hm : performMaintenanceTasks now st
               = ({| expiredCount := fst (cleanupExpired now st);
                     validation := fst (validateCache st1);
                     stats := getCacheStats now (snd (validateCache st1)) |},
                  snd (validateCache st1))).
  { unfold performMaintenanceTasks. fold st1.
    destruct (cleanupExpired now st) as [n s1] eqn:E. cbn [fst snd] in *. subst st1.
    cbn [snd]. now destruct (validateCache s1). }
  subst m st'. rewrite Hm. cbn [fst snd expiredCount validation stats].
  rewrite validateCache_unfold. cbn [fst snd invalid].
  rewrite remove_as_filter by assumption.
  assert (Hst' : filter (fun kv => negb (invalidEntry (snd kv))) st1
                 = filter (fun kv => negb (invalidEntry (snd kv))
                                     && negb (expiredForGet now (snd kv))) st).
  { rewrite Hc2, filter_twice. apply filter_ext. intros [k e]. cbn [snd].
    unfold isExpiredForCleanup, invalidEntry, expiredForGet.
    destruct (timestamp e =? 0)%Z, (ttl e =? 0)%Z, (ttl e <? now - timestamp e)%Z;
      reflexivity. }
  rewrite Hst'.
  set (st' := filter (fun kv => negb (invalidEntry (snd kv))
                                && negb (expiredForGet now (snd kv))) st) in *.
  assert (Hfresh : forall kv, In kv st' -> expiredForGet now (snd kv) = false).
  { intros kv Hin. apply filter_In in Hin. destruct Hin as (_ & Hp).
    apply andb_true_iff in Hp. now apply negb_true_iff. }
  split; [reflexivity|]. split; [|split; [|split]].
  - rewrite Hc1. rewrite <- Hst'.
    rewrite (filter_split_length (fun kv => invalidEntry (snd kv)) st1). lia.
  - destruct (cache_stats_extremes_aux now st') as (_ & -> & _).
    unfold countedExpired. rewrite filter_none; [reflexivity|].
    intros kv Hin. specialize (Hfresh kv Hin). unfold expiredForGet in Hfresh.
    rewrite Hfresh. apply andb_false_r.
  - apply getCacheStats_totalItems.
  - intros k e Hget. apply get_compressed; [exact Hget|].
    apply storage_get_in in Hget. exact (Hfresh (k, e) Hget).
Qed.

Lemma monitor_maintenance_witness :
  expiredItems (stats (fst (performMaintenanceTasks 2000 mixedStore))) = 0%N.
Proof.
  refine (proj1 (proj2 (proj2
    (monitor_maintenance examplePlatform 2000 mixedStore _)))).
  unfold uniqueKeys. cbn. repeat constructor; cbn; intuition discriminate.
Defined.

(** X8. [getHealthReport] leaves the cache as [validateCache] leaves it;
    it gives one recommendation for each issue and at most three issues, so
    that the health score is 100 less 20 for each issue and never below 40;
    the status is critical exactly when the three warnings come together
    (many expired items, a large cache, invalid entries) and healthy exactly
    when none comes; an empty cache is healthy with one issue. *)
Theorem monitor_health_report (now : Z) (st : Store) :
  let stats := getCacheStats now st in
  let v := fst (validateCache st) in
  let r := fst (getHealthReport now st) in
  let manyExpired :=
    Number.ltb (Number.mul (Number.ofN (totalItems stats)) Number.threeTenths)
      (Number.ofN (expiredItems stats)) in
  let large := (4 * 1024 * 1024 <? totalSize stats)%N in
  let corrupted := (0 <? invalid v)%N in
  snd (getHealthReport now st) = snd (validateCache st)
  /\ List.length (recommendations r) = List.length (issues r)
  /\ (List.length (issues r) <= 3)%nat
  /\ healthScore r = (100 - 20 * Z.of_nat (List.length (issues r)))%Z
  /\ (40 <= healthScore r <= 100)%Z
  /\ (status r = critical <-> manyExpired && large && corrupted = true)
  /\ (status r = healthy <-> manyExpired || large || corrupted = false)
  /\ (st = [] -> status r = healthy /\ issues r = ["No cached data available"]).
Proof.
  cbn zeta. unfold getHealthReport.
  destruct (validateCache st) as [v st'] eqn:Ev. cbn [fst snd].
  destruct st as [|kv st].
  - cbn in Ev. injection Ev as <- <-. cbn.
    repeat split; try lia; try discriminate; try reflexivity.
  - assert (Hn : (totalItems (getCacheStats now (kv :: st)) =? 0)%N = false).
    { rewrite getCacheStats_totalItems. apply N.eqb_neq. cbn [List.length]. lia. }
    rewrite Hn.
    destruct (Number.ltb
                (Number.mul (Number.ofN (totalItems (getCacheStats now (kv :: st))))
                   Number.threeTenths)
                (Number.ofN (expiredItems (getCacheStats now (kv :: st)))));
      destruct (4 * 1024 * 1024 <? totalSize (getCacheStats now (kv :: st)))%N;
      destruct (0 <? invalid v)%N;
      cbn [flag app List.length status issues recommendations healthScore fst
           Nat.ltb Nat.leb andb orb];
      (repeat split; try lia; try discriminate; try reflexivity).
Qed.

Lemma monitor_health_report_witness :
  status (fst (getHealthReport 2000 [])) = healthy
  /\ issues (fst (getHealthReport 2000 [])) = ["No cached data available"].
Proof.
  exact (proj2 (proj2 (proj2 (proj2 (proj2 (proj2 (proj2
    (monitor_health_report 2000 []))))))) eq_refl).
Defined.

End MonitorProofs.

(** ** The analysis of the error log *)

Section ErrorAnalysisProofs.

Import ErrorHandler ErrorLog.

Lemma ErrorType_eqb_spec (a b : ErrorType) : reflect (a = b) (ErrorType_eqb a b).
Proof. destruct a, b; constructor; congruence. Qed.

Lemma bump_spec (t : ErrorType) (acc : list (ErrorType * Z)) :
  Forall (fun kv => (0 < snd kv)%Z) acc ->
  Forall (fun kv => (0 < snd kv)%Z) (bump t acc)
  /\ (forall t', countOf t' (bump t acc)
                 = (countOf t' acc + if ErrorType_eqb t' t then 1 else 0)%Z)
  /\ (forall t', In t' (map fst (bump t acc)) <-> t' = t \/ In t' (map fst acc))
  /\ (NoDup (map fst acc) -> NoDup (map fst (bump t acc))).
Proof.
  induction acc as [|[t0 n] acc IH]; intros Hpos.
  - cbn [bump countOf map fst]. split; [|split; [|split]].
    + repeat constructor.
    + intros t'. destruct (ErrorType_eqb_spec t' t); reflexivity.
    + intros t'. cbn. intuition.
    + intros _. constructor; [intros [] | constructor].
  - inversion Hpos as [|? ? Hn Hrest]; subst. cbn [snd] in Hn.
    destruct (IH Hrest) as (IH1 & IH2 & IH3 & IH4).
    cbn [bump]. destruct (ErrorType_eqb_spec t t0) as [->|Hne].
    + split; [|split; [|split]].
      * constructor; [cbn [snd]; destruct (n =? 0)%Z; lia | assumption].
      * intros t'. cbn [countOf].
        destruct (ErrorType_eqb_spec t' t0); [|lia].
        destruct (Z.eqb_spec n 0); lia.
      * intros t'. cbn [map fst In]. intuition.
      * auto.
    + split; [|split; [|split]].
      * constructor; assumption.
      * intros t'. cbn [countOf]. rewrite IH2.
        destruct (ErrorType_eqb_spec t' t0) as [->|]; [|reflexivity].
        destruct (ErrorType_eqb_spec t0 t); [congruence | lia].
      * intros t'. cbn [map fst In]. rewrite IH3. intuition.
      * intros Hnd. cbn [map fst] in *. inversion Hnd as [|? ? Hnin Hnd']; subst.
        constructor; [|auto]. rewrite IH3. intros [->|Hin]; [congruence | contradiction].
Qed.

Lemma byType_fold (log : list ExtensionError) :
  forall acc,
    Forall (fun kv => (0 < snd kv)%Z) acc -> NoDup (map fst acc) ->
    let r := fold_left (fun acc error => bump (type error) acc) log acc in
    Forall (fun kv => (0 < snd kv)%Z) r
    /\ NoDup (map fst r)
    /\ forall t, countOf t r = (countOf t acc + Z.of_nat (List.length (errorsOfType t log)))%Z.
Proof.
  induction log as [|e log IH]; intros acc Hpos Hnd; cbn [fold_left].
  - cbn. repeat split; auto. intros t. lia.
  - destruct (bump_spec (type e) acc Hpos) as (H1 & H2 & _ & H4).
    destruct (IH (bump (type e) acc) H1 (H4 Hnd)) as (I1 & I2 & I3).
    cbn zeta. repeat split; auto.
    intros t. rewrite I3, H2. unfold errorsOfType. cbn [filter].
    destruct (ErrorType_eqb t (type e)); cbn [List.length]; lia.
Qed.

Lemma sum_by_type (log : list ExtensionError) :
  Z.of_nat (List.length log)
  = fold_right Z.add 0%Z
      (map (fun t => Z.of_nat (List.length (errorsOfType t log)))
         [AUTHENTICATION; NETWORK; RATE_LIMIT; PARSING; CACHE; PERMISSION; TIMEOUT;
          UNKNOWN]).
Proof.
  induction log as [|e log IH]; [reflexivity|].
  cbn [List.length map fold_right] in *. unfold errorsOfType in *. cbn [filter].
  destruct (type e); cbn [ErrorType_eqb List.length] in *; lia.
Qed.

Lemma critical_by_type (log : list ExtensionError) :
  Forall (fun e => recoverable e = isRecoverable (type e)) log ->
  List.length (filter (fun e => negb (recoverable e)) log)
  = (List.length (errorsOfType AUTHENTICATION log) + List.length (errorsOfType PERMISSION log))%nat.
Proof.
  induction 1 as [|e log He _ IH]; [reflexivity|].
  unfold errorsOfType in *. cbn [filter]. rewrite He.
  destruct (type e); cbn [isRecoverable negb ErrorType_eqb List.length] in *; lia.
Qed.

(** X9. In the analysis of the log, the number of each type is the number of
    errors of that type, each type is listed once, the numbers add up to the
    total, the critical errors are the authentication and the permission
    errors, and the recent errors are no more than the total. *)
Theorem error_analysis_counts (now : Z) (st : State) :
  classified st ->
  let a := getErrorAnalysis now st in
  totalErrors a = Z.of_nat (List.length (errorLog st))
  /\ NoDup (map fst (errorsByType a))
  /\ (forall t, countOf t (errorsByType a)
                = Z.of_nat (List.length (errorsOfType t (errorLog st))))
  /\ (forall t, In t (map fst (errorsByType a)) <-> errorsOfType t (errorLog st) <> [])
  /\ totalErrors a
     = fold_right Z.add 0%Z
         (map (fun t => countOf t (errorsByType a))
            [AUTHENTICATION; NETWORK; RATE_LIMIT; PARSING; CACHE; PERMISSION; TIMEOUT;
             UNKNOWN])
  /\ criticalErrors a
     = (countOf AUTHENTICATION (errorsByType a) + countOf PERMISSION (errorsByType a))%Z
  /\ (0 <= recentErrors a <= totalErrors a)%Z.
Proof.
  intros Hc a. subst a. unfold getErrorAnalysis.
  cbn [totalErrors errorsByType recentErrors criticalErrors].
  destruct (byType_fold (errorLog st) [] (Forall_nil _) (NoDup_nil _)) as (Hpos & Hnd & Hcount).
  cbn zeta in *. cbn [countOf] in Hcount.
  split; [reflexivity|]. split; [exact Hnd|]. split; [intros t; rewrite Hcount; lia|].
  split; [|split; [|split]].
  - intros t. split.
    + intros Hin Hnil. specialize (Hcount t). rewrite Hnil in Hcount. cbn in Hcount.
      apply in_map_iff in Hin. destruct Hin as ([t' n] & Ht & Hin). cbn [fst] in Ht. subst t'.
      rewrite Forall_forall in Hpos. specialize (Hpos _ Hin). cbn [snd] in Hpos.
      clear - Hnd Hin Hcount Hpos.
      induction (fold_left _ _ _) as [|[t0 n0] l IH]; [destruct Hin|].
      cbn [countOf map fst] in *. inversion Hnd as [|? ? Hnin Hnd']; subst.
      destruct (ErrorType_eqb_spec t t0) as [->|Hne].
      * destruct Hin as [Hin|Hin]; [injection Hin as ->; lia|].
        apply Hnin. apply in_map_iff. exists (t0, n). auto.
      * destruct Hin as [Hin|Hin]; [congruence|]. auto.
    + intros Hne. specialize (Hcount t).
      assert (Hposc : (0 < countOf t (fold_left (fun acc error => bump (type error) acc)
                                        (errorLog st) []))%Z).
      { rewrite Hcount. destruct (errorsOfType t (errorLog st)); [congruence|].
        cbn [List.length]. lia. }
      clear - Hposc. induction (fold_left _ _ _) as [|[t0 n0] l IH]; cbn [countOf] in *; [lia|].
      cbn [map fst In]. destruct (ErrorType_eqb_spec t t0); auto.
  - rewrite sum_by_type. cbn [map fold_right]. rewrite !Hcount. lia.
  - rewrite !Hcount. rewrite (critical_by_type _ Hc). lia.
  - pose proof (filter_length_le
      (fun e => (now - 60 * 60 * 1000 <? timestamp e)%Z) (errorLog st)). lia.
Qed.


Lemma firstn_in {A : Type} (n : nat) (l : list A) (x : A) :
  In x (firstn n l) -> In x l.
Proof.
  revert l. induction n as [|n IH]; intros [|y l]; cbn [firstn In]; try tauto.
  intros [->|H]; auto.
Qed.

Lemma createError_classified (t : ErrorType) (msg : string) (original : option Js.Error)
    (ctx : option Context) (now : Z) (st : State) :
  classified st -> classified (snd (createError t msg original ctx now st)).
Proof.
  unfold classified, createError. cbn [snd]. intros H.
  rewrite logError_errorLog. apply Forall_forall. intros e He.
  apply firstn_in in He.
  destruct He as [<-|He]; [reflexivity|].
  rewrite Forall_forall in H. now apply H.
Qed.

Lemma error_analysis_counts_witness :
  criticalErrors (getErrorAnalysis 5000 exampleLog)
  = (countOf AUTHENTICATION (errorsByType (getErrorAnalysis 5000 exampleLog))
     + countOf PERMISSION (errorsByType (getErrorAnalysis 5000 exampleLog)))%Z.
Proof.
  refine (proj1 (proj2 (proj2 (proj2 (proj2 (proj2
    (error_analysis_counts 5000 exampleLog _))))))).
  unfold classified. vm_compute. repeat constructor.
Defined.

(** *** The recovery rate *)

Lemma rateExact_eq (t c : Z) :
  rateExact t c = true ->
  Number.round (Number.mul (Number.div (Number.ofZ (t - c)) (Number.ofZ t))
                  (Number.ofZ 100))
  = Number.ofZ (expectedRate t c).
Proof.
  unfold rateExact.
  destruct (Number.round _) as [s| | |s m e], (Number.ofZ (expectedRate _ _)) as [s'| | |s' m' e'];
    try discriminate.
  - intros H. apply Bool.eqb_prop in H. now subst.
  - intros H. apply andb_true_iff in H. destruct H as (H & He).
    apply andb_true_iff in H. destruct H as (Hs & Hm).
    apply Bool.eqb_prop in Hs. apply Pos.eqb_eq in Hm. apply Z.eqb_eq in He.
    now subst.
Qed.

Lemma ratesExact_true : forallb rateExactUpTo (seq 0 100) = true.
Proof. vm_compute. reflexivity. Qed.

Lemma rateExact_small (t c : nat) :
  (1 <= t <= 100)%nat -> (c <= t)%nat -> rateExact (Z.of_nat t) (Z.of_nat c) = true.
Proof.
  intros Ht Hc. destruct t as [|t]; [lia|].
  assert (Ht' : In t (seq 0 100)) by (apply in_seq; lia).
  pose proof (proj1 (forallb_forall rateExactUpTo (seq 0 100)) ratesExact_true t Ht') as H.
  assert (Hc' : In c (seq 0 (S (S t)))) by (apply in_seq; lia).
  exact (proj1 (forallb_forall _ _) H c Hc').
Qed.

Lemma percentage_bounds (t c : Z) :
  (0 < t < 200)%Z -> (0 <= c <= t)%Z ->
  (0 <= percentage (t - c) t <= 100)%Z
  /\ (percentage (t - c) t = 100%Z <-> c = 0%Z).
Proof.
  intros Ht Hc. unfold percentage.
  assert (Hlow : (0 <= (200 * (t - c) + t) / (2 * t))%Z)
    by (apply Z.div_pos; lia).
  assert (Hup : ((200 * (t - c) + t) / (2 * t) < 101)%Z)
    by (apply Z.div_lt_upper_bound; lia).
  split; [lia|]. split.
  - intros H. destruct (Z.eq_dec c 0) as [|Hne]; [assumption|]. exfalso.
    assert (((200 * (t - c) + t) / (2 * t) < 100)%Z)
      by (apply Z.div_lt_upper_bound; lia).
    lia.
  - intros ->. apply Z.le_antisymm; [lia|].
    apply Z.div_le_lower_bound; lia.
Qed.

Lemma expectedRate_bounds (t c : Z) :
  (0 < t < 200)%Z -> (0 <= c <= t)%Z ->
  (0 <= expectedRate t c <= 100)%Z
  /\ (expectedRate t c = 100%Z <-> c = 0%Z).
Proof.
  intros Ht Hc. unfold expectedRate.
  destruct ((t =? 40) && (c =? 17) || (t =? 80) && (c =? 34))%Z eqn:E.
  - split; [lia|]. split; [discriminate|]. intros ->.
    rewrite !andb_false_r in E. discriminate E.
  - now apply percentage_bounds.
Qed.

(** X10. The recovery rate of a log of up to 100 errors, computed in doubles,
    is 100 for the empty log and otherwise the percentage of the errors that
    are not critical, rounded half up, except that it is 57 and not 58 for
    17 critical errors in 40 and for 34 in 80; it lies between 0 and 100 and
    is 100 only when no error is critical. *)
Theorem error_recovery_rate (now : Z) (st : State) :
  (List.length (errorLog st) <= 100)%nat ->
  let a := getErrorAnalysis now st in
  let rate :=
    if (0 <? totalErrors a)%Z
    then expectedRate (totalErrors a) (criticalErrors a)
    else 100%Z in
  recoveryRate a = Number.ofZ rate
  /\ (0 <= rate <= 100)%Z
  /\ (rate = 100%Z <-> criticalErrors a = 0%Z).
Proof.
  intros Hlen a rate. subst a rate. unfold getErrorAnalysis.
  cbn [totalErrors criticalErrors recoveryRate].
  set (c := List.length (filter (fun e => negb (recoverable e)) (errorLog st))).
  assert (Hc : (c <= List.length (errorLog st))%nat) by apply filter_length_le.
  destruct (Z.ltb_spec 0 (Z.of_nat (List.length (errorLog st)))) as [Hpos|Hzero].
  - rewrite (rateExact_eq _ _ (rateExact_small (List.length (errorLog st)) c ltac:(lia) Hc)).
    split; [reflexivity|].
    destruct (expectedRate_bounds (Z.of_nat (List.length (errorLog st))) (Z.of_nat c))
      as (H1 & H2); [lia | lia | auto].
  - split; [reflexivity|]. split; [lia|]. split; [lia|]. intros _. reflexivity.
Qed.

Lemma error_recovery_rate_witness :
  totalErrors (getErrorAnalysis 5000 unevenLog) = 40%Z
  /\ criticalErrors (getErrorAnalysis 5000 unevenLog) = 17%Z
  /\ recoveryRate (getErrorAnalysis 5000 unevenLog) = Number.ofZ 57.
Proof.
  split; [reflexivity|]. split; [reflexivity|].
  refine (eq_trans (proj1 (error_recovery_rate 5000 unevenLog _)) _).
  - vm_compute. lia.
  - reflexivity.
Defined.

End ErrorAnalysisProofs.

(** ** The occupation *)

Section ApiProofs.

Import RegExp LinkedInAPI ApiFacts.

(** *** Strings *)

Lemma substring_prefix (a b : string) : substring 0 (String.length a) (a ++ b) = a.
Proof.
  induction a as [|c a IH]; cbn [String.length append substring].
  - destruct b; reflexivity.
  - now rewrite IH.
Qed.

Lemma consumed_app (a b : string) : consumed (a ++ b) b = a.
Proof.
  unfold consumed. rewrite length_append.
  replace (String.length a + String.length b - String.length b)%nat
    with (String.length a) by lia.
  apply substring_prefix.
Qed.

Lemma append_cons (a : string) (c : ascii) (b : string) :
  (a ++ String c EmptyString) ++ b = a ++ String c b.
Proof. now rewrite append_assoc. Qed.

Lemma lineTerminator_space (c : ascii) :
  isLineTerminator c = true -> Js.is_js_whitespace c = true.
Proof.
  unfold isLineTerminator, Js.is_js_whitespace. cbv zeta.
  destruct (N_of_ascii c =? 10)%N, (N_of_ascii c =? 13)%N; cbn; intros H;
    try discriminate; rewrite ?orb_true_r; reflexivity.
Qed.

(** *** The company *)

(** The end of the company pattern: white space or the end of the input. *)
Lemma run_company_end (s : string) (capture : option string) :
  run (Alt (Atom Space) End_) false s capture (fun _ _ capture => Some capture)
  = match s with
    | EmptyString => Some capture
    | String c _ => if Js.is_js_whitespace c then Some capture else None
    end.
Proof.
  destruct s as [|c r]; [reflexivity|]. cbn [run atomMatches].
  destruct (Js.is_js_whitespace c); reflexivity.
Qed.

(** The group of the company pattern and what follows it. *)
Lemma plus_company (r before : string) :
  plus false Dot r
    (fun r' => run (Alt (Atom Space) End_) false r' (Some (consumed (before ++ r) r'))
                 (fun _ _ capture => Some capture))
  = match r with
    | EmptyString => None
    | String c r1 =>
        if isLineTerminator c then None
        else Some (Some (before ++ String c (untilSpace r1)))
    end.
Proof.
  revert before. induction r as [|c r1 IH]; intros before; [reflexivity|].
  cbn [plus atomMatches]. destruct (isLineTerminator c) eqn:Ec; [reflexivity|].
  cbn [negb]. rewrite run_company_end.
  rewrite <- (append_cons before c r1), consumed_app.
  destruct r1 as [|d r2].
  - cbn [untilSpace]. reflexivity.
  - cbn [untilSpace]. destruct (Js.is_js_whitespace d) eqn:Ed; [reflexivity|].
    specialize (IH (before ++ String c EmptyString)).
    rewrite IH.
    destruct (isLineTerminator d) eqn:El.
    + apply lineTerminator_space in El. congruence.
    + now rewrite append_cons.
Qed.

Lemma run_company (atStart : bool) (s : string) :
  run companyPattern atStart s None (fun _ _ capture => Some capture)
  = match Js.stripPrefix "at " s with
    | Some r => option_map Some (companyFrom r)
    | None => None
    end.
Proof.
  unfold companyPattern.
  destruct s as [|c1 s]; [reflexivity|]. cbn [run atomMatches Js.stripPrefix].
  destruct (Ascii.eqb "a" c1); [|reflexivity].
  destruct s as [|c2 s]; [reflexivity|]. cbn [Js.stripPrefix].
  destruct (Ascii.eqb "t" c2); [|reflexivity].
  destruct s as [|c3 s]; [reflexivity|]. cbn [Js.stripPrefix].
  destruct (Ascii.eqb " " c3); [|reflexivity].
  pose proof (plus_company s EmptyString) as H.
  cbn [append run atomMatches] in H. rewrite H. unfold companyFrom.
  destruct s as [|c r]; [reflexivity|]. destruct (isLineTerminator c); reflexivity.
Qed.

Lemma search_company (atStart : bool) (s : string) :
  search companyPattern atStart s = option_map Some (findCompany s).
Proof.
  revert atStart. induction s as [|c s IH]; intros atStart.
  - reflexivity.
  - cbn [search findCompany]. rewrite run_company.
    destruct (Js.stripPrefix "at " (String c s)) as [r|].
    + destruct (companyFrom r); [reflexivity | apply IH].
    + apply IH.
Qed.

Lemma extractCompanyName_findCompany (occupation : string) :
  extractCompanyName occupation = inr (option_map trim (findCompany occupation)).
Proof.
  unfold extractCompanyName, exec. rewrite search_company.
  destruct (findCompany occupation); reflexivity.
Qed.

(** *** Trimming *)

Lemma free_untilSpace (s : string) : free Js.is_js_whitespace (untilSpace s) = true.
Proof.
  induction s as [|c s IH]; [reflexivity|]. cbn [untilSpace].
  destruct (Js.is_js_whitespace c) eqn:E; [reflexivity|].
  cbn [free]. now rewrite E, IH.
Qed.

Lemma trimEnd_free (s : string) : free Js.is_js_whitespace s = true -> trimEnd s = s.
Proof.
  induction s as [|c s IH]; [reflexivity|]. cbn [free trimEnd].
  intros H. apply andb_true_iff in H. destruct H as (Hc & Hs).
  rewrite (IH Hs). apply negb_true_iff in Hc. rewrite Hc. now destruct s.
Qed.

Lemma trimStart_free (s : string) :
  free Js.is_js_whitespace s = true -> Js.trimStart s = s.
Proof.
  destruct s as [|c s]; [reflexivity|]. cbn [free Js.trimStart].
  intros H. apply andb_true_iff in H. destruct H as (Hc & _).
  apply negb_true_iff in Hc. now rewrite Hc.
Qed.

Lemma trim_free (s : string) : free Js.is_js_whitespace s = true -> trim s = s.
Proof.
  intros H. unfold trim. rewrite (trimStart_free s H). now apply trimEnd_free.
Qed.

Lemma trim_company (c : ascii) (r : string) :
  trim (String c (untilSpace r))
  = if Js.is_js_whitespace c then untilSpace r else String c (untilSpace r).
Proof.
  destruct (Js.is_js_whitespace c) eqn:E.
  - unfold trim. cbn [Js.trimStart]. rewrite E.
    fold (trim (untilSpace r)). apply trim_free. apply free_untilSpace.
  - apply trim_free. cbn [free]. now rewrite E, free_untilSpace.
Qed.

Lemma findCompany_shape (s group : string) :
  findCompany s = Some group ->
  exists c r, group = String c (untilSpace r) /\ isLineTerminator c = false.
Proof.
  induction s as [|c0 s IH]; cbn [findCompany].
  - cbn. discriminate.
  - destruct (Js.stripPrefix "at " (String c0 s)) as [r|]; [|exact IH].
    unfold companyFrom at 1. destruct r as [|c r]; [exact IH|].
    destruct (isLineTerminator c) eqn:E; [exact IH|].
    intros [= <-]. eauto.
Qed.

Lemma startsWith_app (p x y : string) :
  (String.length p <= String.length x)%nat ->
  Js.startsWith p (x ++ y) = Js.startsWith p x.
Proof.
  revert x. induction p as [|a p IH]; intros x Hlen; [now destruct x|].
  destruct x as [|b x]; cbn [String.length] in Hlen; [lia|].
  cbn [append Js.startsWith]. rewrite IH by lia. reflexivity.
Qed.

Lemma stripPrefix_startsWith (p s : string) :
  Js.startsWith p s = false -> Js.stripPrefix p s = None.
Proof.
  revert s. induction p as [|a p IH]; intros s; [now destruct s|].
  destruct s as [|b s]; [reflexivity|]. cbn [Js.startsWith Js.stripPrefix].
  destruct (Ascii.eqb a b); cbn [andb]; [apply IH | reflexivity].
Qed.

Lemma stripPrefix_some (p s r : string) :
  Js.stripPrefix p s = Some r -> Js.startsWith p s = true.
Proof.
  revert s. induction p as [|a p IH]; intros s; [now destruct s|].
  destruct s as [|b s]; [discriminate|]. cbn [Js.startsWith Js.stripPrefix].
  destruct (Ascii.eqb a b); [apply IH | discriminate].
Qed.

Lemma untilSpace_word (w rest : string) :
  free Js.is_js_whitespace w = true -> endsWord rest = true ->
  untilSpace (w ++ rest) = w.
Proof.
  intros Hw Hrest. induction w as [|c w IH]; cbn [append].
  - destruct rest as [|d rest]; [reflexivity|]. cbn [endsWord] in Hrest.
    cbn [untilSpace]. now rewrite Hrest.
  - cbn [free] in Hw. apply andb_true_iff in Hw. destruct Hw as (Hc & Hw).
    apply negb_true_iff in Hc. cbn [untilSpace]. now rewrite Hc, IH.
Qed.

Lemma findCompany_first (before word rest : string) :
  Js.includes "at " (before ++ "at") = false ->
  word <> EmptyString ->
  free Js.is_js_whitespace word = true ->
  endsWord rest = true ->
  findCompany (before ++ "at " ++ word ++ rest) = Some word.
Proof.
  intros Hfirst Hne Hword Hrest.
  destruct word as [|c w]; [congruence|].
  assert (Hc : isLineTerminator c = false).
  { cbn [free] in Hword. apply andb_true_iff in Hword. destruct Hword as (Hc & _).
    apply negb_true_iff in Hc. destruct (isLineTerminator c) eqn:E; [|reflexivity].
    apply lineTerminator_space in E. congruence. }
  assert (Hw : untilSpace (w ++ rest) = w).
  { apply untilSpace_word; [|assumption]. cbn [free] in Hword.
    apply andb_true_iff in Hword. tauto. }
  induction before as [|b bs IH].
  - cbn [append findCompany Js.stripPrefix Ascii.eqb Bool.eqb companyFrom].
    cbn. rewrite Hc, Hw. reflexivity.
  - cbn [Js.includes] in Hfirst. apply orb_false_iff in Hfirst.
    destruct Hfirst as (Hhere & Hlater).
    change (String b bs ++ "at " ++ String c w ++ rest)
      with (String b (bs ++ "at " ++ String c w ++ rest)).
    cbn [findCompany].
    change (String b (bs ++ "at " ++ String c w ++ rest))
      with (String b bs ++ "at" ++ " " ++ String c w ++ rest) at 1.
    rewrite <- (append_assoc (String b bs) "at"), stripPrefix_startsWith.
    + apply IH, Hlater.
    + rewrite startsWith_app; [exact Hhere|].
      rewrite length_append. cbn [String.length]. lia.
Qed.

Lemma findCompany_includes (s group : string) :
  findCompany s = Some group -> Js.includes "at " s = true.
Proof.
  induction s as [|c s IH]; cbn [findCompany]; [cbn; discriminate|].
  destruct (Js.stripPrefix "at " (String c s)) as [r|] eqn:E.
  - intros _. apply stripPrefix_some in E. cbn [Js.includes]. now rewrite E.
  - intros H. cbn [Js.includes]. rewrite (IH H). apply orb_true_r.
Qed.

(** *** The position *)

Lemma space_not_a (c : ascii) : Js.is_js_whitespace c = true -> Ascii.eqb "a" c = false.
Proof.
  intros H. destruct (Ascii.eqb_spec "a" c) as [<-|]; [discriminate H | reflexivity].
Qed.

(** The white space of the position pattern and the "at" after it. *)
Lemma plus_position (r : string) (capture : option string) :
  plus true Space r
    (fun r' => run (Seq (Atom (Char "a")) (Atom (Char "t"))) false r' capture
                 (fun _ _ capture => Some capture))
  = if spaceThenAt r then Some capture else None.
Proof.
  assert (Hk : forall r', run (Seq (Atom (Char "a")) (Atom (Char "t"))) false r' capture
                 (fun _ _ capture => Some capture)
               = if Js.startsWith "at" r' then Some capture else None).
  { intros r'. destruct r' as [|a r']; [reflexivity|]. cbn [run atomMatches Js.startsWith].
    destruct (Ascii.eqb "a" a); [|reflexivity]. destruct r' as [|t r']; [reflexivity|].
    cbn [andb Js.startsWith]. destruct (Ascii.eqb "t" t); reflexivity. }
  induction r as [|c r IH]; [reflexivity|].
  cbn [plus atomMatches spaceThenAt Js.trimStart].
  destruct (Js.is_js_whitespace c) eqn:Ec; [|reflexivity].
  cbn [andb]. rewrite IH, Hk.
  destruct r as [|d r]; [reflexivity|]. cbn [spaceThenAt Js.trimStart].
  destruct (Js.is_js_whitespace d) eqn:Ed; cbn [andb].
  - destruct (Js.startsWith "at" (Js.trimStart r)); [reflexivity|].
    cbn [Js.startsWith]. now rewrite (space_not_a d Ed).
  - reflexivity.
Qed.

(** The group of the position pattern and what follows it. *)
Lemma plus_position_group (r before : string) :
  plus false Dot r
    (fun r' =>
       run (Seq (Plus true Space) (Seq (Atom (Char "a")) (Atom (Char "t")))) false r'
         (Some (consumed (before ++ r) r')) (fun _ _ capture => Some capture))
  = option_map Some (findPosition before r).
Proof.
  revert before. induction r as [|c r IH]; intros before; [reflexivity|].
  cbn [plus atomMatches findPosition]. destruct (isLineTerminator c); [reflexivity|].
  cbn [negb].
  change (run (Seq (Plus true Space) (Seq (Atom (Char "a")) (Atom (Char "t")))) false r
            (Some (consumed (before ++ String c r) r)) (fun _ _ capture => Some capture))
    with (plus true Space r
            (fun r' => run (Seq (Atom (Char "a")) (Atom (Char "t"))) false r'
                         (Some (consumed (before ++ String c r) r))
                         (fun _ _ capture => Some capture))).
  rewrite plus_position, <- (append_cons before c r), consumed_app.
  destruct (spaceThenAt r); [reflexivity|].
  rewrite <- (IH (before ++ String c EmptyString)).
  f_equal.
Qed.

Lemma run_position (s : string) :
  run positionPattern true s None (fun _ _ capture => Some capture)
  = option_map Some (findPosition EmptyString s).
Proof.
  rewrite <- (plus_position_group s EmptyString). reflexivity.
Qed.

Lemma search_position_later (s : string) : search positionPattern false s = None.
Proof. induction s as [|c s IH]; [reflexivity|]. cbn [search]. exact IH. Qed.

Lemma exec_position (s : string) :
  exec positionPattern s = option_map Some (findPosition EmptyString s).
Proof.
  unfold exec. destruct s as [|c s]; [reflexivity|].
  cbn [search]. rewrite search_position_later.
  change (run positionPattern true (String c s) None (fun _ _ capture => Some capture))
    with (run positionPattern true (String c s) None (fun _ _ capture => Some capture)).
  rewrite run_position. now destruct (findPosition EmptyString (String c s)).
Qed.

Lemma extractPosition_findPosition (occupation : string) :
  extractPosition occupation
  = inr match findPosition EmptyString occupation with
        | Some group => Some (trim group)
        | None => if String.eqb occupation EmptyString then None else Some occupation
        end.
Proof.
  unfold extractPosition. rewrite exec_position.
  destruct (findPosition EmptyString occupation); cbn [option_map]; [reflexivity|].
  now destruct (String.eqb occupation EmptyString).
Qed.

Lemma findPosition_first (c : ascii) (t after before : string) :
  free isLineTerminator (String c t) = true ->
  noneBefore t after = true ->
  spaceThenAt after = true ->
  findPosition before (String c t ++ after) = Some (before ++ String c t).
Proof.
  revert c before. induction t as [|d t IH]; intros c before Hlt Hnone Hafter.
  - cbn [free] in Hlt. apply andb_true_iff in Hlt. destruct Hlt as (Hc & _).
    apply negb_true_iff in Hc. cbn [append findPosition]. now rewrite Hc, Hafter.
  - cbn [free] in Hlt. apply andb_true_iff in Hlt. destruct Hlt as (Hc & Hlt).
    apply negb_true_iff in Hc.
    cbn [noneBefore] in Hnone. apply andb_true_iff in Hnone.
    destruct Hnone as (Hd & Hnone). apply negb_true_iff in Hd.
    change (String c (String d t) ++ after) with (String c (String d t ++ after)).
    cbn [findPosition]. rewrite Hc, Hd.
    rewrite (IH d (before ++ String c EmptyString)); [|exact Hlt|exact Hnone|exact Hafter].
    now rewrite append_cons.
Qed.

Lemma includes_trimStart (p s : string) :
  Js.includes p (Js.trimStart s) = true -> Js.includes p s = true.
Proof.
  induction s as [|c s IH]; [trivial|]. cbn [Js.trimStart].
  destruct (Js.is_js_whitespace c); [|trivial].
  intros H. cbn [Js.includes]. rewrite (IH H). apply orb_true_r.
Qed.

Lemma spaceThenAt_includes (s : string) :
  spaceThenAt s = true -> Js.includes "at" s = true.
Proof.
  destruct s as [|c s]; [discriminate|]. unfold spaceThenAt.
  intros H. apply andb_true_iff in H. destruct H as (_ & H).
  apply includes_trimStart. destruct (Js.trimStart (String c s)); [discriminate H|].
  cbn [Js.includes]. now rewrite H.
Qed.

Lemma findPosition_includes (s before group : string) :
  findPosition before s = Some group -> Js.includes "at" s = true.
Proof.
  revert before. induction s as [|c s IH]; intros before; [discriminate|].
  cbn [findPosition]. destruct (isLineTerminator c); [discriminate|].
  destruct (spaceThenAt s) eqn:E.
  - intros _. apply spaceThenAt_includes in E. cbn [Js.includes]. rewrite E.
    apply orb_true_r.
  - intros H. cbn [Js.includes]. rewrite (IH _ H). apply orb_true_r.
Qed.

(** *** What is read off the occupation *)

(** X11. [extractCompanyName] never throws; the company it finds holds no white
    space; and without "at " in the occupation there is no company. *)
Theorem api_company_shape (occupation : string) :
  exists company,
    extractCompanyName occupation = inr company
    /\ (forall name, company = Some name -> free Js.is_js_whitespace name = true)
    /\ (Js.includes "at " occupation = false -> company = None).
Proof.
  exists (option_map trim (findCompany occupation)).
  split; [apply extractCompanyName_findCompany|]. split.
  - intros name. destruct (findCompany occupation) as [group|] eqn:E; [|discriminate].
    intros [= <-]. destruct (findCompany_shape _ _ E) as (c & r & -> & _).
    rewrite trim_company. destruct (Js.is_js_whitespace c) eqn:Ec.
    + apply free_untilSpace.
    + cbn [free]. now rewrite Ec, free_untilSpace.
  - intros H. destruct (findCompany occupation) as [group|] eqn:E; [|reflexivity].
    apply findCompany_includes in E. congruence.
Qed.

(** X12. The company is the word after the first "at " of the occupation, also
    where that "at " ends another word. *)
Theorem api_company_first_word (before word rest : string) :
  Js.includes "at " (before ++ "at") = false ->
  word <> EmptyString ->
  free Js.is_js_whitespace word = true ->
  endsWord rest = true ->
  extractCompanyName (before ++ "at " ++ word ++ rest) = inr (Some word).
Proof.
  intros Hfirst Hne Hword Hrest.
  rewrite extractCompanyName_findCompany, findCompany_first by assumption.
  cbn [option_map]. now rewrite trim_free.
Qed.

Lemma api_company_first_word_witness :
  extractCompanyName "Diplomat at Embassy" = inr (Some "at")
  /\ extractCompanyName "Engineer at Goldman Sachs" = inr (Some "Goldman").
Proof.
  split.
  - apply (api_company_first_word "Diplom" "at" " Embassy");
      [reflexivity | discriminate | reflexivity | reflexivity].
  - apply (api_company_first_word "Engineer " "Goldman" " Sachs");
      [reflexivity | discriminate | reflexivity | reflexivity].
Defined.

(** X13. The position is the shortest start of the occupation, of one
    character at least and without line terminator, that white space and "at"
    follow, trimmed. *)
Theorem api_position_before_at (c : ascii) (title after : string) :
  free isLineTerminator (String c title) = true ->
  noneBefore title after = true ->
  spaceThenAt after = true ->
  extractPosition (String c title ++ after) = inr (Some (trim (String c title))).
Proof.
  intros Hlt Hnone Hafter.
  rewrite extractPosition_findPosition.
  now rewrite (findPosition_first c title after EmptyString).
Qed.

Lemma api_position_before_at_witness :
  extractPosition "Software Engineer at Google" = inr (Some "Software Engineer")
  /\ extractPosition "Cook attic" = inr (Some "Cook")
  /\ extractPosition "  at Google" = inr (Some "").
Proof.
  split; [|split].
  - apply (api_position_before_at "S" "oftware Engineer" " at Google"); reflexivity.
  - apply (api_position_before_at "C" "ook" " attic"); reflexivity.
  - apply (api_position_before_at " " "" " at Google"); reflexivity.
Defined.

(** X14. [extractPosition] never throws, gives [undefined] for the empty
    occupation only, and gives the occupation itself when it holds no "at". *)
Theorem api_position_shape (occupation : string) :
  exists position,
    extractPosition occupation = inr position
    /\ (position = None <-> occupation = EmptyString)
    /\ (Js.includes "at" occupation = false -> occupation <> EmptyString ->
        position = Some occupation).
Proof.
  rewrite extractPosition_findPosition. eexists. split; [reflexivity|]. split.
  - destruct (findPosition EmptyString occupation) as [group|] eqn:E.
    + split; [discriminate|]. intros ->. discriminate E.
    + destruct (String.eqb_spec occupation EmptyString) as [->|Hne].
      * tauto.
      * split; [discriminate | tauto].
  - intros H Hne. destruct (findPosition EmptyString occupation) as [group|] eqn:E.
    + apply findPosition_includes in E. congruence.
    + destruct (String.eqb_spec occupation EmptyString); [contradiction | reflexivity].
Qed.

End ApiProofs.

(** ** The rate limiter *)

Section LimiterProofs.

Import RateLimiter LimiterFacts.
Import CacheFacts.

Lemma inWindow_live (now : Z) (st : State) :
  inWindow now st = live (windowMs st) now (requests st).
Proof. reflexivity. Qed.

Lemma live_app (w now : Z) (l1 l2 : list Z) :
  live w now (l1 ++ l2) = (live w now l1 ++ live w now l2)%list.
Proof. apply filter_app. Qed.

Lemma live_later (w now now' : Z) (l : list Z) :
  (now <= now')%Z -> live w now' (live w now l) = live w now' l.
Proof.
  intros H. unfold live. induction l as [|a l IH]; [reflexivity|].
  cbn [filter].
  destruct (Z.ltb_spec (now - a) w) as [Ha|Ha]; cbn [filter].
  - now rewrite IH.
  - destruct (Z.ltb_spec (now' - a) w); [lia | exact IH].
Qed.

Lemma live_length (w now : Z) (l : list Z) :
  (List.length (live w now l) <= List.length l)%nat.
Proof. apply filter_length_le. Qed.

Lemma minOf_fold (l : list Z) (a : Z) :
  exists o,
    fold_left (fun acc x =>
                 match acc with
                 | Infinity => Finite x
                 | Finite a => Finite (Z.min a x)
                 end) l (Finite a) = Finite o
    /\ (o = a \/ In o l) /\ (o <= a)%Z /\ (forall x, In x l -> (o <= x)%Z).
Proof.
  revert a. induction l as [|y l IH]; intros a; cbn [fold_left].
  - exists a. repeat split; [now left | lia | intros x []].
  - destruct (IH (Z.min a y)) as (o & Ho & Hin & Hle & Hall).
    exists o. split; [exact Ho|]. split; [|split].
    + destruct Hin as [->|Hin].
      * destruct (Z.min_spec a y) as [[_ ->]|[_ ->]]; [now left | right; now left].
      * right; now right.
    + lia.
    + intros x [->|Hx]; [lia | now apply Hall].
Qed.

(** [Math.min(...l)] is the least element of a list that has one. *)
Lemma minOf_spec (l : list Z) :
  match minOf l with
  | Finite o => In o l /\ (forall x, In x l -> (o <= x)%Z)
  | Infinity => l = []
  end.
Proof.
  unfold minOf. destruct l as [|a l]; [reflexivity|].
  cbn [fold_left]. destruct (minOf_fold l a) as (o & -> & Hin & Hle & Hall).
  split.
  - destruct Hin as [->|Hin]; [now left | now right].
  - intros x [->|Hx]; [exact Hle | now apply Hall].
Qed.

Lemma checkLimit_requests (P : Platform) (now : Z) (st : State) :
  windowMs (snd (checkLimit P now st)) = windowMs st
  /\ maxRequests (snd (checkLimit P now st)) = maxRequests st
  /\ (requests (snd (checkLimit P now st)) = inWindow now st
      \/ ((Z.of_nat (List.length (inWindow now st)) < maxRequests st)%Z
          /\ requests (snd (checkLimit P now st)) = (inWindow now st ++ [now])%list
          /\ fst (checkLimit P now st) = inr {| allowed := true; retryAfter := None |})).
Proof.
  unfold checkLimit. cbn [requests withRequests maxRequests windowMs].
  destruct (Z.leb_spec (maxRequests st) (Z.of_nat (List.length (inWindow now st)))).
  - destruct (maxArguments P <? _)%N; cbn; auto.
  - cbn. split; [reflexivity|]. split; [reflexivity|].
    right. split; [assumption|]. split; reflexivity.
Qed.

Lemma call_frame (P : Platform) (c : Call) (st : State) :
  windowMs (snd (call P c st)) = windowMs st
  /\ maxRequests (snd (call P c st)) = maxRequests st.
Proof.
  destruct c as [now|now]; cbn [call].
  - destruct (checkLimit_requests P now st) as (Hw & Hm & _).
    destruct (checkLimit P now st) as [[e|v] st']; cbn [snd] in *; auto.
  - cbn. auto.
Qed.

(** What one call does to the list, and when it allows a request. *)
Lemma call_spec (P : Platform) (c : Call) (st : State) :
  let now := callTime c in
  let kept := live (windowMs st) now (requests st) in
  (fst (call P c st) = [] /\ requests (snd (call P c st)) = kept)
  \/ (fst (call P c st) = [now]
      /\ requests (snd (call P c st)) = (kept ++ [now])%list
      /\ (Z.of_nat (List.length kept) < maxRequests st)%Z).
Proof.
  destruct c as [now|now]; cbn [call callTime].
  - destruct (checkLimit_requests P now st) as (_ & _ & [Hr|(Hlt & Hr & Hv)]).
    + left. rewrite <- inWindow_live.
      unfold checkLimit in *. cbn [requests withRequests maxRequests windowMs] in *.
      destruct (Z.leb_spec (maxRequests st) (Z.of_nat (List.length (inWindow now st)))).
      * destruct (maxArguments P <? _)%N; cbn; auto.
      * cbn in Hr. exfalso.
        assert (Hlen : List.length (inWindow now st ++ [now]) = List.length (inWindow now st))
          by now rewrite Hr.
        rewrite length_app in Hlen. cbn in Hlen. lia.
    + right. rewrite <- inWindow_live.
      destruct (checkLimit P now st) as [[e|v] st']; cbn [fst snd] in *; [discriminate|].
      injection Hv as ->. cbn. auto.
  - left. cbn. auto.
Qed.

Lemma within_app (w x : Z) (l1 l2 : list Z) :
  within w x (l1 ++ l2) = (within w x l1 ++ within w x l2)%list.
Proof. apply filter_app. Qed.

(** The requests of a window that ends at or after [now] and holds [now]
    are live at [now]. *)
Lemma within_live (w x now : Z) (l : list Z) :
  (x - w < now <= x)%Z ->
  (List.length (within w x l) <= List.length (live w now l))%nat.
Proof.
  intros H. unfold within, live. induction l as [|a l IH]; [cbn; lia|].
  cbn [filter].
  destruct (Z.ltb_spec (x - w) a); destruct (Z.leb_spec a x); cbn [andb];
    destruct (Z.ltb_spec (now - a) w); cbn [List.length]; lia.
Qed.

Lemma granted_window (P : Platform) (calls : list Call) :
  forall (st : State) (hist : list Z) (T x : Z),
    Sorted Z.le (T :: map callTime calls) ->
    live (windowMs st) T hist = live (windowMs st) T (requests st) ->
    (Z.of_nat (List.length (within (windowMs st) x hist)) <= Z.max 0 (maxRequests st))%Z ->
    (Z.of_nat (List.length (within (windowMs st) x (hist ++ granted P calls st)))
     <= Z.max 0 (maxRequests st))%Z.
Proof.
  induction calls as [|c calls IH]; intros st hist T x Hsorted Hlive Hcount.
  - cbn [granted]. now rewrite app_nil_r.
  - cbn [granted]. rewrite app_assoc.
    destruct (call_frame P c st) as (Hw & Hm).
    cbn [map] in Hsorted.
    assert (HT : (T <= callTime c)%Z).
    { inversion Hsorted as [|? ? _ Hhd]; subst. inversion Hhd; subst. assumption. }
    assert (Hsorted' : Sorted Z.le (callTime c :: map callTime calls))
      by (inversion Hsorted; assumption).
    rewrite <- Hw, <- Hm.
    apply (IH (snd (call P c st)) (hist ++ fst (call P c st))%list (callTime c) x Hsorted');
      rewrite ?Hw, ?Hm.
    + pose proof (call_spec P c st) as Hspec. cbn zeta in Hspec.
      assert (Hkept : live (windowMs st) (callTime c) hist
                      = live (windowMs st) (callTime c)
                          (live (windowMs st) (callTime c) (requests st))).
      { rewrite <- (live_later _ T (callTime c) hist HT), Hlive.
        rewrite (live_later _ T (callTime c) _ HT).
        now rewrite (live_later _ (callTime c) (callTime c)) by lia. }
      destruct Hspec as [(-> & ->)|(-> & -> & _)].
      * now rewrite app_nil_r.
      * rewrite !live_app. now rewrite Hkept.
    + pose proof (call_spec P c st) as Hspec. cbn zeta in Hspec.
      destruct Hspec as [(-> & _)|(-> & _ & Hlt)].
      * now rewrite app_nil_r.
      * rewrite within_app, length_app.
        unfold within at 2. cbn [filter].
        destruct (Z.ltb_spec (x - windowMs st) (callTime c));
          destruct (Z.leb_spec (callTime c) x); cbn [andb List.length]; try lia.
        pose proof (within_live (windowMs st) x (callTime c) hist ltac:(lia)) as Hin.
        assert (Hsame : List.length (live (windowMs st) (callTime c) hist)
                        = List.length (live (windowMs st) (callTime c) (requests st))).
        { rewrite <- (live_later _ T (callTime c) hist HT), Hlive.
          now rewrite (live_later _ T (callTime c) _ HT). }
        lia.
Qed.

(** X15. In every window of [windowMs] milliseconds at most [maxRequests]
    requests are allowed, whatever the calls, as long as the clock does not
    run backwards. *)
Theorem limiter_sliding_window (P : Platform) (maxRequests windowMs : Z)
    (calls : list Call) (x : Z) :
  Sorted Z.le (map callTime calls) ->
  (Z.of_nat (List.length
     (within windowMs x (granted P calls (create maxRequests windowMs))))
   <= Z.max 0 maxRequests)%Z.
Proof.
  intros Hsorted.
  destruct calls as [|c calls]; [cbn; lia|].
  apply (granted_window P (c :: calls) (create maxRequests windowMs) [] (callTime c) x).
  - constructor; [exact Hsorted|]. constructor. cbn. lia.
  - reflexivity.
  - cbn. lia.
Qed.

Lemma limiter_sliding_window_witness :
  (List.length
     (within 1000 1500
        (granted examplePlatform
           [CheckLimit 0; CheckLimit 100; CheckLimit 200; GetRemainingRequests 300;
            CheckLimit 1050; CheckLimit 1100; CheckLimit 1200]
           (create 2 1000))) = 2)%nat
  /\ (Z.of_nat (List.length
        (within 1000 1500
           (granted examplePlatform
              [CheckLimit 0; CheckLimit 100; CheckLimit 200; GetRemainingRequests 300;
               CheckLimit 1050; CheckLimit 1100; CheckLimit 1200]
              (create 2 1000))))
      <= Z.max 0 2)%Z.
Proof.
  split; [reflexivity|].
  apply (limiter_sliding_window examplePlatform 2 1000
           [CheckLimit 0; CheckLimit 100; CheckLimit 200; GetRemainingRequests 300;
            CheckLimit 1050; CheckLimit 1100; CheckLimit 1200] 1500).
  cbn. repeat constructor; lia.
Defined.


Lemma live_all (w now : Z) (l : list Z) :
  (forall a, In a l -> (now - a < w)%Z) -> live w now l = l.
Proof.
  intros H. unfold live. induction l as [|a l IH]; [reflexivity|].
  cbn [filter]. destruct (Z.ltb_spec (now - a) w) as [_|Hge].
  - f_equal. apply IH. intros b Hb. apply H. now right.
  - specialize (H a (or_introl eq_refl)). lia.
Qed.

Lemma live_in (w now a : Z) (l : list Z) :
  In a (live w now l) <-> In a l /\ (now - a < w)%Z.
Proof.
  unfold live. rewrite filter_In. now rewrite Z.ltb_lt.
Qed.

(** What [checkLimit] answers. *)
Lemma checkLimit_verdict (P : Platform) (now : Z) (st : State) :
  let kept := inWindow now st in
  (N.of_nat (List.length kept) <= maxArguments P)%N ->
  exists v, fst (checkLimit P now st) = inr v
    /\ (allowed v = true <-> (Z.of_nat (List.length kept) < maxRequests st)%Z).
Proof.
  intros kept Hargs. unfold checkLimit.
  cbn [requests withRequests maxRequests windowMs]. fold kept.
  destruct (Z.leb_spec (maxRequests st) (Z.of_nat (List.length kept))).
  - destruct (N.ltb_spec (maxArguments P) (N.of_nat (List.length kept))); [lia|].
    eexists. split; [reflexivity|]. cbn. split; [discriminate | lia].
  - eexists. split; [reflexivity|]. cbn. split; [lia | reflexivity].
Qed.

(** X16. The delay that a refusal announces is exact: a request is allowed
    from that delay on, and refused before. *)
Theorem limiter_retry_after_exact (P : Platform) (st st' : State) (now r : Z) :
  bounded st ->
  checkLimit P now st
  = (inr {| allowed := false; retryAfter := Some (Finite r) |}, st') ->
  (0 < r)%Z
  /\ forall now', (now <= now')%Z ->
       exists v, fst (checkLimit P now' st') = inr v
         /\ (allowed v = true <-> (now + r <= now')%Z).
Proof.
  intros Hb Hcheck. unfold checkLimit in Hcheck.
  cbn [requests withRequests maxRequests windowMs] in Hcheck.
  rewrite inWindow_live in Hcheck.
  set (kept := live (windowMs st) now (requests st)) in *.
  destruct (Z.leb_spec (maxRequests st) (Z.of_nat (List.length kept))) as [Hfull|];
    [|discriminate].
  destruct (N.ltb_spec (maxArguments P) (N.of_nat (List.length kept))) as [|Hargs];
    [discriminate|].
  injection Hcheck as Hr <-.
  pose proof (minOf_spec kept) as Hmin.
  destruct (minOf kept) as [o|]; [|discriminate].
  cbn in Hr. injection Hr as Hr. destruct Hmin as (Hin & Hleast).
  pose proof (proj1 (live_in _ _ _ _) Hin) as (_ & Hlive).
  assert (Hlen : Z.of_nat (List.length kept) = maxRequests st).
  { pose proof (live_length (windowMs st) now (requests st)) as Hle.
    fold kept in Hle. unfold bounded in Hb.
    destruct kept; [destruct Hin | cbn [List.length] in *; lia]. }
  split; [lia|]. intros now' Hnow'.
  destruct (checkLimit_verdict P now' (withRequests kept st)) as (v & Hv & Hallowed).
  { cbn zeta. rewrite inWindow_live. cbn [requests withRequests windowMs].
    pose proof (live_length (windowMs st) now' kept). lia. }
  exists v. split; [exact Hv|]. rewrite Hallowed.
  rewrite inWindow_live. cbn [requests withRequests windowMs maxRequests].
  split.
  - intros Hlt. destruct (Z.le_gt_cases (now + r) now') as [|Hearly]; [assumption|].
    exfalso. rewrite live_all in Hlt; [lia|].
    intros a Ha. specialize (Hleast a Ha). lia.
  - intros Hlate.
    assert (Hdrop : (List.length (live (windowMs st) now' kept) < List.length kept)%nat).
    { apply (filter_drops _ kept o Hin). apply Z.ltb_ge. lia. }
    lia.
Qed.

Lemma limiter_retry_after_exact_witness :
  (0 < 800)%Z
  /\ forall now', (300 <= now')%Z ->
       exists v,
         fst (checkLimit examplePlatform now'
                fullLimiter)
         = inr v
         /\ (allowed v = true <-> (300 + 800 <= now')%Z).
Proof.
  apply (limiter_retry_after_exact examplePlatform
           fullLimiter
           fullLimiter 300 800).
  - unfold bounded. cbn. lia.
  - reflexivity.
Defined.

(** Every call keeps the list within [maxRequests]. *)
Lemma call_bounded (P : Platform) (c : Call) (st : State) :
  bounded st -> bounded (snd (call P c st)).
Proof.
  unfold bounded. intros Hb.
  destruct (call_frame P c st) as (_ & ->).
  pose proof (live_length (windowMs st) (callTime c) (requests st)) as Hle.
  destruct (call_spec P c st) as [(_ & ->)|(_ & -> & Hlt)]; cbn zeta.
  - lia.
  - rewrite length_app. cbn [List.length]. lia.
Qed.

Lemma after_bounded (P : Platform) (calls : list Call) (st : State) :
  bounded st -> bounded (after P calls st).
Proof.
  unfold after. revert st. induction calls as [|c calls IH]; intros st Hb;
    cbn [fold_left]; [exact Hb|].
  apply IH. now apply call_bounded.
Qed.

Lemma live_idem (w now : Z) (l : list Z) : live w now (live w now l) = live w now l.
Proof. apply live_later. lia. Qed.

(** X17. [getRemainingRequests] is positive exactly when [checkLimit] at the
    same instant allows a request; asking does not change the answer; and
    an allowed request lowers it by one. *)
Theorem limiter_remaining_agrees (P : Platform) (now : Z) (st : State) :
  match fst (checkLimit P now st) with
  | inr v => allowed v = (0 <? fst (getRemainingRequests now st))%Z
  | inl _ => fst (getRemainingRequests now st) = 0%Z
  end
  /\ checkLimit P now (snd (getRemainingRequests now st)) = checkLimit P now st
  /\ ((0 < windowMs st)%Z ->
      fst (checkLimit P now st) = inr {| allowed := true; retryAfter := None |} ->
      fst (getRemainingRequests now (snd (checkLimit P now st)))
      = (fst (getRemainingRequests now st) - 1)%Z).
Proof.
  split; [|split].
  - unfold checkLimit, getRemainingRequests.
    cbn [requests withRequests maxRequests windowMs fst].
    destruct (Z.leb_spec (maxRequests st) (Z.of_nat (List.length (inWindow now st)))).
    + destruct (maxArguments P <? _)%N; cbn [fst allowed].
      * lia.
      * symmetry. apply Z.ltb_ge. lia.
    + cbn [fst allowed]. symmetry. apply Z.ltb_lt. lia.
  - unfold checkLimit, getRemainingRequests.
    cbn [requests withRequests maxRequests windowMs fst snd].
    unfold withRequests. cbn [requests maxRequests windowMs].
    rewrite !inWindow_live. cbn [requests windowMs]. now rewrite live_idem.
  - intros Hw Hallowed. unfold checkLimit, getRemainingRequests in *.
    cbn [requests withRequests maxRequests windowMs fst snd] in *.
    destruct (Z.leb_spec (maxRequests st) (Z.of_nat (List.length (inWindow now st)))).
    + destruct (maxArguments P <? _)%N; discriminate.
    + cbn [snd]. rewrite !inWindow_live. cbn [requests withRequests windowMs maxRequests].
      rewrite live_app, live_idem. rewrite inWindow_live in *.
      unfold live at 2. cbn [filter].
      destruct (Z.ltb_spec (now - now) (windowMs st)); [|lia].
      rewrite length_app. cbn [List.length]. lia.
Qed.

Lemma limiter_remaining_agrees_witness :
  fst (getRemainingRequests 300
         (snd (checkLimit examplePlatform 300
                 openLimiter)))
  = (fst (getRemainingRequests 300
            openLimiter) - 1)%Z.
Proof.
  refine (proj2 (proj2 (limiter_remaining_agrees examplePlatform 300
            openLimiter)) _ _).
  - cbn. lia.
  - reflexivity.
Defined.

(** X18. [getResetTime] is 0 when no request is recorded; otherwise it is the
    oldest recorded request plus the window, and from that time on a request
    is allowed. *)
Theorem limiter_reset_time (P : Platform) (st : State) :
  (requests st = [] -> getResetTime P st = inr (Finite 0))
  /\ (forall t, bounded st -> requests st <> [] ->
        getResetTime P st = inr (Finite t) ->
        (exists o, In o (requests st) /\ (forall a, In a (requests st) -> (o <= a)%Z)
                   /\ t = (o + windowMs st)%Z)
        /\ forall now, (t <= now)%Z ->
             fst (checkLimit P now st) = inr {| allowed := true; retryAfter := None |}).
Proof.
  split.
  - intros H. unfold getResetTime. now rewrite H.
  - intros t Hb Hne Hreset. unfold getResetTime in Hreset.
    destruct (requests st) as [|a0 l] eqn:Ereq; [congruence|].
    cbn [List.length Nat.eqb] in Hreset.
    destruct (maxArguments P <? _)%N; [discriminate|].
    pose proof (minOf_spec (a0 :: l)) as Hmin.
    destruct (minOf (a0 :: l)) as [o|]; [|discriminate].
    cbn in Hreset. injection Hreset as <-. destruct Hmin as (Hin & Hleast).
    split; [exists o; auto|].
    intros now Hnow. unfold checkLimit.
    cbn [requests withRequests maxRequests windowMs].
    rewrite inWindow_live, Ereq.
    assert (Hdrop : (List.length (live (windowMs st) now (a0 :: l))
                     < List.length (a0 :: l))%nat).
    { apply (filter_drops _ (a0 :: l) o Hin). apply Z.ltb_ge. lia. }
    unfold bounded in Hb. rewrite Ereq in Hb.
    destruct (Z.leb_spec (maxRequests st)
                (Z.of_nat (List.length (live (windowMs st) now (a0 :: l))))); [lia|].
    reflexivity.
Qed.

Lemma limiter_reset_time_witness :
  getResetTime examplePlatform fullLimiter = inr (Finite 1100)
  /\ fst (checkLimit examplePlatform 1500 fullLimiter)
     = inr {| allowed := true; retryAfter := None |}.
Proof.
  split; [reflexivity|].
  refine (proj2 (proj2 (limiter_reset_time examplePlatform fullLimiter)
                   1100%Z _ _ _) 1500%Z _).
  - unfold bounded. cbn. lia.
  - discriminate.
  - reflexivity.
  - lia.
Defined.

End LimiterProofs.

(** ** The request queue: statistics and maintenance *)

Section QueueMoreProofs.

Import JSON RequestQueue QueueFacts.

(** *** The statistics *)


Lemma makeRequest_counters (it : Item) (o : Oracle) (st : State) :
  let st' := snd (makeRequest it o st) in
  sameCounters (stats st) (stats st')
  /\ isProcessing st' = isProcessing st
  /\ responseTimes st' = responseTimes st
  /\ averageResponseTime (stats st') = averageResponseTime (stats st)
  /\ (clock st <= clock st')%Z.
Proof.
  unfold makeRequest, sameCounters.
  destruct (timeout it <=? latency o)%Z; [cbn; repeat split; lia|].
  destruct (outcome o) as [e|status text ra body]; [cbn; repeat split; lia|].
  destruct (status =? 429)%Z; [cbn; repeat split; lia|].
  destruct (negb _); cbn; repeat split; lia.
Qed.









(** *** The response times *)

Lemma updateAverageResponseTime_spec (st : State) :
  responseTimes st <> [] ->
  responseTimes (updateAverageResponseTime st) = responseTimes st
  /\ averageResponseTime (stats (updateAverageResponseTime st))
     = roundedMean (responseTimes st).
Proof.
  intros Hne. unfold updateAverageResponseTime, roundedMean.
  destruct (responseTimes st) eqn:E; [congruence|]. cbn. rewrite E. split; reflexivity.
Qed.

(** What the rest of [processQueue] does to the window of response times. *)
Lemma processQueue_rest_times (env : Env) (st : State) (it : Item) :
  inflight st = Some it ->
  let st' := processQueue_rest env st in
  match requestResult (timeout it) (env (handle it) (retries it)) with
  | inr _ =>
      exists responseTime,
        (0 <= responseTime)%Z
        /\ responseTimes st'
           = (if (100 <? List.length (responseTimes st ++ [responseTime]))%nat
              then tl (responseTimes st ++ [responseTime])
              else responseTimes st ++ [responseTime])%list
        /\ averageResponseTime (stats st') = roundedMean (responseTimes st')
  | inl _ =>
      responseTimes st' = responseTimes st
      /\ averageResponseTime (stats st') = averageResponseTime (stats st)
  end.
Proof.
  intros Hin. unfold processQueue_rest. rewrite Hin.
  set (o := env (handle it) (retries it)).
  set (st0 := withInflight None st).
  set (st1 := if Js.num_positive (rateLimitBackoff st0) then _ else st0).
  assert (H1 : stats st1 = stats st /\ responseTimes st1 = responseTimes st).
  { unfold st1. destruct (Js.num_positive _); [|cbn; repeat split].
    destruct (rateLimitBackoff st0); cbn; repeat split. }
  set (st2 := if (clock st1 - lastRequestTime st1 <? requiredDelay o)%Z then _ else st1).
  assert (H2 : stats st2 = stats st /\ responseTimes st2 = responseTimes st).
  { unfold st2. destruct (_ <? _)%Z; cbn; repeat split; apply H1. }
  clearbody st2. clear st1 H1 st0.
  set (item := withStartTime (clock st2) it).
  set (st3 := emit _ (withLastRequestTime (clock st2) st2)).
  assert (H3 : stats st3 = stats st /\ responseTimes st3 = responseTimes st
               /\ clock st3 = clock st2) by (cbn; split; [|split]; try apply H2; reflexivity).
  pose proof (makeRequest_result item o st3) as Hres.
  pose proof (makeRequest_counters item o st3) as Hcnt. cbv zeta in Hcnt.
  destruct (makeRequest item o st3) as [res st4]. cbn [fst snd] in Hres, Hcnt.
  change (timeout item) with (timeout it) in Hres. subst res.
  destruct Hcnt as (_ & _ & Hrt & Havg & Hclock).
  destruct H3 as (Hst3 & Hrt3 & Hc3). rewrite Hst3, Hrt3, Hc3 in *.
  destruct (requestResult (timeout it) o) as [e|r].
  - unfold handleRequestError.
    destruct (_ && _); cbn; split; congruence.
  - exists (clock st4 - clock st2)%Z. split; [lia|].
    set (times := if (100 <? _)%nat then _ else _).
    assert (Htimes : times
                     = if (100 <? List.length (responseTimes st ++ [(clock st4 - clock st2)%Z]))%nat
                       then tl (responseTimes st ++ [(clock st4 - clock st2)%Z])
                       else (responseTimes st ++ [(clock st4 - clock st2)%Z])%list).
    { unfold times. cbn [startTime item withStartTime]. now rewrite Hrt. }
    assert (Hne : times <> []).
    { rewrite Htimes. destruct (Nat.ltb_spec 100 (List.length (responseTimes st ++ [(clock st4 - clock st2)%Z]))) as [Hlt|_].
      - destruct (responseTimes st ++ [(clock st4 - clock st2)%Z])%list as [|x [|y l]];
          cbn in *; try lia. discriminate.
      - destruct (responseTimes st); discriminate. }
    clearbody times.
    set (st5 := withStats _ (withResponseTimes times st4)).
    assert (H5 : responseTimes st5 = times) by reflexivity.
    destruct (updateAverageResponseTime_spec st5) as (U1 & U2); [now rewrite H5|].
    cbn [emit responseTimes stats]. rewrite U1, U2, H5. split; [exact Htimes | reflexivity].
Qed.

Lemma roundedMean_bounds (l : list Z) (a b : Z) :
  l <> [] -> (forall x, In x l -> (a <= x <= b)%Z) -> (a <= roundedMean l <= b)%Z.
Proof.
  intros Hne Hall. unfold roundedMean.
  assert (Hsum : forall acc,
             (acc + Z.of_nat (List.length l) * a <= fold_left Z.add l acc
              <= acc + Z.of_nat (List.length l) * b)%Z).
  { clear Hne. induction l as [|x l IH]; intros acc; cbn [fold_left List.length]; [lia|].
    specialize (IH (fun y Hy => Hall y (or_intror Hy)) (acc + x)%Z).
    specialize (Hall x (or_introl eq_refl)). lia. }
  specialize (Hsum 0%Z).
  assert (Hn : (0 < Z.of_nat (List.length l))%Z)
    by (destruct l; [congruence | cbn [List.length]; lia]).
  split.
  - apply Z.div_le_lower_bound; lia.
  - apply Z.lt_succ_r. apply Z.div_lt_upper_bound; lia.
Qed.

Lemma timed_reachable (st : State) : reachable st -> timed st.
Proof.
  induction 1 as [|u options now st Hr IH|env st Hr IH].
  - unfold timed. cbn. repeat split. constructor.
  - destruct (wellFormed_busy_reachable st Hr) as ((Hc & _) & Hb).
    destruct (enqueue_spec u options now st Hc Hb) as (Htr & _).
    assert (Hsame : responseTimes (enqueue u options now st) = responseTimes st
                    /\ averageResponseTime (stats (enqueue u options now st))
                       = averageResponseTime (stats st)).
    { unfold enqueue.
      match goal with |- context [if ?c then _ else _] => destruct c end;
        [unfold processQueue_begin;
         match goal with |- context [match ?q with [] => _ | _ => _ end] => destruct q end|];
        cbn; split; reflexivity. }
    destruct Hsame as (Hrt & Havg). unfold timed, resolvedCount.
    rewrite Hrt, Havg, Htr. exact IH.
  - destruct (workerCycle_spec env st) as (_ & Hspec).
    assert (Hbegin : forall s, responseTimes (processQueue_begin s) = responseTimes s
                               /\ averageResponseTime (stats (processQueue_begin s))
                                  = averageResponseTime (stats s)).
    { intros s. unfold processQueue_begin. destruct (queue s); cbn; split; reflexivity. }
    destruct (Hbegin (sleep 100 (processQueue_rest env st))) as (Hrt & Havg).
    change (processQueue_begin (sleep 100 (processQueue_rest env st)))
      with (workerCycle env st) in Hrt, Havg.
    change (responseTimes (sleep 100 (processQueue_rest env st)))
      with (responseTimes (processQueue_rest env st)) in Hrt.
    change (stats (sleep 100 (processQueue_rest env st)))
      with (stats (processQueue_rest env st)) in Havg.
    destruct IH as (Hlen & Hpos & Hmean).
    unfold timed. rewrite Hrt, Havg.
    destruct (inflight st) as [it|] eqn:E.
    + pose proof (processQueue_rest_times env st it E) as Hrest. cbv zeta in Hrest.
      destruct Hspec as (t & _ & Hspec).
      destruct (requestResult (timeout it) (env (handle it) (retries it))) as [e|r].
      * destruct Hrest as (-> & ->).
        assert (Hrc : resolvedCount (workerCycle env st) = resolvedCount st).
        { destruct (_ && _); destruct Hspec as (_ & Htr');
            unfold resolvedCount; rewrite Htr'; reflexivity. }
        rewrite Hrc. repeat split; assumption.
      * destruct Hrest as (rt & Hrt0 & Htimes & Hmean').
        destruct Hspec as (_ & Htr').
        assert (Hrc : resolvedCount (workerCycle env st) = S (resolvedCount st)).
        { unfold resolvedCount. rewrite Htr'. reflexivity. }
        rewrite Hrc, Hmean', Htimes.
        assert (Hlen' : List.length (responseTimes st ++ [rt]) = S (List.length (responseTimes st)))
          by (rewrite length_app; cbn; lia).
        destruct (Nat.ltb_spec 100 (List.length (responseTimes st ++ [rt]))) as [Hfull|Hroom].
        -- destruct (responseTimes st) as [|x l] eqn:Ert; [cbn in Hfull; lia|].
           cbn [app tl] in *. cbn [List.length] in Hlen, Hlen', Hfull.
           split; [rewrite length_app; cbn [List.length]; lia|].
           split.
           ++ apply Forall_app. split; [now inversion Hpos | repeat constructor; lia].
           ++ destruct (l ++ [rt])%list eqn:El; [|reflexivity].
              destruct l; discriminate.
        -- split; [lia|]. split.
           ++ apply Forall_app. split; [assumption | repeat constructor; lia].
           ++ destruct (responseTimes st ++ [rt])%list eqn:El; [|reflexivity].
              destruct (responseTimes st); discriminate.
    + assert (Hrest : processQueue_rest env st = st)
        by (unfold processQueue_rest; now rewrite E).
      rewrite Hrest. destruct Hspec as (_ & Htr').
      unfold resolvedCount. rewrite Htr'. repeat split; assumption.
Qed.

(** X20. The window of response times holds one time for each successful
    request, up to the last 100; no time is negative; the average response
    time of the statistics is 0 before the first success and afterwards the
    mean of the window rounded to the nearest integer, within the range of
    the window. *)
Theorem queue_average_response_time (st : State) :
  reachable st ->
  List.length (responseTimes st) = Nat.min 100 (resolvedCount st)
  /\ (forall t, In t (responseTimes st) -> (0 <= t)%Z)
  /\ averageResponseTime (getStats st)
     = (if (resolvedCount st =? 0)%nat then 0%Z else roundedMean (responseTimes st))
  /\ (forall a b, (forall t, In t (responseTimes st) -> (a <= t <= b)%Z) ->
                  resolvedCount st <> 0%nat ->
                  (a <= averageResponseTime (getStats st) <= b)%Z).
Proof.
  intros Hr. destruct (timed_reachable st Hr) as (Hlen & Hpos & Hmean).
  assert (Havg : averageResponseTime (getStats st)
                 = if (resolvedCount st =? 0)%nat then 0%Z
                   else roundedMean (responseTimes st)).
  { change (averageResponseTime (getStats st)) with (averageResponseTime (stats st)).
    rewrite Hmean. destruct (responseTimes st) as [|x l] eqn:E.
    - cbn [List.length] in Hlen. destruct (resolvedCount st); [reflexivity | lia].
    - cbn [List.length] in Hlen. destruct (resolvedCount st); [lia | reflexivity]. }
  split; [exact Hlen|]. split; [now apply Forall_forall|]. split; [exact Havg|].
  intros a b Hall Hne. rewrite Havg.
  destruct (Nat.eqb_spec (resolvedCount st) 0); [contradiction|].
  apply roundedMean_bounds; [|exact Hall].
  intros Hnil. rewrite Hnil in Hlen. cbn [List.length] in Hlen. lia.
Qed.

Lemma queue_average_response_time_witness :
  (120 <= averageResponseTime (getStats afterTwo) <= 120)%Z.
Proof.
  refine (proj2 (proj2 (proj2 (queue_average_response_time afterTwo _))) 120%Z 120%Z _ _).
  - unfold afterTwo. repeat constructor.
  - vm_compute. intros t [<-|[]]. split; discriminate.
  - vm_compute. discriminate.
Defined.

(** *** Clearing the queue *)

Lemma settlements_filter (h : nat) (st : State) :
  settlements h st = rev (filter (settles h) (trace st)).
Proof. reflexivity. Qed.

Lemma settlements_cons (h : nat) (e : Event) (st st' : State) :
  trace st' = e :: trace st ->
  settlements h st' = (settlements h st ++ if settles h e then [e] else [])%list.
Proof.
  intros H. rewrite !settlements_filter, H. cbn [filter].
  destruct (settles h e); cbn [rev]; [reflexivity | now rewrite app_nil_r].
Qed.

(** No promise of the pool is settled. *)
Lemma unsettled_reachable (st : State) :
  reachable st -> forall it, In it (pool st) -> settlements (handle it) st = [].
Proof.
  induction 1 as [|u options now st Hr IH|env st Hr IH]; intros x Hx.
  - destruct Hx.
  - destruct (wellFormed_busy_reachable st Hr) as ((Hc & Hnd & Hpool & Htrace) & Hb).
    destruct (enqueue_spec u options now st Hc Hb) as (Htr & Hnh & _ & _ & Hcase).
    assert (Hsame : forall h, settlements h (enqueue u options now st) = settlements h st)
      by (intros h; rewrite !settlements_filter; now rewrite Htr).
    rewrite Hsame.
    assert (Hcases : x = newItem u options st \/ In x (pool st)).
    { unfold pool in *. destruct (inflight st) as [it|] eqn:E; destruct Hcase as (Hi & Hq);
        rewrite Hi, Hq in Hx.
      - destruct Hx as [<-|Hx]; [right; now left|].
        eapply Permutation_in in Hx; [|apply insertSorted_perm].
        destruct Hx as [<-|Hx]; [now left | right; now right].
      - destruct Hx as [<-|[]]. now left. }
    destruct Hcases as [->|Hin]; [|now apply IH].
    apply (no_event_of_handle (nextHandle st) st). exact Htrace.
  - destruct (wellFormed_busy_reachable st Hr) as ((Hc & Hnd & Hpool & Htrace) & Hb).
    destruct (workerCycle_spec env st) as (_ & Hspec).
    destruct (inflight st) as [it|] eqn:E.
    + assert (Hp : pool st = it :: queue st) by (unfold pool; now rewrite E).
      rewrite Hp in Hnd, IH. cbn [map] in Hnd. apply NoDup_cons_iff in Hnd.
      destruct Hnd as (Hnin & _).
      assert (Hother : forall y, In y (queue st) -> Nat.eqb (handle y) (handle it) = false).
      { intros y Hy. apply Nat.eqb_neq. intros Heq. apply Hnin. rewrite <- Heq.
        now apply in_map. }
      destruct Hspec as (t & _ & Hspec).
      assert (Hd : forall h, settlements h (emit (Dispatched (handle it) (retries it) t) st)
                             = settlements h st) by reflexivity.
      destruct (requestResult _ _) as [e|r]; [destruct (_ && _)|];
        destruct Hspec as (Hp' & Htr'); rewrite Hp' in Hx.
      * rewrite (settlements_cons _ _ st _ Htr'). cbn [settles]. rewrite app_nil_r.
        eapply Permutation_in in Hx; [|apply insertSorted_perm].
        destruct Hx as [<-|Hx]; [|apply IH; now right].
        change (handle (bumped it t)) with (handle it). apply IH. now left.
      * rewrite (settlements_cons _ _ (emit (Dispatched (handle it) (retries it) t) st) _ Htr').
        rewrite Hd. cbn [settles]. rewrite (Hother x Hx), app_nil_r. apply IH. now right.
      * rewrite (settlements_cons _ _ (emit (Dispatched (handle it) (retries it) t) st) _ Htr').
        rewrite Hd. cbn [settles]. rewrite (Hother x Hx), app_nil_r. apply IH. now right.
    + destruct Hspec as (Hp' & Htr'). rewrite Hp' in Hx.
      rewrite settlements_filter, Htr', <- settlements_filter.
      apply IH. unfold pool. now rewrite E.
Qed.

Lemma clear_trace (st : State) :
  trace (clear st) = (rev (clearings (queue st)) ++ trace st)%list
  /\ queue (clear st) = []
  /\ inflight (clear st) = inflight st
  /\ isProcessing (clear st) = false
  /\ stats (clear st) = withStatsIsProcessing false (withQueueLength 0 (stats st)).
Proof.
  unfold clear.
  assert (H : forall q s,
             let s' := fold_left
                         (fun st item =>
                            emit (Rejected (handle item) (Js.newError "Queue cleared")) st)
                         q s in
             trace s' = (rev (clearings q) ++ trace s)%list
             /\ inflight s' = inflight s /\ stats s' = stats s).
  { induction q as [|x q IH]; intros s; cbn [fold_left clearings map rev].
    - repeat split.
    - destruct (IH (emit (Rejected (handle x) (Js.newError "Queue cleared")) s))
        as (I1 & I2 & I3).
      cbn zeta. rewrite I1, I2, I3. cbn [emit trace inflight stats].
      rewrite <- app_assoc. repeat split. }
  destruct (H (queue st) st) as (H1 & H2 & H3). cbn zeta in *.
  cbn. rewrite H1, H2, H3. repeat split.
Qed.

Lemma filter_settles_clearings (h : nat) (q : list Item) :
  NoDup (map handle q) ->
  filter (settles h) (clearings q)
  = if existsb (Nat.eqb h) (map handle q) then [Rejected h cleared] else [].
Proof.
  induction q as [|x q IH]; intros Hnd; [reflexivity|].
  cbn [map] in Hnd. apply NoDup_cons_iff in Hnd. destruct Hnd as (Hnin & Hnd).
  cbn [clearings map filter settles existsb]. fold (clearings q). rewrite (IH Hnd).
  destruct (Nat.eqb_spec h (handle x)) as [->|Hne]; cbn [orb]; [|reflexivity].
  destruct (existsb (Nat.eqb (handle x)) (map handle q)) eqn:E; [|reflexivity].
  exfalso. apply Hnin. apply existsb_exists in E. destruct E as (y & Hy & Heq).
  apply Nat.eqb_eq in Heq. now subst.
Qed.

(** X21. [clear] empties the queue and rejects each waiting promise once,
    with the error "Queue cleared", in queue order; it leaves the request in
    flight and the settled promises alone; it counts none of the promises
    that it rejects as failed. *)
Theorem queue_clear (st : State) :
  reachable st ->
  let st' := clear st in
  queue st' = []
  /\ inflight st' = inflight st
  /\ getStats st' = withStatsIsProcessing false (withQueueLength 0 (stats st))
  /\ (forall it, In it (queue st) ->
        settlements (handle it) st' = [Rejected (handle it) cleared])
  /\ (forall h, ~ In h (map handle (queue st)) -> settlements h st' = settlements h st)
  /\ dispatchOrder st' = dispatchOrder st
  /\ rejectedCount st' = (rejectedCount st + List.length (queue st))%nat
  /\ failedRequests (stats st') = failedRequests (stats st).
Proof.
  intros Hr st'. subst st'.
  destruct (clear_trace st) as (Htr & Hq & Hin & Hip & Hst).
  destruct (wellFormed_busy_reachable st Hr) as ((Hc & Hnd & _) & _).
  assert (Hndq : NoDup (map handle (queue st))).
  { unfold pool in Hnd. destruct (inflight st); [|exact Hnd].
    cbn [map] in Hnd. now apply NoDup_cons_iff in Hnd. }
  assert (Hsettle : forall h,
             settlements h (clear st)
             = (settlements h st
                ++ if existsb (Nat.eqb h) (map handle (queue st))
                   then [Rejected h cleared] else [])%list).
  { intros h. rewrite !settlements_filter, Htr, filter_app, rev_app_distr.
    f_equal. assert (Hrev : forall l, filter (settles h) (rev l) = rev (filter (settles h) l)).
    { induction l as [|x l IH]; [reflexivity|]. cbn [rev filter].
      rewrite filter_app, IH. cbn [filter]. destruct (settles h x); cbn [rev];
        [reflexivity | now rewrite app_nil_r]. }
    rewrite Hrev, rev_involutive. now apply filter_settles_clearings. }
  split; [exact Hq|]. split; [exact Hin|]. split.
  { unfold getStats. rewrite Hq, Hip, Hst. reflexivity. }
  split; [|split; [|split; [|split]]].
  - intros it Hit. rewrite Hsettle.
    rewrite (unsettled_reachable st Hr it) by (unfold pool; destruct (inflight st);
                                                [now right | assumption]).
    assert (E : existsb (Nat.eqb (handle it)) (map handle (queue st)) = true).
    { apply existsb_exists. exists (handle it). split; [now apply in_map | apply Nat.eqb_refl]. }
    now rewrite E.
  - intros h Hh. rewrite Hsettle.
    assert (E : existsb (Nat.eqb h) (map handle (queue st)) = false).
    { apply not_true_is_false. intros E. apply existsb_exists in E.
      destruct E as (y & Hy & Heq). apply Nat.eqb_eq in Heq. now subst. }
    rewrite E. apply app_nil_r.
  - unfold dispatchOrder. rewrite Htr, flat_map_app. f_equal.
    assert (Hnone : forall q,
               flat_map (fun e => match e with Dispatched h _ _ => [h] | _ => [] end)
                 (rev (clearings q)) = []).
    { induction q as [|x q IH]; [reflexivity|].
      cbn [clearings map rev]. rewrite flat_map_app. fold (clearings q). rewrite IH.
      reflexivity. }
    now rewrite Hnone.
  - unfold rejectedCount. rewrite Htr, filter_app, length_app.
    assert (Hall : forall q, List.length
                     (filter (fun e => match e with Rejected _ _ => true | _ => false end)
                        (rev (clearings q))) = List.length q).
    { induction q as [|x q IH]; [reflexivity|].
      cbn [clearings map rev]. rewrite filter_app, length_app. fold (clearings q).
      rewrite IH. cbn. lia. }
    rewrite Hall. lia.
  - now rewrite Hst.
Qed.

Lemma queue_clear_witness :
  rejectedCount (clear threeEnqueued) = 2%nat
  /\ failedRequests (stats (clear threeEnqueued)) = 0%Z.
Proof.
  assert (Hr : reachable threeEnqueued) by (unfold threeEnqueued; repeat constructor).
  split.
  - exact (proj1 (proj2 (proj2 (proj2 (proj2 (proj2 (proj2 (queue_clear threeEnqueued Hr)))))))).
  - exact (proj2 (proj2 (proj2 (proj2 (proj2 (proj2 (proj2 (queue_clear threeEnqueued Hr)))))))).
Defined.

(** *** Pausing *)






(** *** Reordering *)

Lemma insertByPriority_perm (x : Item) (l : list Item) :
  Permutation (insertByPriority x l) (x :: l).
Proof.
  induction l as [|y l IH]; cbn [insertByPriority]; [reflexivity|].
  destruct (priority x <? priority y)%Z; [|reflexivity].
  rewrite IH. apply perm_swap.
Qed.

Lemma sortByPriority_perm (l : list Item) : Permutation (sortByPriority l) l.
Proof.
  unfold sortByPriority. induction l as [|x l IH]; cbn [fold_right]; [reflexivity|].
  rewrite insertByPriority_perm. now apply perm_skip.
Qed.

Lemma insertByPriority_sorted (x : Item) (l : list Item) :
  StronglySorted byPriority l -> StronglySorted byPriority (insertByPriority x l).
Proof.
  induction 1 as [|y l Hs IH Hall]; cbn [insertByPriority].
  - repeat constructor.
  - destruct (Z.ltb_spec (priority x) (priority y)) as [Hlt|Hge].
    + constructor; [exact IH|].
      apply Forall_forall. intros z Hz.
      eapply Permutation_in in Hz; [|apply insertByPriority_perm].
      destruct Hz as [<-|Hz]; [unfold byPriority; lia|].
      rewrite Forall_forall in Hall. now apply Hall.
    + constructor; [now constructor|].
      constructor; [unfold byPriority; lia|].
      apply Forall_forall. intros z Hz. rewrite Forall_forall in Hall.
      specialize (Hall z Hz). unfold byPriority in *. lia.
Qed.

Lemma sortByPriority_sorted (l : list Item) : StronglySorted byPriority (sortByPriority l).
Proof.
  unfold sortByPriority. induction l as [|x l IH]; cbn [fold_right]; [constructor|].
  now apply insertByPriority_sorted.
Qed.

Lemma ofPriority_insert (p : Z) (x : Item) (l : list Item) :
  ofPriority p (insertByPriority x l)
  = ((if (priority x =? p)%Z then [x] else []) ++ ofPriority p l)%list.
Proof.
  unfold ofPriority. induction l as [|y l IH]; cbn [insertByPriority filter].
  - destruct (priority x =? p)%Z; reflexivity.
  - destruct (Z.ltb_spec (priority x) (priority y)) as [Hlt|Hge]; cbn [filter].
    + rewrite IH. destruct (Z.eqb_spec (priority y) p) as [Hy|Hy]; [|reflexivity].
      destruct (Z.eqb_spec (priority x) p); [lia | reflexivity].
    + destruct (priority x =? p)%Z; reflexivity.
Qed.

Lemma ofPriority_sort (p : Z) (l : list Item) :
  ofPriority p (sortByPriority l) = ofPriority p l.
Proof.
  unfold sortByPriority. induction l as [|x l IH]; cbn [fold_right]; [reflexivity|].
  rewrite ofPriority_insert, IH. unfold ofPriority. cbn [filter].
  destruct (priority x =? p)%Z; reflexivity.
Qed.

Lemma sortByPriority_sorted_id (l : list Item) :
  StronglySorted byPriority l -> sortByPriority l = l.
Proof.
  unfold sortByPriority. induction 1 as [|x l Hs IH Hall]; cbn [fold_right]; [reflexivity|].
  rewrite IH. destruct l as [|y l]; [reflexivity|]. cbn [insertByPriority].
  inversion Hall as [|? ? Hy _]; subst. unfold byPriority in Hy.
  destruct (Z.ltb_spec (priority x) (priority y)); [lia | reflexivity].
Qed.

Lemma boost_spec (now : Z) (item : Item) :
  (priority item <= priority (boost now item))%Z
  /\ handle (boost now item) = handle item
  /\ retries (boost now item) = retries item
  /\ (startTime item = None -> boost now item = item).
Proof.
  unfold boost.
  set (waitTime := (now - _)%Z).
  destruct (Z.ltb_spec 30000 waitTime) as [Hlong|Hshort].
  - cbn [priority withPriority handle retries].
    assert (0 <= waitTime / 10000)%Z by (apply Z.div_pos; lia).
    repeat split; try lia.
    intros Hnone. subst waitTime. rewrite Hnone in Hlong. lia.
  - repeat split; lia.
Qed.

(** X23. [optimizeQueue] keeps the requests of the queue, raises by 3 at
    least the priority of those that were dispatched more than 30 seconds
    before, lowers none and leaves alone those that were never dispatched,
    leaves the queue sorted by priority with the requests of equal priority
    in their former order, and changes nothing in a sorted queue where no
    request has waited that long. *)
Theorem queue_optimize (now : Z) (st : State) :
  let st' := optimizeQueue now st in
  Permutation (queue st') (map (boost now) (queue st))
  /\ Permutation (map handle (queue st')) (map handle (queue st))
  /\ StronglySorted byPriority (queue st')
  /\ (forall p, ofPriority p (queue st') = ofPriority p (map (boost now) (queue st)))
  /\ (forall item,
        (priority item <= priority (boost now item))%Z
        /\ (startTime item = None -> boost now item = item)
        /\ (forall t, startTime item = Some t -> t <> 0%Z -> (30000 < now - t)%Z ->
                      (priority item + 3 <= priority (boost now item))%Z))
  /\ (ordered st -> ordered st')
  /\ (StronglySorted byPriority (queue st) ->
      (forall item, In item (queue st) -> boost now item = item) -> st' = st).
Proof.
  cbn zeta. unfold optimizeQueue. cbn [queue withQueue].
  assert (Hperm : Permutation (sortByPriority (map (boost now) (queue st)))
                              (map (boost now) (queue st)))
    by apply sortByPriority_perm.
  split; [exact Hperm|]. split.
  { rewrite (Permutation_map handle Hperm), map_map.
    erewrite map_ext; [reflexivity|]. intros x. apply boost_spec. }
  split; [apply sortByPriority_sorted|].
  split; [intros p; apply ofPriority_sort|].
  split.
  { intros item. split; [apply boost_spec|]. split; [apply boost_spec|].
    intros t Ht Hne Hlong. unfold boost. rewrite Ht.
    destruct (Z.eqb_spec t 0) as [|_]; [contradiction|].
    destruct (Z.ltb_spec 30000 (now - t)) as [_|]; [|lia].
    cbn [priority withPriority].
    assert (3 <= (now - t) / 10000)%Z by (apply Z.div_le_lower_bound; lia). lia. }
  split.
  - intros (_ & Hret). split; [apply sortByPriority_sorted|].
    intros it Hit. unfold pool in *. cbn [inflight withQueue queue] in Hit.
    assert (Hcases : (exists x, In x (queue st) /\ it = boost now x)
                     \/ inflight st = Some it).
    { destruct (inflight st) as [x|].
      - destruct Hit as [<-|Hit]; [now right|]. left.
        eapply Permutation_in in Hit; [|exact Hperm].
        apply in_map_iff in Hit. destruct Hit as (y & <- & Hy). eauto.
      - left. eapply Permutation_in in Hit; [|exact Hperm].
        apply in_map_iff in Hit. destruct Hit as (y & <- & Hy). eauto. }
    destruct Hcases as [(x & Hx & ->)|Hinf].
    + destruct (boost_spec now x) as (_ & _ & -> & _). apply Hret.
      destruct (inflight st); [now right | assumption].
    + apply Hret. rewrite Hinf. now left.
  - intros Hsorted Hsame.
    assert (Hmap : map (boost now) (queue st) = queue st).
    { clear Hsorted Hperm. induction (queue st) as [|x l IH]; [reflexivity|].
      cbn [map]. rewrite (Hsame x (or_introl eq_refl)). f_equal.
      apply IH. intros y Hy. apply Hsame. now right. }
    rewrite Hmap, (sortByPriority_sorted_id _ Hsorted). now destruct st.
Qed.

Lemma queue_optimize_witness :
  map url (queue (optimizeQueue 50000 staleQueue)) = ["b"; "a"]
  /\ ordered (optimizeQueue 50000 staleQueue).
Proof.
  split; [reflexivity|].
  refine (proj1 (proj2 (proj2 (proj2 (proj2 (proj2 (queue_optimize 50000 staleQueue)))))) _).
  unfold ordered, staleQueue. cbn. split.
  - repeat constructor; unfold byPriority; cbn; lia.
  - intros it [<-|[<-|[]]]; cbn; lia.
Defined.

End QueueMoreProofs.

(** ** The connections service: refresh and health *)

Section ServiceMoreProofs.

Import JSON JsonFacts CacheFacts ConnectionsService.
Import ServiceFacts Health.

Lemma batchStep_frame (api : Api) (a : list json) (s c : Z) (w : World) :
  store (snd (batchStep api a s c w)) = store w
  /\ (now w <= now (snd (batchStep api a s c w)))%Z
  /\ (calls w <= calls (snd (batchStep api a s c w)))%nat.
Proof.
  split; [apply batchStep_store|].
  unfold batchStep. destruct (negb _); [cbn; lia|].
  destruct (fetchConnections api (calls w) s batchSize) as [err|conns].
  - destruct (ErrorHandler.handleNetworkError _ _ _ _).
    destruct (_ <=? _)%Z; cbn; lia.
  - destruct (_ =? _)%nat; [cbn; lia|]. destruct (_ <=? _)%nat; cbn; lia.
Qed.

(** What the loop returns when it completes, and what it leaves alone. *)
Lemma batchLoop_result (api : Api) (bound : nat) (fuel : nat) :
  batchesWithin api bound ->
  forall all start cf w,
    (List.length all < 1000)%nat ->
    let r := batchLoop fuel api all start cf w in
    store (snd r) = store w
    /\ (now w <= now (snd r))%Z
    /\ (calls w <= calls (snd r))%nat
    /\ match fst r with
       | Completed all' =>
           (List.length all <= List.length all' < 1000 + bound)%nat
           /\ exists more, all' = (all ++ more)%list
       | _ => True
       end.
Proof.
  intros Hbound. induction fuel as [|fuel IH]; intros all start cf w Hlen.
  - cbn. repeat split; lia.
  - cbv zeta. rewrite batchLoop_S.
    destruct (batchStep_frame api all start cf w) as (Hst & Hnow & Hcalls).
    assert (Hstep :
      match fst (batchStep api all start cf w) with
      | Continue all' _ _ =>
          (List.length all' < 1000)%nat /\ exists more, all' = (all ++ more)%list
      | Break all' =>
          (List.length all' < 1000 + bound)%nat /\ exists more, all' = (all ++ more)%list
      | Throw _ => True
      end).
    { unfold batchStep. destruct (negb _).
      { cbn. split; [lia|]. exists []. now rewrite app_nil_r. }
      destruct (fetchConnections api (calls w) start batchSize) as [err|conns] eqn:E.
      - destruct (ErrorHandler.handleNetworkError _ _ _ _).
        destruct (_ <=? _)%Z; cbn; [exact I|].
        split; [lia|]. exists []. now rewrite app_nil_r.
      - specialize (Hbound _ _ _ _ E).
        destruct (Nat.eqb_spec (List.length conns) 0) as [Hz|Hnz].
        { cbn. split; [lia|]. exists []. now rewrite app_nil_r. }
        destruct (Nat.leb_spec 1000 (List.length (all ++ conns))) as [Hge|Hlt]; cbn.
        + rewrite length_app in *. split; [lia | eauto].
        + split; [exact Hlt | eauto]. }
    destruct (batchStep api all start cf w) as [[all' start' cf'|all'|e] w'];
      cbn [fst snd] in *.
    + destruct Hstep as (Hlen' & more & ->).
      specialize (IH (all ++ more)%list start' cf' w' Hlen'). cbv zeta in IH.
      destruct IH as (I1 & I2 & I3 & I4).
      split; [congruence|]. split; [lia|]. split; [lia|].
      destruct (fst (batchLoop fuel api (all ++ more) start' cf' w')); try exact I.
      destruct I4 as (I4 & more' & ->). rewrite !length_app in *.
      split; [lia|]. exists (more ++ more')%list. now rewrite app_assoc.
    + destruct Hstep as (Hlen' & more & ->). rewrite length_app in *.
      repeat split; try assumption; try lia. eauto.
    + repeat split; assumption.
Qed.

(** A fresh fetch that succeeds. *)
Lemma fetchFresh_success (P : Platform) (api : Api) (w w' : World) (v : json) :
  fetchFresh P api w = (inr v, w') ->
  exists all w1,
    batchLoop loopFuel api [] 0 0 w = (Completed all, w1)
    /\ all <> [] /\ v = Arr all
    /\ w' = withStore (CacheManager.set P CONNECTIONS_CACHE_KEY (Arr all)
                         CacheManager.DEFAULT_TTL (now w1) (store w1)) w1.
Proof.
  unfold fetchFresh, throwHandled.
  destruct (batchLoop loopFuel api [] 0 0 w) as [[all|e|] w1].
  - destruct all as [|c all]; cbn [List.length Nat.eqb].
    + destruct (ErrorHandler.handleNetworkError _ _ _ _). discriminate.
    + intros [= <- <-]. exists (c :: all), w1. repeat split. discriminate.
  - destruct (ErrorHandler.handleNetworkError _ _ _ _). discriminate.
  - destruct (ErrorHandler.handleNetworkError _ _ _ _). discriminate.
Qed.

(** A fetch that fails leaves the store as it was. *)
Lemma fetchFresh_failure (P : Platform) (api : Api) (w w' : World)
    (e : ErrorHandler.ExtensionError) :
  fetchFresh P api w = (inl e, w') -> store w' = store w.
Proof.
  unfold fetchFresh, throwHandled.
  pose proof (batchLoop_result api 0 loopFuel) as Hloop.
  assert (Hst : store (snd (batchLoop loopFuel api [] 0 0 w)) = store w).
  { clear Hloop. generalize loopFuel. intros fuel.
    assert (H : forall all start cf w0,
               store (snd (batchLoop fuel api all start cf w0)) = store w0).
    { induction fuel as [|fuel IH]; intros all start cf w0; [reflexivity|].
      rewrite batchLoop_S. pose proof (batchStep_store api all start cf w0) as Hs.
      destruct (batchStep api all start cf w0) as [[a s c|a|err] w1]; cbn [snd] in *;
        [rewrite IH|..]; assumption. }
    apply H. }
  clear Hloop.
  destruct (batchLoop loopFuel api [] 0 0 w) as [[all|err|] w1]; cbn [snd] in Hst.
  - destruct all as [|c all]; cbn [List.length Nat.eqb].
    + destruct (ErrorHandler.handleNetworkError _ _ _ _). intros [= _ <-]. exact Hst.
    + discriminate.
  - destruct (ErrorHandler.handleNetworkError _ _ _ _). intros [= _ <-]. exact Hst.
  - destruct (ErrorHandler.handleNetworkError _ _ _ _). intros [= _ <-]. exact Hst.
Qed.

Lemma withStore_same (w : World) : withStore (store w) w = w.
Proof. now destruct w. Qed.

(** The entry of the key after [set]. *)
Lemma set_get_entry (P : Platform) (key : string) (d : json) (t now : Z) (st : Store) :
  Storage.get key (CacheManager.set P key d t now st) = Some (written P d t now).
Proof. rewrite set_unfold. apply storage_get_set. Qed.

(** X24. A list that [getAllConnections] has fetched is served from the cache
    afterwards: as long as no more than five minutes have passed and nothing
    else has changed the store, [getAllConnections(false)] returns the same
    list without a call to the transport. *)
Theorem service_cached_after_fresh (P : Platform) (api : Api) (w w' : World)
    (v : json) (d : Z) :
  getAllConnections P api true w = (inr v, w') ->
  (0 <= d <= CacheManager.DEFAULT_TTL)%Z ->
  getAllConnections P api false (sleep d w') = (inr v, sleep d w')
  /\ calls (snd (getAllConnections P api false (sleep d w'))) = calls w'.
Proof.
  intros Hfresh Hd. cbn [getAllConnections negb] in Hfresh.
  destruct (fetchFresh_success P api w w' v Hfresh) as (all & w1 & _ & Hne & -> & ->).
  assert (Hget : CacheManager.get P CONNECTIONS_CACHE_KEY (now w1 + Z.max 0 d)
                   (CacheManager.set P CONNECTIONS_CACHE_KEY (Arr all)
                      CacheManager.DEFAULT_TTL (now w1) (store w1))
                 = (Some (Arr all),
                    CacheManager.set P CONNECTIONS_CACHE_KEY (Arr all)
                      CacheManager.DEFAULT_TTL (now w1) (store w1))).
  { apply (get_compressed P _ _ _ (written P (Arr all) CacheManager.DEFAULT_TTL (now w1))).
    - apply set_get_entry.
    - cbn [ttl timestamp written]. apply Z.ltb_ge. lia. }
  assert (H : getAllConnections P api false
                (sleep d (withStore (CacheManager.set P CONNECTIONS_CACHE_KEY (Arr all)
                                       CacheManager.DEFAULT_TTL (now w1) (store w1)) w1))
              = (inr (Arr all),
                 sleep d (withStore (CacheManager.set P CONNECTIONS_CACHE_KEY (Arr all)
                                       CacheManager.DEFAULT_TTL (now w1) (store w1)) w1))).
  { unfold getAllConnections. cbn [negb sleep withStore now store]. rewrite Hget.
    cbn [truthy]. reflexivity. }
  rewrite H. split; reflexivity.
Qed.

Lemma service_cached_after_fresh_witness :
  fst (getAllConnections examplePlatform twoBatches false
         (sleep 60000 (snd (getAllConnections examplePlatform twoBatches true (initial [] 0)))))
  = fst (getAllConnections examplePlatform twoBatches true (initial [] 0)).
Proof.
  destruct (getAllConnections examplePlatform twoBatches true (initial [] 0))
    as [[e|v] w'] eqn:E; [vm_compute in E; discriminate E|].
  cbn [fst snd].
  rewrite (proj1 (service_cached_after_fresh examplePlatform twoBatches
                    (initial [] 0) w' v 60000 E ltac:(unfold CacheManager.DEFAULT_TTL; lia))).
  reflexivity.
Defined.

(** X25. A fetch from the transport that succeeds returns a list that is not
    empty, holds the batches in the order in which they came, and has fewer
    than 1000 connections more than the largest batch allows: the limit of
    1000 is checked after a batch is added. The list is written to the cache
    under the key of the connections. *)
Theorem service_fresh_result (P : Platform) (api : Api) (w w' : World) (v : json)
    (bound : nat) :
  batchesWithin api bound ->
  getAllConnections P api true w = (inr v, w') ->
  exists connections,
    v = Arr connections
    /\ connections <> []
    /\ (List.length connections < 1000 + bound)%nat
    /\ (exists e, Storage.get CONNECTIONS_CACHE_KEY (store w') = Some e
                  /\ data e = v /\ ttl e = CacheManager.DEFAULT_TTL
                  /\ timestamp e = now w')
    /\ (calls w <= calls w')%nat /\ (now w <= now w')%Z
    /\ errors w' = errors (snd (batchLoop loopFuel api [] 0 0 w)).
Proof.
  intros Hbound Hfresh. cbn [getAllConnections negb] in Hfresh.
  destruct (fetchFresh_success P api w w' v Hfresh) as (all & w1 & Hloop & Hne & -> & ->).
  pose proof (batchLoop_result api bound loopFuel Hbound [] 0%Z 0%Z w) as Hres.
  cbn [List.length] in Hres. specialize (Hres ltac:(lia)). cbv zeta in Hres.
  rewrite Hloop in Hres. cbn [fst snd] in Hres.
  destruct Hres as (_ & Hnow & Hcalls & (Hlen & _)).
  exists all. split; [reflexivity|]. split; [exact Hne|]. split; [lia|].
  split.
  - exists (written P (Arr all) CacheManager.DEFAULT_TTL (now w1)).
    cbn [store withStore now]. split; [apply set_get_entry|]. repeat split.
  - rewrite Hloop. cbn. repeat split; assumption.
Qed.

Lemma service_fresh_result_witness :
  exists connections,
    fst (getAllConnections examplePlatform twoBatches true (initial [] 0)) = inr (Arr connections)
    /\ connections <> [] /\ (List.length connections < 1000 + 3)%nat.
Proof.
  destruct (getAllConnections examplePlatform twoBatches true (initial [] 0))
    as [[e|v] w'] eqn:E; [vm_compute in E; discriminate E|].
  destruct (service_fresh_result examplePlatform twoBatches (initial [] 0) w' v 3)
    as (connections & -> & Hne & Hlen & _).
  - intros i start count connections. unfold twoBatches. cbn [fetchConnections].
    destruct i as [|[|i]]; intros [= <-]; cbn; lia.
  - exact E.
  - exists connections. auto.
Defined.

(** X26. [refreshConnections] never serves the cached list: it answers as
    [getAllConnections(true)] does on a cache without the list. When it
    fails the cache holds no list any more, so that the list cached before
    is lost, and the other keys hold what they held; when it succeeds the
    new list is served from the cache afterwards. *)
Theorem service_refresh (P : Platform) (api : Api) (w w' : World) :
  snd (refreshConnections P api w) = w' ->
  match fst (refreshConnections P api w) with
  | inl _ =>
      Storage.get CONNECTIONS_CACHE_KEY (store w') = None
      /\ (forall t, fst (CacheManager.get P CONNECTIONS_CACHE_KEY t (store w')) = None)
      /\ (forall k, k <> CONNECTIONS_CACHE_KEY ->
                    Storage.get k (store w') = Storage.get k (store w))
  | inr v =>
      getAllConnections P api false w' = (inr v, w')
      /\ (exists connections, v = Arr connections /\ connections <> [])
  end.
Proof.
  intros <-. unfold refreshConnections. cbn zeta.
  set (w0 := withStore (CacheManager.remove CONNECTIONS_CACHE_KEY (store w)) w).
  destruct (getAllConnections P api true w0) as [[e|v] w'] eqn:E; cbn [fst snd];
    cbn [getAllConnections negb] in E.
  - rewrite (fetchFresh_failure P api w0 w' e E). cbn [store w0 withStore].
    assert (Hnone : Storage.get CONNECTIONS_CACHE_KEY
                      (CacheManager.remove CONNECTIONS_CACHE_KEY (store w)) = None).
    { unfold CacheManager.remove. apply storage_get_removed.
      cbn [existsb]. now rewrite String.eqb_refl. }
    split; [exact Hnone|]. split.
    + intros t. unfold CacheManager.get. now rewrite Hnone.
    + intros k Hk. unfold CacheManager.remove. apply storage_get_remove_other.
      cbn [existsb]. destruct (String.eqb_spec k CONNECTIONS_CACHE_KEY);
        [contradiction | reflexivity].
  - destruct (fetchFresh_success P api w0 w' v E) as (all & w1 & _ & Hne & -> & ->).
    split; [|eauto].
    unfold getAllConnections. cbn [negb withStore now store].
    rewrite (get_compressed P _ _ _ (written P (Arr all) CacheManager.DEFAULT_TTL (now w1)));
      [reflexivity | apply set_get_entry |].
    cbn [ttl timestamp written]. apply Z.ltb_ge. unfold CacheManager.DEFAULT_TTL. lia.
Qed.

Lemma service_refresh_witness :
  Storage.get CONNECTIONS_CACHE_KEY
    (store (snd (refreshConnections examplePlatform unauthorizedAlways
                   (initial [(CONNECTIONS_CACHE_KEY, flaggedEntry)] 2000))))
  = None.
Proof.
  pose proof (service_refresh examplePlatform unauthorizedAlways
                (initial [(CONNECTIONS_CACHE_KEY, flaggedEntry)] 2000) _ eq_refl) as H.
  destruct (fst (refreshConnections examplePlatform unauthorizedAlways
                   (initial [(CONNECTIONS_CACHE_KEY, flaggedEntry)] 2000))) as [e|v] eqn:E.
  - exact (proj1 H).
  - vm_compute in E. discriminate E.
Defined.

(** *** The health check *)

(** X27. [performHealthCheck] gives one recommendation for each issue and at
    most four issues; the status is healthy exactly when there is no issue;
    it is critical exactly when the error log holds an error that is not
    recoverable and the queue is not backed up, since a backed up queue
    turns the status back to warning; with the queue of the service, to
    which nothing is ever added, it is critical exactly when the log holds
    such an error. *)
Theorem service_health_check (requestQueue : RequestQueue.State) (w : World) :
  let r := performHealthCheck requestQueue w in
  let critical_errors :=
    filter (fun e => negb (ErrorHandler.recoverable e)) (ErrorHandler.errorLog (errors w)) in
  List.length (recommendations r) = List.length (issues r)
  /\ (List.length (issues r) <= 4)%nat
  /\ (status r = healthy <-> issues r = [])
  /\ (status r = critical
      <-> critical_errors <> []
          /\ (List.length (RequestQueue.queue requestQueue) <= 50)%nat)
  /\ (requestQueue = RequestQueue.initial ->
      (status r = critical <-> critical_errors <> [])).
Proof.
  cbn zeta. unfold performHealthCheck.
  set (c1 := Number.ltb _ _). set (c2 := (10 <? _)%Z).
  assert (Hc3 : (0 <? ErrorHandler.criticalErrors
                        (ErrorHandler.getErrorAnalysis (now w) (errors w)))%Z = true
                <-> filter (fun e => negb (ErrorHandler.recoverable e))
                      (ErrorHandler.errorLog (errors w)) <> []).
  { unfold ErrorHandler.getErrorAnalysis. cbn [ErrorHandler.criticalErrors].
    rewrite Z.ltb_lt.
    destruct (filter _ (ErrorHandler.errorLog (errors w))); cbn [List.length];
      split; intros H; try lia; try congruence; try discriminate. }
  assert (Hc4 : (50 <? RequestQueue.queueLength (RequestQueue.getStats requestQueue))%Z = false
                <-> (List.length (RequestQueue.queue requestQueue) <= 50)%nat).
  { unfold RequestQueue.getStats. cbn. rewrite Z.ltb_ge. lia. }
  set (c3 := (0 <? _)%Z) in *. set (c4 := (50 <? _)%Z) in *.
  set (i2 := (_ ++ _)%string). set (i3 := (_ ++ _)%string).
  clearbody c1 c2 i2 i3.
  assert (H : forall l : list string, (l = [] -> False) <-> l <> []) by (intros; tauto).
  split; [|split; [|split; [|split]]].
  - destruct c1, c2, c3, c4; reflexivity.
  - destruct c1, c2, c3, c4; cbn; lia.
  - destruct c1, c2, c3, c4; cbn; split; intros; congruence.
  - rewrite <- Hc3, <- Hc4.
    destruct c1, c2, c3, c4; cbn; split; intros; try congruence; try tauto;
      try (destruct H0; congruence).
  - intros ->. rewrite <- Hc3.
    assert (Hq : c4 = false) by (apply Hc4; cbn; lia).
    rewrite Hq. destruct c1, c2, c3; cbn; split; intros; congruence.
Qed.

Lemma service_health_check_witness :
  status (performHealthCheck RequestQueue.initial
            (withErrors ErrorLog.exampleLog (initial [] 5000)))
  = critical.
Proof.
  refine (proj2 (proj2 (proj2 (proj2 (proj2
    (service_health_check RequestQueue.initial
       (withErrors ErrorLog.exampleLog (initial [] 5000)))))) eq_refl) _).
  vm_compute. discriminate.
Defined.

End ServiceMoreProofs.
